(** * GenifyAI: symbol extraction, parse cache, export resolution, fuzzy merge

    A shallow embedding of the code-intelligence core of GenifyAI
    (TypeScript) and the properties proved about it.

    Conventions of the embedding:
    - JavaScript strings are [string] (sequences of 8-bit code units); the
      case conversions are the ASCII restriction of [toLowerCase] and
      [toUpperCase].
    - JavaScript [number]s that the code only compares, increments or
      subtracts (line numbers, modification times, limits) are [Z]; scores
      are [Z] in hundredths ([0.9] is [90]).
    - [undefined]/[null] is [None]; truthiness of an optional string is
      [truthy].
    - Module-level singletons (the parse cache, the parser registry) are
      explicit states passed in and returned.
    - A JavaScript exception is the [Threw] case of [Attempt]; a rejected
      promise is the [Rejected] case of [Settled]. *)

From Stdlib Require Import ZArith Ascii String List Bool Lia.
From stdpp Require Import gmap strings list fin_maps sorting pretty.

Local Open Scope Z_scope.
#[local] Set Warnings "-clear-no-such-hyp".
#[local] Set Warnings "-register-all".

(* ===================================================================== *)
(** * JavaScript string primitives used by the sources                    *)
(* ===================================================================== *)

Module Js.

Definition is_upper (c : ascii) : bool :=
  let n := nat_of_ascii c in (65 <=? n)%nat && (n <=? 90)%nat.

Definition is_lower (c : ascii) : bool :=
  let n := nat_of_ascii c in (97 <=? n)%nat && (n <=? 122)%nat.

(** The case conversions of one code unit, as they are on ASCII: only the
    letters [A-Z] and [a-z] change. *)
Definition lower_char (c : ascii) : ascii :=
  if is_upper c then ascii_of_nat (nat_of_ascii c + 32) else c.

Definition upper_char (c : ascii) : ascii :=
  if is_lower c then ascii_of_nat (nat_of_ascii c - 32) else c.

(** [s.toLowerCase()] on a string of ASCII characters. (On other
    characters JavaScript's conversion follows Unicode; the properties
    that depend on it are stated for ASCII strings.) *)
Fixpoint toLowerCase (s : string) : string :=
  match s with
  | EmptyString => EmptyString
  | String c s' => String (lower_char c) (toLowerCase s')
  end.

(** [s.startsWith(p)] *)
Fixpoint startsWith (s p : string) {struct p} : bool :=
  match p, s with
  | EmptyString, _ => true
  | String _ _, EmptyString => false
  | String a p', String b s' => if decide (a = b) then startsWith s' p' else false
  end.

(** [s.includes(q)] *)
Fixpoint includes (s q : string) : bool :=
  startsWith s q ||
  match s with
  | EmptyString => false
  | String _ s' => includes s' q
  end.

(** [s.lastIndexOf(c)] for a one-character needle; [-1] when absent. *)
Fixpoint lastIndexOf (s : string) (c : ascii) : Z :=
  match s with
  | EmptyString => -1
  | String a s' =>
      let i := lastIndexOf s' c in
      if 0 <=? i then i + 1
      else if decide (a = c) then 0 else -1
  end.

Fixpoint drop (n : nat) (s : string) : string :=
  match n, s with
  | O, _ => s
  | S _, EmptyString => EmptyString
  | S n', String _ s' => drop n' s'
  end.

(** [s.substring(i)]: a negative start is clamped to [0], a start past
    the end gives the empty string. *)
Definition substring (s : string) (i : Z) : string :=
  drop (Z.to_nat (Z.max 0 i)) s.

(** Truthiness of an optional string: [undefined] and [""] are falsy. *)
Definition truthy (o : option string) : bool :=
  match o with
  | Some EmptyString | None => false
  | Some _ => true
  end.

End Js.

(* ===================================================================== *)
(** * Data model (parsers/types.ts)                                       *)
(* ===================================================================== *)

(** [SymbolKind]; the last five tags are produced by the Python and Vue
    extractors at run time. *)
Inductive SymbolKind :=
  | k_function | k_class | k_interface | k_type | k_enum
  | k_const | k_let | k_var
  | k_function_component | k_class_component | k_hook
  | k_method | k_getter | k_setter
  | k_contract | k_library | k_sol_interface | k_struct | k_event
  | k_modifier | k_error | k_mapping
  | k_element | k_component
  | k_selector | k_variable | k_mixin | k_keyframes
  | k_decorator | k_props | k_emits | k_computed | k_watch.

Global Instance SymbolKind_eq_dec : EqDecision SymbolKind.
Proof. solve_decision. Defined.

Record SymbolLocation := {
  startLine : Z;
  endLine : Z;
  startCol : Z;
  endCol : Z
}.

Record SymbolInfo := {
  name : string;
  kind : SymbolKind;
  file : string;
  location : SymbolLocation;
  range : string;
  signature : string;
  language : string
}.

Inductive ExportKind := ek_named | ek_default | ek_all.

Record ExportInfo := {
  exp_kind : ExportKind;
  localName : option string;
  exportedName : option string;
  source : option string;
  exp_location : SymbolLocation
}.

Record ParseResult := {
  symbols : list SymbolInfo;
  exports : list ExportInfo;
  errors : list string
}.

(** Outcome of a computation that may throw. *)
Inductive Attempt (A : Type) :=
  | Returned (a : A)
  | Threw (message : string).
Arguments Returned {A} a.
Arguments Threw {A} message.

(* ===================================================================== *)
(** * The file system as the core sees it                                 *)
(* ===================================================================== *)

(** [toAbsolute] is utils/pathResolver.ts; [statSync] gives the
    modification time [mtimeMs] or throws ([None]); [readFileSync] gives
    the text or throws ([None]). *)
Record FileSystem := {
  toAbsolute : string → string;
  statSync : string → option Z;
  readFileSync : string → option string
}.

(** utils/fileReader.ts *)
Definition readFileContent (fs : FileSystem) (filePath : string) : option string :=
  readFileSync fs (toAbsolute fs filePath).

(* ===================================================================== *)
(** * Parse cache (parsers/cache.ts)                                      *)
(* ===================================================================== *)

Record CacheEntry := {
  mtime : Z;
  result : ParseResult
}.

Module Cache.

Definition getCachedResult (fs : FileSystem) (cache : gmap string CacheEntry)
    (filePath : string) : option ParseResult * gmap string CacheEntry :=
  match cache !! filePath with
  | None => (None, cache)
  | Some entry =>
      let absolutePath := toAbsolute fs filePath in
      match statSync fs absolutePath with
      | Some currentMtime =>
          if decide (currentMtime = mtime entry)
          then (Some (result entry), cache)
          else (None, delete filePath cache)
      | None => (None, delete filePath cache)
      end
  end.

Definition setCachedResult (fs : FileSystem) (cache : gmap string CacheEntry)
    (filePath : string) (r : ParseResult) : gmap string CacheEntry :=
  let absolutePath := toAbsolute fs filePath in
  match statSync fs absolutePath with
  | Some m => <[filePath := {| mtime := m; result := r |}]> cache
  | None => cache
  end.

Definition invalidateCache (cache : gmap string CacheEntry)
    (filePath : option string) : gmap string CacheEntry :=
  if Js.truthy filePath
  then match filePath with Some p => delete p cache | None => cache end
  else ∅.

End Cache.

(* ===================================================================== *)
(** * Parser registry (parsers/registry.ts)                               *)
(* ===================================================================== *)

Record LanguageParser := {
  lp_language : string;
  extensions : list string;
  lp_parseFile :
    FileSystem → gmap string CacheEntry → string →
    ParseResult * gmap string CacheEntry;
  lp_parseFileForSymbol :
    FileSystem → gmap string CacheEntry → string → string → option SymbolKind →
    list SymbolInfo * gmap string CacheEntry
}.

Module Registry.

Definition registerParser (parsers : gmap string LanguageParser)
    (parser : LanguageParser) : gmap string LanguageParser :=
  foldl (λ m ext, <[ext := parser]> m) parsers (extensions parser).

Definition getParserForFile (parsers : gmap string LanguageParser)
    (filePath : string) : option LanguageParser :=
  let ext := Js.substring filePath (Js.lastIndexOf filePath ".") in
  parsers !! ext.

End Registry.

(* ===================================================================== *)
(** * Language extractors                                                 *)
(* ===================================================================== *)

Global Instance Attempt_ret : MRet Attempt := λ A a, Returned a.
Global Instance Attempt_bind : MBind Attempt := λ A B f m,
  match m with
  | Returned a => f a
  | Threw e => Threw e
  end.

(** What the body of a [try] block computes from a file path and the file's
    text: the tree-sitter parse followed by the dialect's collectors. *)
Definition Extract : Type :=
  string → string → Attempt (list SymbolInfo * list ExportInfo).

Module Extractor.

(** The body of [parseFile] in typescript.ts, python.ts, css.ts, html.ts
    and solidity.ts; the five differ only in what runs inside [try]. *)
Definition parseFile (extract : Extract) (fs : FileSystem)
    (cache : gmap string CacheEntry) (filePath : string)
    : ParseResult * gmap string CacheEntry :=
  match Cache.getCachedResult fs cache filePath with
  | (Some cached, cache1) => (cached, cache1)
  | (None, cache1) =>
      let sourceCode := readFileContent fs filePath in
      if negb (Js.truthy sourceCode) then
        ({| symbols := []; exports := [];
            errors := ["Failed to read file: " +:+ filePath] |}, cache1)
      else
        match extract filePath (default "" sourceCode) with
        | Returned (symbols, exports) =>
            let r := {| symbols := symbols; exports := exports; errors := [] |} in
            (r, Cache.setCachedResult fs cache1 filePath r)
        | Threw err =>
            ({| symbols := []; exports := [];
                errors := ["Failed to parse file: " +:+ filePath +:+ " - " +:+ err] |},
             cache1)
        end
  end.

(** The filter of [parseFileForSymbol] in python.ts, css.ts, html.ts,
    solidity.ts and vue.ts. *)
Definition matchesInsensitive (query : string) (type : option SymbolKind)
    (s : SymbolInfo) : bool :=
  let nameMatch := Js.includes (Js.toLowerCase (name s)) (Js.toLowerCase query) in
  let typeMatch :=
    match type with
    | None => true
    | Some t => bool_decide (kind s = t)
    end in
  nameMatch && typeMatch.

End Extractor.

Module Typescript.

Definition parseFile := Extractor.parseFile.

Definition parseFileForSymbol (extract : Extract) (fs : FileSystem)
    (cache : gmap string CacheEntry) (filePath symbolName : string)
    (symbolType : option SymbolKind)
    : list SymbolInfo * gmap string CacheEntry :=
  let '(result, cache1) := parseFile extract fs cache filePath in
  (List.filter (λ s,
     let nameMatch :=
       bool_decide (name s = symbolName) || Js.includes (name s) symbolName in
     let typeMatch :=
       match symbolType with
       | None => true
       | Some t => bool_decide (kind s = t)
       end in
     nameMatch && typeMatch) (symbols result), cache1).

Definition typescriptParser (extract : Extract) : LanguageParser :=
  {| lp_language := "typescript";
     extensions := [".ts"; ".tsx"; ".js"; ".jsx"];
     lp_parseFile := parseFile extract;
     lp_parseFileForSymbol := parseFileForSymbol extract |}.

End Typescript.

Module Solidity.

Definition parseFile := Extractor.parseFile.

Definition parseFileForSymbol (extract : Extract) (fs : FileSystem)
    (cache : gmap string CacheEntry) (filePath query : string)
    (type : option SymbolKind)
    : list SymbolInfo * gmap string CacheEntry :=
  let '(result, cache1) := parseFile extract fs cache filePath in
  (List.filter (λ s,
     let nameMatch := Js.includes (Js.toLowerCase (name s)) (Js.toLowerCase query) in
     let typeMatch :=
       match type with
       | None => true
       | Some t => bool_decide (kind s = t)
       end in
     nameMatch && typeMatch) (symbols result), cache1).

Definition solidityParser (extract : Extract) : LanguageParser :=
  {| lp_language := "solidity";
     extensions := [".sol"];
     lp_parseFile := parseFile extract;
     lp_parseFileForSymbol := parseFileForSymbol extract |}.

End Solidity.

Module Python.

Definition parseFile := Extractor.parseFile.

Definition parseFileForSymbol (extract : Extract) (fs : FileSystem)
    (cache : gmap string CacheEntry) (filePath query : string)
    (type : option SymbolKind)
    : list SymbolInfo * gmap string CacheEntry :=
  let '(result, cache1) := parseFile extract fs cache filePath in
  (List.filter (Extractor.matchesInsensitive query type) (symbols result), cache1).

Definition pythonParserInstance (extract : Extract) : LanguageParser :=
  {| lp_language := "python";
     extensions := [".py"; ".pyw"];
     lp_parseFile := parseFile extract;
     lp_parseFileForSymbol := parseFileForSymbol extract |}.

End Python.

(** ** The compound-document extractor (vue.ts) *)

Record SfcBlock := {
  content : string;
  sfc_startLine : Z;
  lang : option string
}.

Record SfcBlocks := {
  script : option SfcBlock;
  template : option SfcBlock;
  style : option SfcBlock
}.

Inductive TsGrammar := ts_grammar | tsx_grammar.

(** The tree-sitter parsers and the collectors of vue.ts over an abstract
    syntax-tree type. Each collector returns what it pushes onto the shared
    [symbols] and [exports] arrays, or throws. *)
Record VueToolkit := {
  Tree : Type;
  extractSfcBlocks : string → SfcBlocks;
  ts_parse : TsGrammar → string → Attempt Tree;
  css_parse : string → Attempt Tree;
  collectScriptSymbols :
    Tree → string → string → Z → Attempt (list SymbolInfo * list ExportInfo);
  collectOptionsApiSymbols : Tree → string → string → Z → Attempt (list SymbolInfo);
  collectTemplateComponents : string → string → Z → Attempt (list SymbolInfo);
  collectCssSymbols : Tree → string → Z → Attempt (list SymbolInfo)
}.

Module Vue.

Definition scriptSection (tk : VueToolkit) (filePath : string)
    (block : option SfcBlock) : Attempt (list SymbolInfo * list ExportInfo) :=
  match block with
  | Some b =>
      let parser :=
        if bool_decide (lang b = Some "tsx") then tsx_grammar else ts_grammar in
      scriptTree ← ts_parse tk parser (content b);
      '(syms, exps) ←
        collectScriptSymbols tk scriptTree filePath (content b) (sfc_startLine b);
      opts ←
        collectOptionsApiSymbols tk scriptTree filePath (content b) (sfc_startLine b);
      mret (syms ++ opts, exps)
  | None => mret ([], [])
  end.

Definition templateSection (tk : VueToolkit) (filePath : string)
    (block : option SfcBlock) : Attempt (list SymbolInfo) :=
  match block with
  | Some b => collectTemplateComponents tk (content b) filePath (sfc_startLine b)
  | None => mret []
  end.

Definition styleSection (tk : VueToolkit) (filePath : string)
    (block : option SfcBlock) : Attempt (list SymbolInfo) :=
  match block with
  | Some b =>
      styleTree ← css_parse tk (content b);
      collectCssSymbols tk styleTree filePath (sfc_startLine b)
  | None => mret []
  end.

(** The body of the single [try] block of [parseFile]. *)
Definition tryBody (tk : VueToolkit) : Extract := λ filePath sourceCode,
  let blocks := extractSfcBlocks tk sourceCode in
  '(scriptSyms, exps) ← scriptSection tk filePath (script blocks);
  templateSyms ← templateSection tk filePath (template blocks);
  styleSyms ← styleSection tk filePath (style blocks);
  mret (scriptSyms ++ templateSyms ++ styleSyms, exps).

Definition parseFile (tk : VueToolkit) (fs : FileSystem)
    (cache : gmap string CacheEntry) (filePath : string)
    : ParseResult * gmap string CacheEntry :=
  match Cache.getCachedResult fs cache filePath with
  | (Some cached, cache1) => (cached, cache1)
  | (None, cache1) =>
      let sourceCode := readFileContent fs filePath in
      if negb (Js.truthy sourceCode) then
        ({| symbols := []; exports := [];
            errors := ["Failed to read file: " +:+ filePath] |}, cache1)
      else
        match tryBody tk filePath (default "" sourceCode) with
        | Returned (symbols, exports) =>
            let r := {| symbols := symbols; exports := exports; errors := [] |} in
            (r, Cache.setCachedResult fs cache1 filePath r)
        | Threw err =>
            ({| symbols := []; exports := [];
                errors := ["Failed to parse file: " +:+ filePath +:+ " - " +:+ err] |},
             cache1)
        end
  end.

Definition parseFileForSymbol (tk : VueToolkit) (fs : FileSystem)
    (cache : gmap string CacheEntry) (filePath query : string)
    (type : option SymbolKind)
    : list SymbolInfo * gmap string CacheEntry :=
  let '(result, cache1) := parseFile tk fs cache filePath in
  (List.filter (λ s,
     let nameMatch := Js.includes (Js.toLowerCase (name s)) (Js.toLowerCase query) in
     let typeMatch :=
       match type with
       | None => true
       | Some t => bool_decide (kind s = t)
       end in
     nameMatch && typeMatch) (symbols result), cache1).

Definition vueParserInstance (tk : VueToolkit) : LanguageParser :=
  {| lp_language := "vue";
     extensions := [".vue"];
     lp_parseFile := parseFile tk;
     lp_parseFileForSymbol := parseFileForSymbol tk |}.

End Vue.

(** ** Dispatch by extension (parsers/index.ts) *)

Module Index.

Definition parseFile (parsers : gmap string LanguageParser) (fs : FileSystem)
    (cache : gmap string CacheEntry) (filePath : string)
    : ParseResult * gmap string CacheEntry :=
  match Registry.getParserForFile parsers filePath with
  | None =>
      ({| symbols := []; exports := [];
          errors := ["Unsupported file type: " +:+ filePath] |}, cache)
  | Some parser => lp_parseFile parser fs cache filePath
  end.

Definition parseFileForSymbol (parsers : gmap string LanguageParser)
    (fs : FileSystem) (cache : gmap string CacheEntry)
    (filePath query : string) (type : option SymbolKind)
    : list SymbolInfo * gmap string CacheEntry :=
  match Registry.getParserForFile parsers filePath with
  | None => ([], cache)
  | Some parser => lp_parseFileForSymbol parser fs cache filePath query type
  end.

End Index.

(* ===================================================================== *)
(** * Export resolver (parsers/exportResolver.ts)                         *)
(* ===================================================================== *)

(** Node's [path] functions and the file test
    [fs.existsSync(c) && fs.statSync(c).isFile()]. *)
Record PathEnv := {
  dirname : string → string;
  join : list string → string;
  relative : string → string → string;
  getWorkspaceRoot : string;
  isFile : string → bool
}.

Record ResolvedExport := {
  originalFile : string;
  originalName : string;
  resolvedFile : string;
  resolvedSymbol : option SymbolInfo;
  exportChain : list string
}.

Module ExportResolver.

Definition MAX_DEPTH : nat := 10.

Definition resolveModulePath (pe : PathEnv) (fs : FileSystem)
    (fromFile importPath : string) : option string :=
  let dir := dirname pe (toAbsolute fs fromFile) in
  let extensions := [".ts"; ".tsx"; ".js"; ".jsx"; ""] in
  match List.find (λ ext, isFile pe (join pe [dir; importPath +:+ ext])) extensions with
  | Some ext =>
      Some (relative pe (getWorkspaceRoot pe) (join pe [dir; importPath +:+ ext]))
  | None =>
      match List.find
              (λ ext, isFile pe (join pe [dir; importPath; "index" +:+ ext]))
              extensions with
      | Some ext =>
          Some (relative pe (getWorkspaceRoot pe)
                  (join pe [dir; importPath; "index" +:+ ext]))
      | None => None
      end
  end.

(** The key [`${filePath}:${exportedName}`] of the visited set. *)
Definition visitKey (filePath exported : string) : string :=
  filePath +:+ ":" +:+ exported.

Definition unshiftChain (filePath : string) (r : ResolvedExport) : ResolvedExport :=
  {| originalFile := originalFile r;
     originalName := originalName r;
     resolvedFile := resolvedFile r;
     resolvedSymbol := resolvedSymbol r;
     exportChain := filePath :: exportChain r |}.

Definition localHit (filePath exported : string) (s : SymbolInfo) : ResolvedExport :=
  {| originalFile := filePath;
     originalName := exported;
     resolvedFile := filePath;
     resolvedSymbol := Some s;
     exportChain := [filePath] |}.

Section Walk.

(** [parseFile] of parsers/index.ts with its effect on the parse cache
    (the state [St]), and [resolveModulePath] on a fixed file system. *)
Context {St : Type}.
Variable parseFile : string → St → ParseResult * St.
Variable resolve : string → string → option string.

(** The [for (const exp of result.exports)] loop of [followExport];
    [recur] is the recursive call at [depth + 1]. The outer [None]
    means the fuel of the recursive call ran out, the inner one is
    JavaScript's [null]. *)
Definition followLoop
    (recur : string → string → gset string → St →
             option (option ResolvedExport * gset string * St))
    (filePath exported : string) (result : ParseResult)
    : list ExportInfo → gset string → St →
      option (option ResolvedExport * gset string * St) :=
  fix loop (exps : list ExportInfo) (visited : gset string) (st : St) :=
    match exps with
    | [] => Some (None, visited, st)
    | exp :: rest =>
        match exp_kind exp with
        | ek_named =>
            if bool_decide (exportedName exp = Some exported)
               && Js.truthy (source exp)
            then
              let targetFile := resolve filePath (default "" (source exp)) in
              if Js.truthy targetFile then
                match recur (default "" targetFile)
                        (default exported (localName exp)) visited st with
                | None => None
                | Some (Some resolved, visited, st) =>
                    Some (Some (unshiftChain filePath resolved), visited, st)
                | Some (None, visited, st) => loop rest visited st
                end
              else loop rest visited st
            else loop rest visited st
        | ek_all =>
            if Js.truthy (source exp) then
              let targetFile := resolve filePath (default "" (source exp)) in
              if Js.truthy targetFile then
                match recur (default "" targetFile) exported visited st with
                | None => None
                | Some (Some resolved, visited, st) =>
                    Some (Some (unshiftChain filePath resolved), visited, st)
                | Some (None, visited, st) => loop rest visited st
                end
              else loop rest visited st
            else loop rest visited st
        | ek_default =>
            if bool_decide (exported = "default") && Js.truthy (localName exp)
            then
              match List.find
                      (λ s, bool_decide (Some (name s) = localName exp))
                      (symbols result) with
              | Some localSymbol =>
                  Some (Some (localHit filePath exported localSymbol), visited, st)
              | None => loop rest visited st
              end
            else loop rest visited st
        end
    end.

(** [followExport]. The visited set is the single mutable [Set] shared
    by all recursive calls; the outer [None] means the fuel ran out. *)
Fixpoint followExport_fuel (fuel : nat) (filePath exported : string)
    (visited : gset string) (depth : nat) (st : St)
    : option (option ResolvedExport * gset string * St) :=
  match fuel with
  | O => None
  | S fuel' =>
      if (MAX_DEPTH <? depth)%nat then Some (None, visited, st) else
      let key := visitKey filePath exported in
      if decide (key ∈ visited) then Some (None, visited, st) else
      let visited := {[key]} ∪ visited in
      let '(result, st) := parseFile filePath st in
      if (0 <? length (errors result))%nat then Some (None, visited, st) else
      match List.find (λ s, bool_decide (name s = exported)) (symbols result) with
      | Some localSymbol =>
          Some (Some (localHit filePath exported localSymbol), visited, st)
      | None =>
          followLoop
            (λ f n v s, followExport_fuel fuel' f n v (S depth) s)
            filePath exported result (exports result) visited st
      end
  end.

(** Fuel that covers every call chain from [depth] up to the depth
    guard. *)
Definition enoughFuel (depth : nat) : nat := S (MAX_DEPTH + 1 - depth).

Definition followExport (filePath exported : string) (visited : gset string)
    (depth : nat) (st : St) : option (option ResolvedExport * gset string * St) :=
  followExport_fuel (enoughFuel depth) filePath exported visited depth st.

Definition resolveSymbolThroughExports (filePath symbolName : string) (st : St)
    : option (option SymbolInfo * St) :=
  match followExport filePath symbolName ∅ 0%nat st with
  | None => None
  | Some (Some resolved, _, st) => Some (resolvedSymbol resolved, st)
  | Some (None, _, st) => Some (None, st)
  end.

(** The [for (const exp of result.exports)] loop of
    [getAllReexportedSymbols]; [acc] is the [symbols] array. *)
Definition reexportLoop
    (recur : string → gset string → St →
             option (list SymbolInfo * gset string * St))
    (filePath : string)
    : list ExportInfo → list SymbolInfo → gset string → St →
      option (list SymbolInfo * gset string * St) :=
  fix loop (exps : list ExportInfo) (acc : list SymbolInfo)
      (visited : gset string) (st : St) :=
    match exps with
    | [] => Some (acc, visited, st)
    | exp :: rest =>
        match exp_kind exp with
        | ek_all =>
            if Js.truthy (source exp) then
              let targetFile := resolve filePath (default "" (source exp)) in
              if Js.truthy targetFile then
                match recur (default "" targetFile) visited st with
                | None => None
                | Some (reexported, visited, st) =>
                    loop rest (acc ++ reexported) visited st
                end
              else loop rest acc visited st
            else loop rest acc visited st
        | _ => loop rest acc visited st
        end
    end.

Fixpoint getAllReexportedSymbols_fuel (fuel : nat) (filePath : string)
    (visited : gset string) (depth : nat) (st : St)
    : option (list SymbolInfo * gset string * St) :=
  match fuel with
  | O => None
  | S fuel' =>
      if (MAX_DEPTH <? depth)%nat then Some ([], visited, st) else
      if decide (filePath ∈ visited) then Some ([], visited, st) else
      let visited := {[filePath]} ∪ visited in
      let '(result, st) := parseFile filePath st in
      if (0 <? length (errors result))%nat then Some ([], visited, st) else
      reexportLoop
        (λ f v s, getAllReexportedSymbols_fuel fuel' f v (S depth) s)
        filePath (exports result) (symbols result) visited st
  end.

Definition getAllReexportedSymbols (filePath : string) (visited : gset string)
    (depth : nat) (st : St) : option (list SymbolInfo * gset string * St) :=
  getAllReexportedSymbols_fuel (enoughFuel depth) filePath visited depth st.

End Walk.

End ExportResolver.

(* ===================================================================== *)
(** * Fuzzy search (tools/searchFuzzy.ts)                                 *)
(* ===================================================================== *)

(** Outcome of an awaited promise. *)
Inductive Settled (A : Type) :=
  | Fulfilled (a : A)
  | Rejected (reason : string).
Arguments Fulfilled {A} a.
Arguments Rejected {A} reason.

Global Instance Settled_ret : MRet Settled := λ A a, Fulfilled a.
Global Instance Settled_bind : MBind Settled := λ A B f m,
  match m with
  | Fulfilled a => f a
  | Rejected e => Rejected e
  end.

Record FuzzyResult := {
  fz_file : string;
  fz_range : string;
  fz_symbol : option string;
  fz_kind : option SymbolKind;
  score : Z;
  reasons : list string
}.

Record SearchSymbolInput := {
  ss_query : string;
  ss_type : option SymbolKind;
  ss_scope : option string;
  ss_limit : Z;
  ss_followExports : bool
}.

Record SearchFuzzyInput := {
  sf_query : string;
  sf_scope : option string;
  sf_limit : Z
}.

Module Fuzzy.

(** [[...new Set(l)]]: the distinct elements in order of first occurrence. *)
Fixpoint uniq (l : list string) : list string :=
  match l with
  | [] => []
  | x :: l' => x :: List.filter (λ y, negb (bool_decide (y = x))) (uniq l')
  end.

(** The class [\s] among the ASCII characters: tab, line feed, vertical
    tab, form feed, carriage return and space. *)
Definition is_space (c : ascii) : bool :=
  let n := nat_of_ascii c in ((9 <=? n)%nat && (n <=? 13)%nat) || (n =? 32)%nat.

(** [s.replace(/\s+/g, '')] *)
Fixpoint stripSpaces (s : string) : string :=
  match s with
  | EmptyString => EmptyString
  | String c s' => if is_space c then stripSpaces s' else String c (stripSpaces s')
  end.

(** [s.replace(/-([a-z])/g, (_, c) => c.toUpperCase())] *)
Fixpoint kebabToCamel (s : string) : string :=
  match s with
  | EmptyString => EmptyString
  | String c s' =>
      match s' with
      | String d s'' =>
          if bool_decide (c = "-"%char) && Js.is_lower d
          then String (Js.upper_char d) (kebabToCamel s'')
          else String c (kebabToCamel s')
      | EmptyString => String c EmptyString
      end
  end.

(** [s.replace(/([a-z])([A-Z])/g, '$1-$2')] *)
Fixpoint hyphenate (s : string) : string :=
  match s with
  | EmptyString => EmptyString
  | String c s' =>
      match s' with
      | String d s'' =>
          if Js.is_lower c && Js.is_upper d
          then String c (String "-" (String d (hyphenate s'')))
          else String c (hyphenate s')
      | EmptyString => String c EmptyString
      end
  end.

Definition camelToKebab (s : string) : string := Js.toLowerCase (hyphenate s).

(** [s.charAt(0).toUpperCase() + s.slice(1)] *)
Definition pascal (s : string) : string :=
  match s with
  | EmptyString => EmptyString
  | String c s' => String (Js.upper_char c) s'
  end.

Definition normalizeQuery (query : string) : list string :=
  uniq [query; Js.toLowerCase query; stripSpaces query; kebabToCamel query;
        camelToKebab query; pascal query].

(** ** symbolRecall *)

Definition symbolKey (sym : SymbolInfo) : string := file sym +:+ ":" +:+ name sym.

Definition symbolCandidate (query : string) (sym : SymbolInfo) : FuzzyResult :=
  let isExact :=
    bool_decide (name sym = query)
    || bool_decide (Js.toLowerCase (name sym) = Js.toLowerCase query) in
  {| fz_file := file sym;
     fz_range := range sym;
     fz_symbol := Some (name sym);
     fz_kind := Some (kind sym);
     score := if isExact then 90 else 70;
     reasons := if isExact then ["definition_exact"] else ["definition_match"] |}.

(** The inner [for (const sym of symbols)] loop over one variant's results. *)
Fixpoint collectSymbols (query : string) (symbols : list SymbolInfo)
    (seen : gset string) (allResults : list FuzzyResult)
    : gset string * list FuzzyResult :=
  match symbols with
  | [] => (seen, allResults)
  | sym :: rest =>
      let key := symbolKey sym in
      if decide (key ∈ seen) then collectSymbols query rest seen allResults
      else collectSymbols query rest ({[key]} ∪ seen)
             (allResults ++ [symbolCandidate query sym])
  end.

Section Recall.

(** [searchSymbol] of tools/searchSymbol.ts, awaited. *)
Variable searchSymbol : SearchSymbolInput → Settled (list SymbolInfo).

(** The outer [for (const variant of variants)] loop. *)
Fixpoint symbolRecallLoop (query : string) (scope : option string)
    (limit : option Z) (variants : list string) (seen : gset string) (allResults : list FuzzyResult)
    : Settled (list FuzzyResult) :=
  match variants with
  | [] => Fulfilled allResults
  | variant :: rest =>
      symbols ← searchSymbol {| ss_query := variant; ss_type := None;
                                ss_scope := scope; ss_limit := default 20 limit;
                                ss_followExports := true |};
      let '(seen', allResults') := collectSymbols query symbols seen allResults in
      symbolRecallLoop query scope limit rest seen' allResults'
  end.

Definition symbolRecall (query : string) (scope : option string)
    (limit : option Z)
    : Settled (list FuzzyResult) :=
  symbolRecallLoop query scope limit (normalizeQuery query) ∅ [].

End Recall.

(** ** mergeAndSort *)

(** A JavaScript [Map] with string keys: insertion-ordered; [set] on a
    present key replaces the value in place. *)
Fixpoint mapGet {V} (k : string) (m : list (string * V)) : option V :=
  match m with
  | [] => None
  | (k', v) :: m' => if decide (k = k') then Some v else mapGet k m'
  end.

Fixpoint mapSet {V} (k : string) (v : V) (m : list (string * V)) : list (string * V) :=
  match m with
  | [] => [(k, v)]
  | (k', v') :: m' => if decide (k = k') then (k, v) :: m' else (k', v') :: mapSet k v m'
  end.

Definition dedupKey (r : FuzzyResult) : string := fz_file r +:+ ":" +:+ fz_range r.

Definition withReasons (r : FuzzyResult) (rs : list string) : FuzzyResult :=
  {| fz_file := fz_file r; fz_range := fz_range r; fz_symbol := fz_symbol r;
     fz_kind := fz_kind r; score := score r; reasons := rs |}.

(** One iteration of [for (const r of results)]. *)
Definition mergeStep (m : list (string * FuzzyResult)) (r : FuzzyResult)
    : list (string * FuzzyResult) :=
  let key := dedupKey r in
  match mapGet key m with
  | None => mapSet key r m
  | Some existing =>
      if score existing <? score r
      then mapSet key (withReasons r (uniq (reasons r ++ reasons existing))) m
      else mapSet key (withReasons existing (uniq (reasons existing ++ reasons r))) m
  end.

Definition mergeMap (results : list FuzzyResult) : list (string * FuzzyResult) :=
  foldl mergeStep [] results.

(** [merged.sort((a, b) => b.score - a.score)]: a stable sort, descending
    by score. *)
Fixpoint insertDesc (x : FuzzyResult) (l : list FuzzyResult) : list FuzzyResult :=
  match l with
  | [] => [x]
  | y :: l' => if score x <? score y then y :: insertDesc x l' else x :: y :: l'
  end.

Fixpoint sortDesc (l : list FuzzyResult) : list FuzzyResult :=
  match l with
  | [] => []
  | x :: l' => insertDesc x (sortDesc l')
  end.

(** [l.slice(0, limit)]: a negative [limit] counts from the end. *)
Definition slice0 {A} (l : list A) (limit : Z) : list A :=
  if limit <? 0
  then take (Z.to_nat (Z.max 0 (Z.of_nat (length l) + limit))) l
  else take (Z.to_nat limit) l.

Definition mergeAndSort (results : list FuzzyResult) (limit : Z) : list FuzzyResult :=
  let merged := (mergeMap results).*2 in
  slice0 (sortDesc merged) limit.

(** ** searchFuzzy *)

(** [Promise.all] over settled promises: fulfilled with all values when
    all are fulfilled, rejected as soon as one is; of several rejections
    the leftmost reason is reported here. *)
Fixpoint promiseAll {A} (ps : list (Settled A)) : Settled (list A) :=
  match ps with
  | [] => Fulfilled []
  | p :: ps' =>
      match p, promiseAll ps' with
      | Fulfilled a, Fulfilled l => Fulfilled (a :: l)
      | Rejected e, _ => Rejected e
      | Fulfilled _, Rejected e => Rejected e
      end
  end.

Section Search.

Variable aliasRecall : string → Settled (list FuzzyResult).
Variable searchSymbol : SearchSymbolInput → Settled (list SymbolInfo).
Variable fileNameRecall : string → option string → Settled (list FuzzyResult).
Variable textRecall : string → option string → Settled (list FuzzyResult).

Definition searchFuzzy (input : SearchFuzzyInput) : Settled (list FuzzyResult) :=
  let query := sf_query input in
  let scope := sf_scope input in
  let limit := sf_limit input in
  all ← promiseAll [aliasRecall query;
                    symbolRecall searchSymbol query scope (Some limit);
                    fileNameRecall query scope;
                    textRecall query scope];
  Fulfilled (mergeAndSort (concat all) limit).

End Search.

End Fuzzy.

(* ===================================================================== *)
(** * Further string and array primitives                                 *)
(* ===================================================================== *)

Module JsText.

Definition is_space (c : ascii) : bool :=
  let n := nat_of_ascii c in ((9 <=? n)%nat && (n <=? 13)%nat) || (n =? 32)%nat.

Definition is_digit (c : ascii) : bool :=
  let n := nat_of_ascii c in (48 <=? n)%nat && (n <=? 57)%nat.

(** [s.split(c)] for a one-character separator. *)
Fixpoint split (s : string) (c : ascii) : list string :=
  match s with
  | EmptyString => [EmptyString]
  | String a s' =>
      if decide (a = c) then EmptyString :: split s' c
      else match split s' c with
           | [] => [String a EmptyString]
           | w :: ws => String a w :: ws
           end
  end.

(** [l.join(sep)] *)
Fixpoint join (l : list string) (sep : string) : string :=
  match l with
  | [] => EmptyString
  | w :: ws =>
      match ws with
      | [] => w
      | _ :: _ => w +:+ sep +:+ join ws sep
      end
  end.

(** [s.indexOf(c)] for a one-character needle; [-1] when absent. *)
Fixpoint indexOf (s : string) (c : ascii) : Z :=
  match s with
  | EmptyString => -1
  | String a s' =>
      if decide (a = c) then 0
      else let i := indexOf s' c in if i <? 0 then -1 else i + 1
  end.

Fixpoint take (n : nat) (s : string) : string :=
  match n, s with
  | O, _ => EmptyString
  | S _, EmptyString => EmptyString
  | S n', String a s' => String a (take n' s')
  end.

(** The index arithmetic shared by [String.prototype.slice] and
    [Array.prototype.slice]: a negative index counts from the end, and both
    ends are clamped to [0 .. len]. *)
Definition clampIndex (len i : Z) : Z :=
  if i <? 0 then Z.max (len + i) 0 else Z.min i len.

(** [s.slice(a, b)] *)
Definition slice (s : string) (a b : Z) : string :=
  let len := Z.of_nat (String.length s) in
  let from := clampIndex len a in
  let to := clampIndex len b in
  take (Z.to_nat (to - from)) (Js.drop (Z.to_nat from) s).

(** [s.slice(a)] *)
Definition sliceFrom (s : string) (a : Z) : string :=
  slice s a (Z.of_nat (String.length s)).

(** [l.slice(a, b)] on an array *)
Definition sliceList {A} (l : list A) (a b : Z) : list A :=
  let len := Z.of_nat (length l) in
  let from := clampIndex len a in
  let to := clampIndex len b in
  List.firstn (Z.to_nat (to - from)) (List.skipn (Z.to_nat from) l).

Fixpoint trimStart (s : string) : string :=
  match s with
  | EmptyString => EmptyString
  | String a s' => if is_space a then trimStart s' else s
  end.

(** [s.trimEnd()] *)
Fixpoint trimEnd (s : string) : string :=
  match s with
  | EmptyString => EmptyString
  | String a s' =>
      match trimEnd s' with
      | EmptyString => if is_space a then EmptyString else String a EmptyString
      | t => String a t
      end
  end.

(** [s.trim()] *)
Definition trim (s : string) : string := trimEnd (trimStart s).

(** [s.endsWith(p)] *)
Definition endsWith (s p : string) : bool :=
  bool_decide (Js.drop (String.length s - String.length p) s = p)
  && (String.length p <=? String.length s)%nat.

(** [Number.MAX_SAFE_INTEGER], [2^53 - 1]: up to it in absolute value
    every integer is a JavaScript number, and sums and differences that
    stay within it are exact. *)
Definition MAX_SAFE_INTEGER : Z := 9007199254740991.

(** [String(n)] for an integer [n] with [|n| ≤ MAX_SAFE_INTEGER]: its
    decimal digits. (Beyond that bound JavaScript prints the nearest
    representable number, in exponent notation from [1e21] on; no property
    below is stated for such numbers.) *)
Definition numberToString (n : Z) : string := pretty n.

End JsText.

(* ===================================================================== *)
(** * Line ranges (utils/fileReader.ts, tools/readRange.ts)               *)
(* ===================================================================== *)

(** Line numbers and the [surround] count are integers in the range that
    JavaScript numbers represent exactly (up to [MAX_SAFE_INTEGER] in
    absolute value); they are modelled as [Z], and [String(n)] and
    [parseInt(s, 10)] as decimal printing and reading, which they are in
    that range. The properties of ranges are stated within it. *)

Record RangeReadResult := {
  rr_file : string;
  rr_range : string;
  rr_startLine : Z;
  rr_endLine : Z;
  rr_code : string
}.

Module FileReader.

(** [`[${startLine}:${endLine}]`], for line numbers that JavaScript
    represents exactly. *)
Definition formatRange (startLine endLine : Z) : string :=
  "[" +:+ JsText.numberToString startLine +:+ ":"
      +:+ JsText.numberToString endLine +:+ "]".

(** The longest prefix of digits, and the rest: what [(\d+)] consumes. *)
Fixpoint takeDigits (s : string) : string * string :=
  match s with
  | EmptyString => (EmptyString, EmptyString)
  | String a s' =>
      if JsText.is_digit a
      then let '(d, rest) := takeDigits s' in (String a d, rest)
      else (EmptyString, s)
  end.

Fixpoint parseDigitsFrom (acc : Z) (digits : string) : Z :=
  match digits with
  | EmptyString => acc
  | String a s' =>
      parseDigitsFrom (acc * 10 + (Z.of_nat (nat_of_ascii a) - 48)) s'
  end.

(** [parseInt(digits, 10)] on a string of decimal digits whose value is at
    most [MAX_SAFE_INTEGER] (a larger value is rounded by JavaScript). *)
Definition parseInt10 (digits : string) : Z := parseDigitsFrom 0 digits.

(** [rangeStr.match(/^\[(\d+):(\d+)\]$/)] followed by the two [parseInt]s.
    The digit groups cannot contain [:] or [\]], so the match is the
    left-to-right scan below. *)
Definition parseRange (rangeStr : string) : option (Z * Z) :=
  match rangeStr with
  | String "[" rest =>
      let '(d1, rest1) := takeDigits rest in
      match d1, rest1 with
      | String _ _, String ":" rest2 =>
          let '(d2, rest3) := takeDigits rest2 in
          match d2, rest3 with
          | String _ _, String "]" EmptyString =>
              Some (parseInt10 d1, parseInt10 d2)
          | _, _ => None
          end
      | _, _ => None
      end
  | _ => None
  end.

Definition readFileLines (fs : FileSystem) (filePath : string) : option (list string) :=
  match readFileContent fs filePath with
  | None => None
  | Some content => Some (JsText.split content "010")
  end.

Definition readRange (fs : FileSystem) (filePath : string)
    (startLine endLine surround : Z) : option RangeReadResult :=
  match readFileLines fs filePath with
  | None => None
  | Some lines =>
      let totalLines := Z.of_nat (length lines) in
      let actualStart := Z.max 1 (startLine - surround) in
      let actualEnd := Z.min totalLines (endLine + surround) in
      let selectedLines := JsText.sliceList lines (actualStart - 1) actualEnd in
      Some {| rr_file := filePath;
              rr_range := formatRange actualStart actualEnd;
              rr_startLine := actualStart;
              rr_endLine := actualEnd;
              rr_code := JsText.join selectedLines (String "010" EmptyString) |}
  end.

End FileReader.

Record ReadRangeInput := {
  ri_filePath : string;
  ri_range : string;
  ri_surround : Z
}.

Module ReadRangeTool.

(** [readRange] of tools/readRange.ts; [fileExists] and [toRelative] are
    utils/pathResolver.ts on the file system at hand. *)
Definition readRange (fileExists : string → bool) (toRelative : string → string)
    (fs : FileSystem) (input : ReadRangeInput) : option RangeReadResult :=
  if negb (fileExists (ri_filePath input)) then None else
  match FileReader.parseRange (ri_range input) with
  | None => None
  | Some (startLine, endLine) =>
      if endLine <? startLine then None else
      match FileReader.readRange fs (ri_filePath input) startLine endLine
              (ri_surround input) with
      | None => None
      | Some result =>
          Some {| rr_file := toRelative (rr_file result);
                  rr_range := rr_range result;
                  rr_startLine := rr_startLine result;
                  rr_endLine := rr_endLine result;
                  rr_code := rr_code result |}
      end
  end.

End ReadRangeTool.


(* ===================================================================== *)
(** * Recall strategies (tools/searchFuzzy.ts)                            *)
(* ===================================================================== *)

(** A match reported by ripgrep (search/ripgrep.ts). *)
Record RipgrepMatch := {
  rg_file : string;
  rg_line : Z;
  rg_column : Z;
  rg_text : string
}.

Module FuzzyRecall.

Definition parseTarget (target : string) : string * option string :=
  let hashIdx := JsText.indexOf target "#" in
  if negb (hashIdx =? -1)
  then (JsText.slice target 0 hashIdx, Some (JsText.sliceFrom target (hashIdx + 1)))
  else (target, None).

Section Alias.

(** [lookupAlias] of tools/registerAlias.ts on the alias store at hand, and
    [parseFile] of parsers/index.ts with its effect on the parse cache. *)
Context {St : Type}.
Variable lookupAlias : string → list string.
Variable parseFile : string → St → ParseResult * St.

(** One iteration of [for (const target of targets)]. *)
Definition aliasStep (acc : list FuzzyResult * St) (target : string)
    : list FuzzyResult * St :=
  let '(results, st) := acc in
  let '(targetFile, symbol) := parseTarget target in
  let '(parseResult, st) := parseFile targetFile st in
  if Js.truthy symbol then
    match List.find (λ s, bool_decide (Some (name s) = symbol)) (symbols parseResult) with
    | Some matched =>
        (results ++ [{| fz_file := file matched;
                        fz_range := range matched;
                        fz_symbol := Some (name matched);
                        fz_kind := Some (kind matched);
                        score := 100;
                        reasons := ["alias_hit"] |}], st)
    | None => (results, st)
    end
  else
    match symbols parseResult with
    | first :: _ =>
        (results ++ [{| fz_file := targetFile;
                        fz_range := FileReader.formatRange 1 100;
                        fz_symbol := Some (name first);
                        fz_kind := Some (kind first);
                        score := 95;
                        reasons := ["alias_hit"] |}], st)
    | [] => (results, st)
    end.

Definition aliasRecall (query : string) (st : St) : list FuzzyResult * St :=
  foldl aliasStep ([], st) (lookupAlias query).

End Alias.

(** The key [`${match.file}:${match.line}`] of [textRecall]. *)
Definition textKey (m : RipgrepMatch) : string :=
  rg_file m +:+ ":" +:+ JsText.numberToString (rg_line m).

Definition textCandidate (m : RipgrepMatch) : FuzzyResult :=
  let startLine := Z.max 1 (rg_line m - 5) in
  let endLine := rg_line m + 10 in
  {| fz_file := rg_file m;
     fz_range := FileReader.formatRange startLine endLine;
     fz_symbol := None;
     fz_kind := None;
     score := 30;
     reasons := ["text_hit"] |}.

(** The [for (const match of matches)] loop of [textRecall]. *)
Fixpoint textLoop (matches : list RipgrepMatch) (seen : gset string)
    (results : list FuzzyResult) : list FuzzyResult :=
  match matches with
  | [] => results
  | m :: rest =>
      let key := textKey m in
      if decide (key ∈ seen) then textLoop rest seen results
      else textLoop rest ({[key]} ∪ seen) (results ++ [textCandidate m])
  end.

Section Text.

(** [searchPattern] of search/ripgrep.ts, awaited, as a function of the
    pattern, the scope and [maxResults]. *)
Variable searchPattern : string → option string → Z → Settled (list RipgrepMatch).

Definition textRecall (query : string) (scope : option string)
    : Settled (list FuzzyResult) :=
  matches ← searchPattern query scope 50;
  Fulfilled (textLoop matches ∅ []).

End Text.

End FuzzyRecall.

(* ===================================================================== *)
(** * Symbol search (tools/searchSymbol.ts)                               *)
(* ===================================================================== *)

Module SearchSymbol.

(** The key [`${symbol.file}:${symbol.name}:${symbol.location.startLine}`]. *)
Definition seenKey (symbol : SymbolInfo) : string :=
  file symbol +:+ ":" +:+ name symbol +:+ ":"
    +:+ JsText.numberToString (startLine (location symbol)).

(** The inner [for (const symbol of symbols)] loop. *)
Fixpoint pushNew (symbols : list SymbolInfo) (seen : gset string)
    (allSymbols : list SymbolInfo) : gset string * list SymbolInfo :=
  match symbols with
  | [] => (seen, allSymbols)
  | symbol :: rest =>
      let key := seenKey symbol in
      if decide (key ∈ seen) then pushNew rest seen allSymbols
      else pushNew rest ({[key]} ∪ seen) (allSymbols ++ [symbol])
  end.

(** The comparator handed to [sort]: exact name matches first, then
    shallower paths. *)
Definition compare (query : string) (a b : SymbolInfo) : Z :=
  let aExact := if bool_decide (name a = query) then 0 else 1 in
  let bExact := if bool_decide (name b = query) then 0 else 1 in
  if negb (aExact =? bExact) then aExact - bExact
  else
    let aDepth := Z.of_nat (length (JsText.split (file a) "/")) in
    let bDepth := Z.of_nat (length (JsText.split (file b) "/")) in
    aDepth - bDepth.

(** [Array.prototype.sort] with a comparator: a stable sort. *)
Fixpoint insertBy {A} (cmp : A → A → Z) (x : A) (l : list A) : list A :=
  match l with
  | [] => [x]
  | y :: l' => if 0 <? cmp x y then y :: insertBy cmp x l' else x :: y :: l'
  end.

Fixpoint sortBy {A} (cmp : A → A → Z) (l : list A) : list A :=
  match l with
  | [] => []
  | x :: l' => insertBy cmp x (sortBy cmp l')
  end.

Section Search.

(** [searchFiles] of search/ripgrep.ts, awaited; [parseFileForSymbol] of
    parsers/index.ts and [resolveSymbolThroughExports] of
    parsers/exportResolver.ts with their effect on the parse cache. *)
Context {St : Type}.
Variable searchFiles : string → option string → Settled (list string).
Variable parseFileForSymbol :
  string → string → option SymbolKind → St → list SymbolInfo * St.
Variable resolveSymbolThroughExports : string → string → St → option SymbolInfo * St.

(** The [for (const file of candidateFiles)] loop, with its early exit. *)
Fixpoint fileLoop (query : string) (type : option SymbolKind) (limit : Z)
    (followExports : bool) (candidateFiles : list string)
    (seen : gset string) (allSymbols : list SymbolInfo) (st : St)
    : list SymbolInfo * St :=
  match candidateFiles with
  | [] => (allSymbols, st)
  | candidate :: rest =>
      let '(symbols, st) := parseFileForSymbol candidate query type st in
      let '(seen, allSymbols) := pushNew symbols seen allSymbols in
      let '(seen, allSymbols, st) :=
        if followExports then
          let '(resolved, st) := resolveSymbolThroughExports candidate query st in
          match resolved with
          | Some resolved =>
              let key := seenKey resolved in
              if decide (key ∈ seen) then (seen, allSymbols, st)
              else ({[key]} ∪ seen, allSymbols ++ [resolved], st)
          | None => (seen, allSymbols, st)
          end
        else (seen, allSymbols, st) in
      if limit * 2 <=? Z.of_nat (length allSymbols) then (allSymbols, st)
      else fileLoop query type limit followExports rest seen allSymbols st
  end.

Definition searchSymbol (input : SearchSymbolInput) (st : St)
    : Settled (list SymbolInfo) * St :=
  let query := ss_query input in
  match searchFiles query (ss_scope input) with
  | Rejected reason => (Rejected reason, st)
  | Fulfilled candidateFiles =>
      if (length candidateFiles =? 0)%nat then (Fulfilled [], st) else
      let '(allSymbols, st) :=
        fileLoop query (ss_type input) (ss_limit input) (ss_followExports input)
          candidateFiles ∅ [] st in
      let sorted := sortBy (compare query) allSymbols in
      (Fulfilled (Fuzzy.slice0 sorted (ss_limit input)), st)
  end.

End Search.

End SearchSymbol.

(* ===================================================================== *)
(** * File search and ignore rules (search/ripgrep.ts, utils/ignore.ts)   *)
(* ===================================================================== *)

Module Ripgrep.

Section Files.

(** [searchPattern], awaited, as a function of the pattern and the
    options' scope. *)
Variable searchPattern : string → option string → Settled (list RipgrepMatch).

Definition searchFiles (pattern : string) (scope : option string)
    : Settled (list string) :=
  matches ← searchPattern pattern scope;
  Fulfilled (Fuzzy.uniq (rg_file <$> matches)).

End Files.

End Ripgrep.

(** The module state of utils/ignore.ts. *)
Record IgnoreState := {
  customIgnorePatterns : option (list string);
  ignoreFileWatchTime : Z
}.

Module Ignore.

Definition DEFAULT_IGNORE : list string :=
  ["node_modules"; "dist"; "build"; ".git"; ".next"; ".nuxt"; "coverage"; ".cache";
   "*.min.js"; "*.bundle.js"].

(** [s.replace(/c/g, r)] for a single character [c]. *)
Fixpoint replaceChar (c : ascii) (r : string) (s : string) : string :=
  match s with
  | EmptyString => EmptyString
  | String a s' => if decide (a = c) then r +:+ replaceChar c r s'
                   else String a (replaceChar c r s')
  end.

Definition loadIgnoreFile (pe : PathEnv) (fs : FileSystem) (s : IgnoreState)
    : list string * IgnoreState :=
  let ignoreFilePath := join pe [getWorkspaceRoot pe; ".gitignore"] in
  let failed :=
    ([], {| customIgnorePatterns := Some [];
            ignoreFileWatchTime := ignoreFileWatchTime s |}) in
  match statSync fs ignoreFilePath with
  | None => failed
  | Some mtimeMs =>
      match customIgnorePatterns s, mtimeMs =? ignoreFileWatchTime s with
      | Some cached, true => (cached, s)
      | _, _ =>
          match readFileSync fs ignoreFilePath with
          | None => failed
          | Some content =>
              let patterns :=
                List.filter
                  (λ line, Js.truthy (Some line) && negb (Js.startsWith line "#"))
                  (JsText.trim <$> JsText.split content "010") in
              (patterns, {| customIgnorePatterns := Some patterns;
                            ignoreFileWatchTime := mtimeMs |})
          end
      end
  end.

Definition getIgnorePatterns (pe : PathEnv) (fs : FileSystem) (s : IgnoreState)
    : list string * IgnoreState :=
  let '(custom, s) := loadIgnoreFile pe fs s in
  (DEFAULT_IGNORE ++ custom, s).

Section Matching.

(** [path.sep], and [new RegExp(source)]: the compiled test, or the
    [SyntaxError] it throws. *)
Variable sep : ascii.
Variable RegExp : string → Attempt (string → bool).

(** The body of [for (const pattern of patterns)]: [Returned true] stands
    for [return true], [Returned false] for falling through to the next
    pattern. *)
Definition matchPattern (relativePath : string) (parts : list string)
    (pattern : string) : Attempt bool :=
  if Js.startsWith pattern "*." then
    let ext := JsText.sliceFrom pattern 1 in
    Returned (JsText.endsWith relativePath ext)
  else if Js.includes pattern "*" then
    regex ← RegExp ("^" +:+ replaceChar "?" "." (replaceChar "*" ".*" pattern) +:+ "$");
    Returned (regex relativePath || List.existsb regex parts)
  else
    Returned (bool_decide (pattern ∈ parts)
              || (Js.startsWith relativePath (pattern +:+ "/")
                  || bool_decide (relativePath = pattern))).

Fixpoint matchAny (relativePath : string) (parts : list string)
    (patterns : list string) : Attempt bool :=
  match patterns with
  | [] => Returned false
  | pattern :: rest =>
      match matchPattern relativePath parts pattern with
      | Threw err => Threw err
      | Returned true => Returned true
      | Returned false => matchAny relativePath parts rest
      end
  end.

Definition shouldIgnorePath (pe : PathEnv) (fs : FileSystem) (s : IgnoreState)
    (relativePath : string) : Attempt bool * IgnoreState :=
  let '(patterns, s) := getIgnorePatterns pe fs s in
  let parts := JsText.split relativePath sep in
  (matchAny relativePath parts patterns, s).

End Matching.

End Ignore.

(* ===================================================================== *)
(** * Alias store (tools/registerAlias.ts)                                *)
(* ===================================================================== *)

Record AliasEntry := {
  term : string;
  targets : list string
}.

(** The alias file [.genifyai/aliases.json] is modelled by what
    [JSON.parse] makes of it: [Some aliases] for a file holding a
    serialised store, [None] for a missing or unparseable file. Writing
    the file is taken to succeed, and [JSON.stringify] followed by
    [JSON.parse] to give the store back. *)
Module Aliases.

Definition loadAliases (aliasFile : option (list AliasEntry)) : list AliasEntry :=
  default [] aliasFile.

(** The update through the reference that [find] returned: the first entry
    satisfying [P] is replaced by its image under [f]. *)
Fixpoint mutateFirst (P : AliasEntry → bool) (f : AliasEntry → AliasEntry)
    (aliases : list AliasEntry) : list AliasEntry :=
  match aliases with
  | [] => []
  | a :: rest => if P a then f a :: rest else a :: mutateFirst P f rest
  end.

Section Store.

(** [a.localeCompare(b)] in the process's locale. *)
Variable localeCompare : string → string → Z.

Definition saveAliases (aliases : list AliasEntry) : option (list AliasEntry) :=
  Some (SearchSymbol.sortBy (λ a b, localeCompare (term a) (term b)) aliases).

(** [registerAlias], as the alias file it leaves behind. *)
Definition registerAlias (inputTerm target : string)
    (aliasFile : option (list AliasEntry)) : option (list AliasEntry) :=
  let aliases := loadAliases aliasFile in
  let isTerm := λ a, bool_decide (term a = inputTerm) in
  match List.find isTerm aliases with
  | Some existing =>
      if negb (bool_decide (target ∈ targets existing)) then
        saveAliases
          (mutateFirst isTerm
             (λ a, {| term := term a; targets := targets a ++ [target] |}) aliases)
      else saveAliases aliases
  | None =>
      saveAliases (aliases ++ [{| term := inputTerm; targets := [target] |}])
  end.

End Store.

Definition lookupAlias (inputTerm : string) (aliasFile : option (list AliasEntry))
    : list string :=
  match List.find (λ a, bool_decide (term a = inputTerm)) (loadAliases aliasFile) with
  | Some entry => targets entry
  | None => []
  end.

End Aliases.

(* ===================================================================== *)
(** * The Solidity tree walk (parsers/solidity.ts)                        *)
(* ===================================================================== *)

(** A tree-sitter syntax node: its type, its source text, its position
    (zero-based rows), whether it is a named node, the field of its
    parent that holds it, and its children. *)
Inductive SyntaxNode := mkNode {
  node_type : string;
  node_text : string;
  startRow : Z;
  startColumn : Z;
  endRow : Z;
  endColumn : Z;
  isNamed : bool;
  fieldName : option string;
  children : list SyntaxNode
}.

Module SolidityWalk.

Definition NODE_KIND_MAP (type : string) : option SymbolKind :=
  if bool_decide (type = "contract_declaration") then Some k_contract
  else if bool_decide (type = "library_declaration") then Some k_library
  else if bool_decide (type = "interface_declaration") then Some k_sol_interface
  else if bool_decide (type = "function_definition") then Some k_function
  else if bool_decide (type = "constructor_definition") then Some k_function
  else if bool_decide (type = "fallback_receive_definition") then Some k_function
  else if bool_decide (type = "modifier_definition") then Some k_modifier
  else if bool_decide (type = "event_definition") then Some k_event
  else if bool_decide (type = "error_declaration") then Some k_error
  else if bool_decide (type = "struct_declaration") then Some k_struct
  else if bool_decide (type = "enum_declaration") then Some k_enum
  else if bool_decide (type = "state_variable_declaration") then Some k_const
  else if bool_decide (type = "user_defined_type_definition") then Some k_type
  else None.

(** [node.childForFieldName(field)] *)
Definition childForFieldName (node : SyntaxNode) (field : string) : option SyntaxNode :=
  List.find (λ c, bool_decide (fieldName c = Some field)) (children node).

Definition getSymbolName (node : SyntaxNode) : option string :=
  match childForFieldName node "name" with
  | Some nameNode => Some (node_text nameNode)
  | None =>
      if bool_decide (node_type node = "constructor_definition") then Some "constructor"
      else if bool_decide (node_type node = "fallback_receive_definition") then
        let kind := node_text <$> head (children node) in
        if bool_decide (kind = Some "fallback") then Some "fallback" else Some "receive"
      else if bool_decide (node_type node = "state_variable_declaration") then
        node_text
          <$> List.find (λ c, bool_decide (node_type c = "identifier")) (children node)
      else None
  end.

Definition getSignature (node : SyntaxNode) (sourceCode : string) : string :=
  let startLine := startRow node in
  let lines := JsText.split sourceCode "010" in
  let sig :=
    default ""
      (JsText.trim <$> (if startLine <? 0 then None else lines !! Z.to_nat startLine)) in
  let braceIdx := JsText.indexOf sig "{" in
  let sig :=
    if negb (braceIdx =? -1) then JsText.trim (JsText.take (Z.to_nat braceIdx) sig)
    else sig in
  if (100 <? String.length sig)%nat then JsText.take 100 sig +:+ "..." else sig.

(** What [collectSymbols] pushes for the node itself. *)
Definition nodeSymbols (node : SyntaxNode) (filePath sourceCode : string)
    : list SymbolInfo :=
  match NODE_KIND_MAP (node_type node) with
  | Some kind =>
      if Js.truthy (getSymbolName node) then
        [{| name := default "" (getSymbolName node);
            kind := kind;
            file := filePath;
            location := {| startLine := startRow node + 1;
                           endLine := endRow node + 1;
                           startCol := startColumn node;
                           endCol := endColumn node |};
            range := FileReader.formatRange (startRow node + 1) (endRow node + 1);
            signature := getSignature node sourceCode;
            language := "solidity" |}]
      else []
  | None => []
  end.

(** [collectSymbols], as the symbols it pushes: those of the node, then
    those of its named children, in order. *)
Fixpoint collectSymbols (node : SyntaxNode) (filePath sourceCode : string)
    : list SymbolInfo :=
  nodeSymbols node filePath sourceCode
  ++ (fix namedChildren (cs : list SyntaxNode) : list SymbolInfo :=
        match cs with
        | [] => []
        | child :: rest =>
            (if isNamed child then collectSymbols child filePath sourceCode else [])
            ++ namedChildren rest
        end) (children node).

(** The body of the [try] block of [parseFile]; [parse] is
    [solParser.parse] followed by [tree.rootNode]. *)
Definition extract (parse : string → Attempt SyntaxNode) : Extract :=
  λ filePath sourceCode,
    rootNode ← parse sourceCode;
    Returned (collectSymbols rootNode filePath sourceCode, []).

End SolidityWalk.

(* ===================================================================== *)
(** * The TypeScript export walk (parsers/typescript.ts)                  *)
(* ===================================================================== *)

Module TypescriptWalk.

(** [node.namedChildren] *)
Definition namedChildren (node : SyntaxNode) : list SyntaxNode :=
  List.filter isNamed (children node).

(** [node.childForFieldName(field)] *)
Definition childForFieldName (node : SyntaxNode) (field : string) : option SyntaxNode :=
  List.find (λ c, bool_decide (fieldName c = Some field)) (children node).

(** [nodes.find((c) => c.type === type)] *)
Definition findType (type : string) (nodes : list SyntaxNode) : option SyntaxNode :=
  List.find (λ c, bool_decide (node_type c = type)) nodes.

(** [sourceNode?.text.slice(1, -1)], [sourceNode] being the first named
    child of type [string]. *)
Definition sourceOf (node : SyntaxNode) : option string :=
  (λ sourceNode, JsText.slice (node_text sourceNode) 1 (-1))
    <$> findType "string" (namedChildren node).

Definition DECLARATION_TYPES : list string :=
  ["function_declaration"; "class_declaration"; "lexical_declaration";
   "variable_declaration"; "interface_declaration"; "type_alias_declaration";
   "enum_declaration"].

(** The record of one [export_specifier] of an export clause. *)
Definition specifierRecord (source : option string) (location : SymbolLocation)
    (specifier : SyntaxNode) : ExportInfo :=
  let nameNode := childForFieldName specifier "name" in
  let aliasNode := childForFieldName specifier "alias" in
  {| exp_kind := ek_named;
     localName := node_text <$> nameNode;
     exportedName :=
       match aliasNode with
       | Some a => Some (node_text a)
       | None => node_text <$> nameNode
       end;
     source := source;
     exp_location := location |}.

(** The name of a directly exported declaration. *)
Definition declarationName (declaration : SyntaxNode) : option string :=
  if bool_decide (node_type declaration = "lexical_declaration")
     || bool_decide (node_type declaration = "variable_declaration")
  then
    match findType "variable_declarator" (namedChildren declaration) with
    | Some declarator => node_text <$> childForFieldName declarator "name"
    | None => None
    end
  else node_text <$> childForFieldName declaration "name".

(** What [collectExports] pushes for an [export_statement] node: the four
    cases are tried in the order of the source, and the first that applies
    ends the call. *)
Definition exportRecords (node : SyntaxNode) : list ExportInfo :=
  let location :=
    {| startLine := startRow node + 1;
       endLine := endRow node + 1;
       startCol := startColumn node;
       endCol := endColumn node |} in
  match findType "namespace_export" (namedChildren node) with
  | Some _ =>
      [{| exp_kind := ek_all; localName := None; exportedName := None;
          source := sourceOf node; exp_location := location |}]
  | None =>
  match findType "export_clause" (namedChildren node) with
  | Some exportClause =>
      specifierRecord (sourceOf node) location
        <$> List.filter (λ s, bool_decide (node_type s = "export_specifier"))
              (namedChildren exportClause)
  | None =>
  match findType "default" (children node) with
  | Some _ =>
      let valueNode :=
        List.find (λ c, bool_decide (node_type c = "identifier")
                        || bool_decide (node_type c = "call_expression"))
          (namedChildren node) in
      [{| exp_kind := ek_default;
          localName :=
            match valueNode with
            | Some v =>
                if bool_decide (node_type v = "identifier") then Some (node_text v)
                else None
            | None => None
            end;
          exportedName := Some "default";
          source := None;
          exp_location := location |}]
  | None =>
  match List.find (λ c, bool_decide (node_type c ∈ DECLARATION_TYPES))
          (namedChildren node) with
  | Some declaration =>
      let name := declarationName declaration in
      if Js.truthy name then
        [{| exp_kind := ek_named; localName := name; exportedName := name;
            source := None; exp_location := location |}]
      else []
  | None => []
  end end end end.

(** [collectExports], as the records it pushes: those of an
    [export_statement], otherwise those of the named children, in order. *)
Fixpoint collectExports (node : SyntaxNode) : list ExportInfo :=
  if bool_decide (node_type node = "export_statement") then exportRecords node
  else
    (fix namedChildren (cs : list SyntaxNode) : list ExportInfo :=
       match cs with
       | [] => []
       | child :: rest =>
           (if isNamed child then collectExports child else [])
           ++ namedChildren rest
       end) (children node).

End TypescriptWalk.

(* ===================================================================== *)
(** * Directory walk (search/glob.ts)                                     *)
(* ===================================================================== *)

(** A directory entry as [readdirSync(dir, { withFileTypes: true })]
    reports it, together with, for a directory, what [readdirSync] of it
    returns in turn ([None] when it throws). Symbolic links are neither
    files nor directories. *)
Inductive Dirent :=
  | DirentFile (entryName : string)
  | DirentDirectory (entryName : string) (listing : option (list Dirent))
  | DirentOther (entryName : string).

Definition dirent_name (entry : Dirent) : string :=
  match entry with
  | DirentFile n | DirentDirectory n _ | DirentOther n => n
  end.

Module Glob.

Section Walk.

(** [shouldIgnorePath] of utils/ignore.ts on the ignore file at hand, and
    [matchPattern], whose [new RegExp] may throw. *)
Variable pe : PathEnv.
Variable shouldIgnorePath : string → Attempt bool.
Variable matchPattern : string → string → Attempt bool.
Variable pattern : string.
Variable maxResults : Z.

(** The [for (const entry of entries)] loop; [step] is the loop body
    after the length test. *)
Definition forEntries (step : Dirent → list string → Attempt (list string))
    : list Dirent → list string → Attempt (list string) :=
  fix loop (entries : list Dirent) (results : list string) :=
    match entries with
    | [] => Returned results
    | entry :: rest =>
        if maxResults <=? Z.of_nat (length results) then Returned results
        else
          results ← step entry results;
          loop rest results
    end.

(** [walkDir] on a directory whose listing is [listing], given the loop
    body for its entries. *)
Definition walkListing (step : Dirent → list string → Attempt (list string))
    (listing : option (list Dirent)) (results : list string)
    : Attempt (list string) :=
  if maxResults <=? Z.of_nat (length results) then Returned results
  else
    match listing with
    | None => Returned results
    | Some entries => forEntries step entries results
    end.

(** The loop body for one entry of the directory [dir]. *)
Fixpoint walkEntry (dir : string) (entry : Dirent) (results : list string)
    : Attempt (list string) :=
  let fullPath := join pe [dir; dirent_name entry] in
  let relativePath := relative pe (getWorkspaceRoot pe) fullPath in
  ignored ← shouldIgnorePath relativePath;
  if ignored : bool then Returned results
  else
    match entry with
    | DirentDirectory _ listing => walkListing (walkEntry fullPath) listing results
    | DirentFile _ =>
        matched ← matchPattern relativePath pattern;
        Returned (if matched : bool then results ++ [relativePath] else results)
    | DirentOther _ => Returned results
    end.

Definition walkDir (dir : string) (listing : option (list Dirent))
    (results : list string) : Attempt (list string) :=
  walkListing (walkEntry dir) listing results.

End Walk.

(** [glob]; [listing] is the listing of the search root. *)
Definition glob (pe : PathEnv) (shouldIgnorePath : string → Attempt bool)
    (matchPattern : string → string → Attempt bool)
    (listing : option (list Dirent))
    (pattern : string) (scope : option string) (maxResults : Z)
    : Attempt (list string) :=
  let searchRoot :=
    if Js.truthy scope then join pe [getWorkspaceRoot pe; default "" scope]
    else getWorkspaceRoot pe in
  walkDir pe shouldIgnorePath matchPattern pattern maxResults searchRoot listing [].

End Glob.

(* ===================================================================== *)
(** * Specification-side notions                                         *)
(* ===================================================================== *)

(** What a parse of the file as it is on disk now yields, without any
    cache: the outcome that "reflects the current content". *)
Definition outcomeOfDisk (extract : Extract) (fs : FileSystem) (filePath : string)
    : ParseResult :=
  match readFileContent fs filePath with
  | None | Some EmptyString =>
      {| symbols := []; exports := [];
         errors := ["Failed to read file: " +:+ filePath] |}
  | Some sourceCode =>
      match extract filePath sourceCode with
      | Returned (symbols, exports) =>
          {| symbols := symbols; exports := exports; errors := [] |}
      | Threw err =>
          {| symbols := []; exports := [];
             errors := ["Failed to parse file: " +:+ filePath +:+ " - " +:+ err] |}
      end
  end.

(** The states the module-level parse cache can be in: it starts empty and
    is only changed by the extractors' [parseFile] and by
    [invalidateCache]. *)
Inductive CacheReachable : gmap string CacheEntry → Prop :=
  | reach_empty : CacheReachable ∅
  | reach_parse cache extract fs filePath :
      CacheReachable cache →
      CacheReachable (Extractor.parseFile extract fs cache filePath).2
  | reach_parse_vue cache tk fs filePath :
      CacheReachable cache →
      CacheReachable (Vue.parseFile tk fs cache filePath).2
  | reach_invalidate cache filePath :
      CacheReachable cache →
      CacheReachable (Cache.invalidateCache cache filePath).

(** Every cached outcome is free of errors. *)
Definition cacheErrorFree (cache : gmap string CacheEntry) : Prop :=
  ∀ p entry, cache !! p = Some entry → errors (result entry) = [].

(** The cache agrees with the disk: every entry whose stored modification
    time is the file's current one holds the outcome of the file as it is
    on disk. *)
Definition cacheCoherent (extract : Extract) (fs : FileSystem)
    (cache : gmap string CacheEntry) : Prop :=
  ∀ p e, cache !! p = Some e →
         statSync fs (toAbsolute fs p) = Some (mtime e) →
         result e = outcomeOfDisk extract fs p.

(** "[filePath] exports [X] from [src]": the parse of the file succeeded,
    declares no symbol named [X], and its only export record is the named
    re-export of [X] (not renamed) from the module specifier [src]. *)
Definition reexportsNamed (r : ParseResult) (X src : string) : Prop :=
  errors r = []
  ∧ (∀ s, s ∈ symbols r → name s ≠ X)
  ∧ ∃ e, exports r = [e] ∧ exp_kind e = ek_named ∧ exportedName e = Some X
         ∧ (localName e = None ∨ localName e = Some X) ∧ source e = Some src.

(** "[filePath] declares the symbols [syms] and has one wildcard record for
    [src]": the parse succeeded, its symbols are [syms], and exactly one of
    its export records has kind [all], with module specifier [src]. *)
Definition wildcardTo (r : ParseResult) (syms : list SymbolInfo) (src : string) : Prop :=
  errors r = []
  ∧ symbols r = syms
  ∧ ∃ pre e post, exports r = pre ++ e :: post
       ∧ exp_kind e = ek_all ∧ source e = Some src
       ∧ Forall (λ x, exp_kind x ≠ ek_all) (pre ++ post).

(** "[filePath] declares the symbols [syms] and re-exports nothing by
    wildcard". *)
Definition wildcardFree (r : ParseResult) (syms : list SymbolInfo) : Prop :=
  errors r = []
  ∧ symbols r = syms
  ∧ Forall (λ x, exp_kind x ≠ ek_all) (exports r).

(** The symbols that [symbolRecall] turns into candidates, given the keys
    already seen: of the symbols in encounter order, the first one for each
    key [`${file}:${name}`]. *)
Fixpoint keepFirst (seen : gset string) (l : list SymbolInfo) : list SymbolInfo :=
  match l with
  | [] => []
  | s :: l' =>
      if decide (Fuzzy.symbolKey s ∈ seen) then keepFirst seen l'
      else s :: keepFirst ({[Fuzzy.symbolKey s]} ∪ seen) l'
  end.

(** "[v] is the merge of the candidates of [results] that share its
    dedup key": its score is the maximum of theirs, attained by one of
    them, and its reason tags are exactly the union of theirs. *)
Definition mergedFor (results : list FuzzyResult) (v : FuzzyResult) : Prop :=
  (∃ r, r ∈ results ∧ Fuzzy.dedupKey r = Fuzzy.dedupKey v ∧ score r = score v)
  ∧ (∀ r, r ∈ results → Fuzzy.dedupKey r = Fuzzy.dedupKey v → score r ≤ score v)
  ∧ (∀ t, t ∈ reasons v
          ↔ ∃ r, r ∈ results ∧ Fuzzy.dedupKey r = Fuzzy.dedupKey v ∧ t ∈ reasons r).

(** Descending order of score. *)
Definition scoreDesc (a b : FuzzyResult) : Prop := score b ≤ score a.

Global Instance scoreDesc_trans : Transitive scoreDesc.
Proof. intros a b c. unfold scoreDesc. lia. Qed.

(** What the loop of [mergeAndSort] maintains after the candidates
    [processed]: the map's keys are distinct, every key of a processed
    candidate is present, and every entry is stored under its own key and
    is the merge of the processed candidates with that key. *)
Definition mergeInv (processed : list FuzzyResult) (m : list (string * FuzzyResult))
    : Prop :=
  NoDup m.*1
  ∧ (∀ r, r ∈ processed → Fuzzy.dedupKey r ∈ m.*1)
  ∧ (∀ k v, (k, v) ∈ m → Fuzzy.dedupKey v = k ∧ mergedFor processed v).

(** "[r] re-exports [X] under the name [Y] from [src]": the parse
    succeeded, declares no symbol named [Y], and its only export record is
    [export { X as Y } from src]. *)
Definition reexportsRenamed (r : ParseResult) (Y X src : string) : Prop :=
  errors r = []
  ∧ (∀ s, s ∈ symbols r → name s ≠ Y)
  ∧ ∃ e, exports r = [e] ∧ exp_kind e = ek_named ∧ exportedName e = Some Y
         ∧ localName e = Some X ∧ source e = Some src.

(** "[s] is the first symbol named [X] that [r] declares", for a parse
    that succeeded. *)
Definition declaresFirst (r : ParseResult) (X : string) (s : SymbolInfo) : Prop :=
  errors r = []
  ∧ List.find (λ s, bool_decide (name s = X)) (symbols r) = Some s.

(** What every non-null result of [followExport] on the file [asked] at
    recursion depth [depth] looks like. *)
Definition resolvedShape (asked : string) (depth : nat) (r : ResolvedExport) : Prop :=
  originalFile r = resolvedFile r
  ∧ (∃ s, resolvedSymbol r = Some s
          ∧ (name s = originalName r ∨ originalName r = "default"))
  ∧ head (exportChain r) = Some asked
  ∧ last (exportChain r) = Some (resolvedFile r)
  ∧ (length (exportChain r) + depth ≤ ExportResolver.MAX_DEPTH + 1)%nat.

(** The character [c] does not occur in [s]. *)
Fixpoint noChar (c : ascii) (s : string) : Prop :=
  match s with
  | EmptyString => True
  | String a s' => a ≠ c ∧ noChar c s'
  end.

(** Every character of [s] is a decimal digit. *)
Fixpoint allDigits (s : string) : Prop :=
  match s with
  | EmptyString => True
  | String a s' => JsText.is_digit a = true ∧ allDigits s'
  end.

(** A word of lower-case ASCII letters. *)
Fixpoint lowerWord (s : string) : Prop :=
  match s with
  | EmptyString => True
  | String c s' => Js.is_lower c = true ∧ lowerWord s'
  end.

(** The order [searchSymbol] sorts by: [a] may come before [b]. *)
Definition symbolOrder (query : string) (a b : SymbolInfo) : Prop :=
  SearchSymbol.compare query a b ≤ 0.

(** The string does not start with white space. *)
Definition noLeadingSpace (s : string) : Prop :=
  match s with
  | EmptyString => True
  | String a _ => JsText.is_space a = false
  end.

(** A usable line of the ignore file: not empty, trimmed, not a comment. *)
Definition cleanPattern (p : string) : Prop :=
  p ≠ "" ∧ JsText.trim p = p ∧ Js.startsWith p "#" = false.

(** The directory and file names among the default ignore patterns. *)
Definition defaultIgnoredNames : list string :=
  ["node_modules"; "dist"; "build"; ".git"; ".next"; ".nuxt"; "coverage"; ".cache"].

(** The kinds the Solidity walk assigns. *)
Definition solidityKinds : list SymbolKind :=
  [k_contract; k_library; k_sol_interface; k_function; k_modifier; k_event;
   k_error; k_struct; k_enum; k_const; k_type].

(** What every symbol of the Solidity walk over a file satisfies. *)
Definition soliditySymbol (filePath : string) (s : SymbolInfo) : Prop :=
  file s = filePath
  ∧ language s = "solidity"
  ∧ name s ≠ ""
  ∧ kind s ∈ solidityKinds
  ∧ range s = FileReader.formatRange (startLine (location s)) (endLine (location s))
  ∧ (String.length (signature s) ≤ 103)%nat
  ∧ noChar "{" (signature s).

(** The workspace-relative paths of the file entries at and below an
    entry of the directory [dir], in the order of the listings: the path
    of a file entry, the paths below a directory that can be listed.
    Directories that cannot be listed and entries that are neither files
    nor directories have none. *)
Fixpoint filePathsOfEntry (pe : PathEnv) (dir : string) (entry : Dirent) : list string :=
  let fullPath := join pe [dir; dirent_name entry] in
  match entry with
  | DirentFile _ => [relative pe (getWorkspaceRoot pe) fullPath]
  | DirentDirectory _ (Some entries) =>
      List.concat (List.map (filePathsOfEntry pe fullPath) entries)
  | DirentDirectory _ None => []
  | DirentOther _ => []
  end.

Definition filePathsOfListing (pe : PathEnv) (dir : string)
    (listing : option (list Dirent)) : list string :=
  List.concat (List.map (filePathsOfEntry pe dir) (default [] listing)).

(** What one step of the directory walk guarantees, [paths] being the
    paths of the file entries the step looks at: it only appends some of
    these paths, in their order, each of them not ignored and matching the
    pattern, and, started below the limit, it does not exceed the limit. *)
Definition globStepOk (shouldIgnorePath : string → Attempt bool)
    (matchPattern : string → string → Attempt bool) (pattern : string)
    (maxResults : Z) (paths : list string)
    (step : list string → Attempt (list string)) : Prop :=
  ∀ results out,
    step results = Returned out →
    (∃ new, out = results ++ new
            ∧ Forall (λ f, shouldIgnorePath f = Returned false
                           ∧ matchPattern f pattern = Returned true) new
            ∧ sublist new paths)
    ∧ (Z.of_nat (length results) < maxResults → Z.of_nat (length out) ≤ maxResults).

(** A string of ASCII characters (code units below 128). On such strings
    [toLowerCase], [toUpperCase] and the white-space class [\s] of
    JavaScript are the ones of the embedding. *)
Fixpoint isAscii (s : string) : Prop :=
  match s with
  | EmptyString => True
  | String a s' => (nat_of_ascii a < 128)%nat ∧ isAscii s'
  end.

(** The location of a candidate: its file and its line range. *)
Definition locationOf (r : FuzzyResult) : string * string := (fz_file r, fz_range r).

(** A range string of the shape [formatRange] builds: [[a:b]] with no
    colon inside [a] and [b]. *)
Definition rangeShaped (rng : string) : Prop :=
  ∃ a b, rng = "[" +:+ a +:+ ":" +:+ b +:+ "]" ∧ noChar ":" a ∧ noChar ":" b.

(** "[v] is the merge of the candidates of [results] at its location":
    its score is the maximum of the scores of the candidates with the same
    file and the same range, attained by one of them, and its reason tags
    are exactly the union of theirs. *)
Definition mergedAt (results : list FuzzyResult) (v : FuzzyResult) : Prop :=
  (∃ r, r ∈ results ∧ locationOf r = locationOf v ∧ score r = score v)
  ∧ (∀ r, r ∈ results → locationOf r = locationOf v → score r ≤ score v)
  ∧ (∀ t, t ∈ reasons v
          ↔ ∃ r, r ∈ results ∧ locationOf r = locationOf v ∧ t ∈ reasons r).

(** The pair a symbol-search result is identified by in the symbol recall:
    its file and its name. *)
Definition fileAndName (s : SymbolInfo) : string * string := (file s, name s).

(** Of the symbols in encounter order, the first one for each pair of
    file and name, given the pairs already taken. *)
Fixpoint firstPerFileAndName (taken : list (string * string)) (l : list SymbolInfo)
    : list SymbolInfo :=
  match l with
  | [] => []
  | s :: l' =>
      if decide (fileAndName s ∈ taken) then firstPerFileAndName taken l'
      else s :: firstPerFileAndName (fileAndName s :: taken) l'
  end.

(* ===================================================================== *)
(** * Sample inputs                                                      *)
(* ===================================================================== *)

(** A single-file component of one line: a script section declaring one
    function, and a style section of 4096 rules, 32768 characters in all.
    The parsers of the toolkit throw as tree-sitter's [parse] does on a
    string of more than 32767 characters; the script pass finds the one
    function, on line [row + 1 + baseOffset] of the file. *)
Fixpoint repeated (s : string) (count : nat) : string :=
  match count with
  | O => ""
  | S count' => s +:+ repeated s count'
  end.

Definition vueSampleSymbol : SymbolInfo :=
  {| name := "setup"; kind := k_function; file := "Card.vue";
     location := {| startLine := 2; endLine := 2; startCol := 0; endCol := 19 |};
     range := "[2:2]"; signature := "function setup()"; language := "vue" |}.

Definition vueSampleStyle : string := repeated ".card{} " 4096.

Definition treeSitterParse (input : string) : Attempt unit :=
  if 32767 <? Z.of_nat (String.length input) then Threw "Error: Invalid argument"
  else Returned tt.

Definition vueSampleToolkit : VueToolkit :=
  {| Tree := unit;
     extractSfcBlocks := λ _,
       {| script := Some {| content := "function setup() {}"; sfc_startLine := 1;
                            lang := None |};
          template := None;
          style := Some {| content := vueSampleStyle; sfc_startLine := 1;
                           lang := None |} |};
     ts_parse := λ _ input, treeSitterParse input;
     css_parse := treeSitterParse;
     collectScriptSymbols := λ _ _ _ _, Returned ([vueSampleSymbol], []);
     collectOptionsApiSymbols := λ _ _ _ _, Returned [];
     collectTemplateComponents := λ _ _ _, Returned [];
     collectCssSymbols := λ _ _ _, Returned [] |}.

Definition vueSampleText : string :=
  "<script>function setup() {}</script><style>" +:+ vueSampleStyle +:+ "</style>".

Definition vueSampleFs : FileSystem :=
  {| toAbsolute := λ p, p; statSync := λ _, Some 7;
     readFileSync := λ _, Some vueSampleText |}.

Definition fooSymbol : SymbolInfo :=
  {| name := "Foo"; kind := k_function; file := "a.ts";
     location := {| startLine := 3; endLine := 5; startCol := 0; endCol := 1 |};
     range := "[3:5]"; signature := "export function Foo()"; language := "ts" |}.

Definition fooFs : FileSystem :=
  {| toAbsolute := λ p, p; statSync := λ _, Some 1;
     readFileSync := λ _, Some "export function Foo() {} // foo" |}.

(** Two TypeScript files that re-export [X] from each other. *)
Definition cycleExport (src : string) : ExportInfo :=
  {| exp_kind := ek_named; localName := Some "X"; exportedName := Some "X";
     source := Some src;
     exp_location := {| startLine := 1; endLine := 1; startCol := 0; endCol := 24 |} |}.

(** Syntax trees of the TypeScript statements the samples are made of, as
    tree-sitter-typescript builds them; [row] is the zero-based line of
    the statement, and every statement starts its line. *)
Definition tsNode (type text : string) (named : bool) (field : option string)
    (row col : Z) (kids : list SyntaxNode) : SyntaxNode :=
  {| node_type := type; node_text := text;
     startRow := row; startColumn := col;
     endRow := row; endColumn := col + Z.of_nat (String.length text);
     isNamed := named; fieldName := field; children := kids |}.

(** An anonymous token: its type is its text. *)
Definition tsToken (text : string) (row col : Z) : SyntaxNode :=
  tsNode text text false None row col [].

(** The string literal ['src'] naming the module of a re-export. *)
Definition tsSource (src : string) (row col : Z) : SyntaxNode :=
  tsNode "string" ("'" +:+ src +:+ "'") true (Some "source") row col
    [tsToken "'" row col;
     tsNode "string_fragment" src true None row (col + 1) [];
     tsToken "'" row (col + 1 + Z.of_nat (String.length src))].

(** [export function nm() {}] *)
Definition tsExportFunction (nm : string) (row : Z) : SyntaxNode :=
  let len := Z.of_nat (String.length nm) in
  tsNode "export_statement" ("export function " +:+ nm +:+ "() {}") true None row 0
    [tsToken "export" row 0;
     tsNode "function_declaration" ("function " +:+ nm +:+ "() {}") true
       (Some "declaration") row 7
       [tsToken "function" row 7;
        tsNode "identifier" nm true (Some "name") row 16 [];
        tsNode "formal_parameters" "()" true (Some "parameters") row (16 + len)
          [tsToken "(" row (16 + len); tsToken ")" row (17 + len)];
        tsNode "statement_block" "{}" true (Some "body") row (19 + len)
          [tsToken "{" row (19 + len); tsToken "}" row (20 + len)]]].

(** [export * from 'src';]: the statement has the tokens [export], [*] and
    [from], the string and the semicolon as children, and no
    [namespace_export] node. *)
Definition tsExportStar (src : string) (row : Z) : SyntaxNode :=
  tsNode "export_statement" ("export * from '" +:+ src +:+ "';") true None row 0
    [tsToken "export" row 0;
     tsToken "*" row 7;
     tsToken "from" row 9;
     tsSource src row 14;
     tsToken ";" row (16 + Z.of_nat (String.length src))].

(** [export * as ns from 'src';] *)
Definition tsExportNamespace (ns src : string) (row : Z) : SyntaxNode :=
  let len := Z.of_nat (String.length ns) in
  tsNode "export_statement" ("export * as " +:+ ns +:+ " from '" +:+ src +:+ "';")
    true None row 0
    [tsToken "export" row 0;
     tsNode "namespace_export" ("* as " +:+ ns) true None row 7
       [tsToken "*" row 7; tsToken "as" row 9; tsNode "identifier" ns true None row 12 []];
     tsToken "from" row (13 + len);
     tsSource src row (18 + len);
     tsToken ";" row (20 + len + Z.of_nat (String.length src))].

(** [export { local as alias } from 'src';] *)
Definition tsExportRename (local alias src : string) (row : Z) : SyntaxNode :=
  let l := Z.of_nat (String.length local) in
  let a := Z.of_nat (String.length alias) in
  tsNode "export_statement"
    ("export { " +:+ local +:+ " as " +:+ alias +:+ " } from '" +:+ src +:+ "';")
    true None row 0
    [tsToken "export" row 0;
     tsNode "export_clause" ("{ " +:+ local +:+ " as " +:+ alias +:+ " }") true None row 7
       [tsToken "{" row 7;
        tsNode "export_specifier" (local +:+ " as " +:+ alias) true None row 9
          [tsNode "identifier" local true (Some "name") row 9 [];
           tsToken "as" row (10 + l);
           tsNode "identifier" alias true (Some "alias") row (13 + l) []];
        tsToken "}" row (14 + l + a)];
     tsToken "from" row (16 + l + a);
     tsSource src row (21 + l + a);
     tsToken ";" row (23 + l + a + Z.of_nat (String.length src))].

(** The root node of a file with one statement per line. *)
Definition tsProgram (text : string) (statements : list SyntaxNode) : SyntaxNode :=
  {| node_type := "program"; node_text := text;
     startRow := 0; startColumn := 0;
     endRow := Z.of_nat (length statements) - 1;
     endColumn := default 0 (endColumn <$> last statements);
     isNamed := true; fieldName := None; children := statements |}.

(** The symbol the TypeScript extractor records for the statement
    [export function nm() {}] on line [line] of [filePath]. *)
Definition chainSymbol (nm filePath : string) (line : Z) : SymbolInfo :=
  {| name := nm; kind := k_function; file := filePath;
     location := {| startLine := line; endLine := line; startCol := 7;
                    endCol := 21 + Z.of_nat (String.length nm) |};
     range := FileReader.formatRange line line;
     signature := "export function " +:+ nm +:+ "()";
     language := "ts" |}.

(** Three TypeScript files chained by [export * from], each declaring and
    exporting two functions. *)
Definition chainSymsA : list SymbolInfo :=
  [chainSymbol "a1" "a.ts" 1; chainSymbol "a2" "a.ts" 2].
Definition chainSymsB : list SymbolInfo :=
  [chainSymbol "b1" "b.ts" 1; chainSymbol "b2" "b.ts" 2].
Definition chainSymsC : list SymbolInfo :=
  [chainSymbol "c1" "c.ts" 1; chainSymbol "c2" "c.ts" 2].

Definition chainTextA : string :=
  "export function a1() {}
export function a2() {}
export * from './b';".
Definition chainTextB : string :=
  "export function b1() {}
export function b2() {}
export * from './c';".
Definition chainTextC : string :=
  "export function c1() {}
export function c2() {}".

Definition chainTreeA : SyntaxNode :=
  tsProgram chainTextA
    [tsExportFunction "a1" 0; tsExportFunction "a2" 1; tsExportStar "./b" 2].
Definition chainTreeB : SyntaxNode :=
  tsProgram chainTextB
    [tsExportFunction "b1" 0; tsExportFunction "b2" 1; tsExportStar "./c" 2].
Definition chainTreeC : SyntaxNode :=
  tsProgram chainTextC [tsExportFunction "c1" 0; tsExportFunction "c2" 1].

Definition chainFs : FileSystem :=
  {| toAbsolute := λ p, "/ws/" +:+ p;
     statSync := λ p,
       if bool_decide (p ∈ ["/ws/a.ts"; "/ws/b.ts"; "/ws/c.ts"])
       then Some 1700000000000 else None;
     readFileSync := λ p,
       if bool_decide (p = "/ws/a.ts") then Some chainTextA
       else if bool_decide (p = "/ws/b.ts") then Some chainTextB
       else if bool_decide (p = "/ws/c.ts") then Some chainTextC
       else None |}.

(** The TypeScript extractor on the three files: the symbols of the
    declarations, and the export records that [collectExports] pushes on
    the file's syntax tree. *)
Definition chainExtract : Extract := λ _ sourceCode,
  if bool_decide (sourceCode = chainTextA) then
    Returned (chainSymsA, TypescriptWalk.collectExports chainTreeA)
  else if bool_decide (sourceCode = chainTextB) then
    Returned (chainSymsB, TypescriptWalk.collectExports chainTreeB)
  else if bool_decide (sourceCode = chainTextC) then
    Returned (chainSymsC, TypescriptWalk.collectExports chainTreeC)
  else Threw "unexpected token".

Definition chainRegistry : gmap string LanguageParser :=
  Registry.registerParser ∅ (Typescript.typescriptParser chainExtract).

(** An alias hit; the filename strategy below fails on an ignore pattern
    that is not a valid regular expression. *)
Definition aliasCandidate : FuzzyResult :=
  {| fz_file := "cards.ts"; fz_range := "[3:9]"; fz_symbol := Some "flipCard";
     fz_kind := Some k_function; score := 100; reasons := ["alias_hit"] |}.

Definition flipInput : SearchFuzzyInput :=
  {| sf_query := "flip card"; sf_scope := None; sf_limit := 20 |}.

(** Two overloads of [render] in one file, at lines 3 and 9. *)
Definition renderAt (line : Z) (rng : string) : SymbolInfo :=
  {| name := "render"; kind := k_function; file := "view.ts";
     location := {| startLine := line; endLine := line + 2; startCol := 0; endCol := 1 |};
     range := rng; signature := "export function render()"; language := "ts" |}.

(** A function [render] of another file. *)
Definition renderElsewhere : SymbolInfo :=
  {| name := "render"; kind := k_function; file := "list.ts";
     location := {| startLine := 1; endLine := 4; startCol := 0; endCol := 1 |};
     range := "[1:4]"; signature := "export function render()"; language := "ts" |}.

(** A text hit of [cards.ts] whose window starts at line [start]. *)
Definition textSample (start : Z) : FuzzyResult :=
  {| fz_file := "cards.ts"; fz_range := FileReader.formatRange start (start + 15);
     fz_symbol := None; fz_kind := None; score := 30; reasons := ["text_hit"] |}.

(** The spec's example: the same location nominated with score 0.7 for
    [definition_match] and with score 0.9 for [alias_hit]. *)
Definition nominated (sc : Z) (reason : string) : FuzzyResult :=
  {| fz_file := "cards.ts"; fz_range := "[3:9]"; fz_symbol := Some "flipCard";
     fz_kind := Some k_function; score := sc; reasons := [reason] |}.

(** A workspace [/ws] holding [a.ts] and [b.ts], which re-export [X] from
    each other, seen through the registry with the TypeScript extractor. *)
Definition diskFs : FileSystem :=
  {| toAbsolute := λ p, "/ws/" +:+ p;
     statSync := λ p,
       if bool_decide (p = "/ws/a.ts") then Some 1700000000000
       else if bool_decide (p = "/ws/b.ts") then Some 1700000000500
       else None;
     readFileSync := λ p,
       if bool_decide (p = "/ws/a.ts") then Some "export { X } from './b';"
       else if bool_decide (p = "/ws/b.ts") then Some "export { X } from './a';"
       else None |}.

(** Node's [path] functions restricted to what the samples need: every
    file lives directly in [/ws] and is imported as [./name]. *)
Definition samplePaths (files : list string) : PathEnv :=
  {| dirname := λ _, "/ws";
     join := λ parts,
       match parts with
       | [dir; rel] => dir +:+ "/" +:+ Js.drop 2 rel
       | [dir; rel; leaf] => dir +:+ "/" +:+ Js.drop 2 rel +:+ "/" +:+ leaf
       | _ => ""
       end;
     relative := λ root p, Js.drop (S (String.length root)) p;
     getWorkspaceRoot := "/ws";
     isFile := λ p, bool_decide (p ∈ files) |}.

Definition diskPaths : PathEnv := samplePaths ["/ws/a.ts"; "/ws/b.ts"].

Definition chainPaths : PathEnv := samplePaths ["/ws/a.ts"; "/ws/b.ts"; "/ws/c.ts"].

Definition diskExtract : Extract := λ _ sourceCode,
  if bool_decide (sourceCode = "export { X } from './b';")
  then Returned ([], [cycleExport "./b"])
  else if bool_decide (sourceCode = "export { X } from './a';")
  then Returned ([], [cycleExport "./a"])
  else Threw "unexpected token".

Definition diskRegistry : gmap string LanguageParser :=
  Registry.registerParser ∅ (Typescript.typescriptParser diskExtract).

(** A workspace [/ws] with a cycle of namespace re-exports ([p.ts] and
    [q.ts] re-export each other with [export * as]) and a renamed
    re-export ([s.ts] exports [inner] of [r.ts] as [outer]). *)
Definition loopRename : ExportInfo :=
  {| exp_kind := ek_named; localName := Some "inner"; exportedName := Some "outer";
     source := Some "./r";
     exp_location := {| startLine := 1; endLine := 1; startCol := 0; endCol := 37 |} |}.

Definition loopSymsP : list SymbolInfo := [chainSymbol "p1" "p.ts" 1].
Definition loopSymsQ : list SymbolInfo := [chainSymbol "q1" "q.ts" 2].
Definition loopSymsR : list SymbolInfo := [chainSymbol "inner" "r.ts" 1].

Definition loopTextP : string :=
  "export function p1() {}
export * as q from './q';".
Definition loopTextQ : string :=
  "export * as p from './p';
export function q1() {}".
Definition loopTextR : string := "export function inner() {}".
Definition loopTextS : string := "export { inner as outer } from './r';".

Definition loopTreeP : SyntaxNode :=
  tsProgram loopTextP [tsExportFunction "p1" 0; tsExportNamespace "q" "./q" 1].
Definition loopTreeQ : SyntaxNode :=
  tsProgram loopTextQ [tsExportNamespace "p" "./p" 0; tsExportFunction "q1" 1].
Definition loopTreeR : SyntaxNode :=
  tsProgram loopTextR [tsExportFunction "inner" 0].
Definition loopTreeS : SyntaxNode :=
  tsProgram loopTextS [tsExportRename "inner" "outer" "./r" 0].

Definition loopFs : FileSystem :=
  {| toAbsolute := λ p, "/ws/" +:+ p;
     statSync := λ p,
       if bool_decide (p ∈ ["/ws/p.ts"; "/ws/q.ts"; "/ws/r.ts"; "/ws/s.ts"])
       then Some 1700000000000 else None;
     readFileSync := λ p,
       if bool_decide (p = "/ws/p.ts") then Some loopTextP
       else if bool_decide (p = "/ws/q.ts") then Some loopTextQ
       else if bool_decide (p = "/ws/r.ts") then Some loopTextR
       else if bool_decide (p = "/ws/s.ts") then Some loopTextS
       else None |}.

Definition loopExtract : Extract := λ _ sourceCode,
  if bool_decide (sourceCode = loopTextP) then
    Returned (loopSymsP, TypescriptWalk.collectExports loopTreeP)
  else if bool_decide (sourceCode = loopTextQ) then
    Returned (loopSymsQ, TypescriptWalk.collectExports loopTreeQ)
  else if bool_decide (sourceCode = loopTextR) then
    Returned (loopSymsR, TypescriptWalk.collectExports loopTreeR)
  else if bool_decide (sourceCode = loopTextS) then
    Returned ([], TypescriptWalk.collectExports loopTreeS)
  else Threw "unexpected token".

Definition loopRegistry : gmap string LanguageParser :=
  Registry.registerParser ∅ (Typescript.typescriptParser loopExtract).

Definition loopPaths : PathEnv :=
  samplePaths ["/ws/p.ts"; "/ws/q.ts"; "/ws/r.ts"; "/ws/s.ts"].

(** A workspace whose [.gitignore] holds a comment, a blank line, a
    directory name and a pattern that is no valid regular expression once
    its [*] is rewritten; and a regular-expression engine that rejects
    that one source. *)
Definition ignoreSampleFs : FileSystem :=
  {| toAbsolute := λ p, "/ws/" +:+ p;
     statSync := λ p, if bool_decide (p = "/ws/.gitignore") then Some 1700000000000 else None;
     readFileSync := λ p,
       if bool_decide (p = "/ws/.gitignore") then Some "# build output
  out  

*["
       else None |}.

Definition ignoreSamplePaths : PathEnv :=
  {| dirname := λ _, "/ws";
     join := λ parts, JsText.join parts "/";
     relative := λ root p, Js.drop (S (String.length root)) p;
     getWorkspaceRoot := "/ws";
     isFile := λ p, bool_decide (p = "/ws/.gitignore") |}.

Definition ignoreSampleRegExp : string → Attempt (string → bool) := λ source,
  if bool_decide (source = "^.*[$")
  then Threw "SyntaxError: Invalid regular expression: /^.*[$/: Unterminated character class"
  else Returned (λ _, false).

Definition freshIgnoreState : IgnoreState :=
  {| customIgnorePatterns := None; ignoreFileWatchTime := 0 |}.

(** The syntax tree of a one-contract Solidity file, as far as the walk
    looks at it. *)
Definition solSampleText : string :=
  "contract Vault {
  function deposit(uint256 amount) external payable {
  }
}".

Definition solLeaf (type text : string) (field : option string) : SyntaxNode :=
  {| node_type := type; node_text := text; startRow := 0; startColumn := 0;
     endRow := 0; endColumn := 0; isNamed := true; fieldName := field;
     children := [] |}.

Definition solSampleTree : SyntaxNode :=
  {| node_type := "source_file"; node_text := solSampleText;
     startRow := 0; startColumn := 0; endRow := 3; endColumn := 1;
     isNamed := true; fieldName := None;
     children :=
       [{| node_type := "contract_declaration"; node_text := solSampleText;
           startRow := 0; startColumn := 0; endRow := 3; endColumn := 1;
           isNamed := true; fieldName := None;
           children :=
             [solLeaf "identifier" "Vault" (Some "name");
              {| node_type := "function_definition";
                 node_text := "function deposit(uint256 amount) external payable {
  }";
                 startRow := 1; startColumn := 2; endRow := 2; endColumn := 3;
                 isNamed := true; fieldName := None;
                 children := [solLeaf "identifier" "deposit" (Some "name")] |}] |}] |}.

(** A workspace tree with an ignored dependency directory, a source
    directory holding a symbolic link, and a file at the root. *)
Definition globSampleTree : option (list Dirent) :=
  Some [DirentDirectory "node_modules" (Some [DirentFile "card.js"]);
        DirentDirectory "src"
          (Some [DirentFile "cards.ts"; DirentFile "deck.ts"; DirentOther "card-link"]);
        DirentDirectory "private" None;
        DirentFile "card.md";
        DirentFile "postcard.txt"].

(* ===================================================================== *)
(** * Properties                                                          *)
(* ===================================================================== *)

(** ** String primitives *)

Lemma append_assoc (a b c : string) : (a +:+ b) +:+ c = a +:+ (b +:+ c).
Proof.
  induction a as [|x a IH]; [done|].
  change ((String x a +:+ b) +:+ c) with (String x ((a +:+ b) +:+ c)).
  by rewrite IH.
Qed.

Lemma append_inj_l (s a b : string) : s +:+ a = s +:+ b → a = b.
Proof.
  induction s as [|x s IH]; [done|].
  change (String x s +:+ a) with (String x (s +:+ a)).
  change (String x s +:+ b) with (String x (s +:+ b)).
  intros [= H]. by apply IH.
Qed.

Lemma noChar_app c s t : noChar c (s +:+ t) ↔ noChar c s ∧ noChar c t.
Proof.
  induction s as [|x s IH].
  - change ("" +:+ t) with t. simpl. tauto.
  - change (String x s +:+ t) with (String x (s +:+ t)). simpl. tauto.
Qed.

Lemma app_sep_inj c s1 s2 d1 d2 :
  noChar c d1 → noChar c d2 →
  s1 +:+ String c d1 = s2 +:+ String c d2 → s1 = s2 ∧ d1 = d2.
Proof.
  intros H1 H2. revert s2. induction s1 as [|x s1 IH]; intros [|y s2].
  - change ("" +:+ String c d1) with (String c d1).
    change ("" +:+ String c d2) with (String c d2). by intros [= ->].
  - change ("" +:+ String c d1) with (String c d1).
    change (String y s2 +:+ String c d2) with (String y (s2 +:+ String c d2)).
    intros [= -> ->]. apply noChar_app in H1 as [_ [Hc _]]. done.
  - change ("" +:+ String c d2) with (String c d2).
    change (String x s1 +:+ String c d1) with (String x (s1 +:+ String c d1)).
    intros [= -> <-]. apply noChar_app in H2 as [_ [Hc _]]. done.
  - change (String x s1 +:+ String c d1) with (String x (s1 +:+ String c d1)).
    change (String y s2 +:+ String c d2) with (String y (s2 +:+ String c d2)).
    intros [= -> H]. destruct (IH _ H) as [-> ->]. done.
Qed.

Lemma app_sep_inj_l c s1 s2 d1 d2 :
  noChar c s1 → noChar c s2 →
  s1 +:+ String c d1 = s2 +:+ String c d2 → s1 = s2 ∧ d1 = d2.
Proof.
  revert s2. induction s1 as [|x s1 IH]; intros [|y s2] H1 H2.
  - change ("" +:+ String c d1) with (String c d1).
    change ("" +:+ String c d2) with (String c d2). by intros [= ->].
  - change ("" +:+ String c d1) with (String c d1).
    change (String y s2 +:+ String c d2) with (String y (s2 +:+ String c d2)).
    intros [= -> _]. by destruct H2.
  - change ("" +:+ String c d2) with (String c d2).
    change (String x s1 +:+ String c d1) with (String x (s1 +:+ String c d1)).
    intros [= -> _]. by destruct H1.
  - change (String x s1 +:+ String c d1) with (String x (s1 +:+ String c d1)).
    change (String y s2 +:+ String c d2) with (String y (s2 +:+ String c d2)).
    destruct H1 as [_ H1], H2 as [_ H2].
    intros [= -> H]. destruct (IH _ H1 H2 H) as [-> ->]. done.
Qed.

Lemma lastIndexOf_lower_bound s c : -1 ≤ Js.lastIndexOf s c.
Proof.
  induction s as [|a s IH]; simpl; [lia|].
  destruct (0 <=? Js.lastIndexOf s c) eqn:E; [lia|].
  destruct (decide (a = c)); lia.
Qed.

Lemma lastIndexOf_suffix base c e :
  Js.lastIndexOf e c = -1 →
  Js.lastIndexOf (base +:+ String c e) c = Z.of_nat (String.length base).
Proof.
  intros He. induction base as [|a base IH]; simpl.
  - rewrite He. simpl. destruct (decide (c = c)); [done|congruence].
  - rewrite IH. destruct (0 <=? Z.of_nat (String.length base)) eqn:E; lia.
Qed.

Lemma drop_length_app base s : Js.drop (String.length base) (base +:+ s) = s.
Proof. induction base as [|a base IH]; simpl; [by destruct s|exact IH]. Qed.

Lemma substring_last_dot base e :
  Js.lastIndexOf e "." = -1 →
  Js.substring (base +:+ String "." e) (Js.lastIndexOf (base +:+ String "." e) ".")
  = String "." e.
Proof.
  intros He. rewrite (lastIndexOf_suffix _ _ _ He). unfold Js.substring.
  rewrite Z.max_r by lia. rewrite Nat2Z.id. apply drop_length_app.
Qed.

Lemma substring_no_dot p :
  Js.lastIndexOf p "." = -1 → Js.substring p (Js.lastIndexOf p ".") = p.
Proof. intros ->. unfold Js.substring. simpl. by destruct p. Qed.

(** ** Parser registry *)

Lemma registerParser_lookup parsers parser ext :
  Registry.registerParser parsers parser !! ext
  = if decide (ext ∈ extensions parser) then Some parser else parsers !! ext.
Proof.
  unfold Registry.registerParser.
  generalize (extensions parser) as exts. intros exts. revert parsers.
  induction exts as [|x exts IH]; intros parsers; cbn [foldl].
  - rewrite decide_False; [done|]. by intros H%elem_of_nil.
  - rewrite IH. destruct (decide (ext ∈ exts)) as [Hin|Hnin].
    + rewrite decide_True; [done|by right].
    + destruct (decide (ext = x)) as [->|Hne].
      * rewrite lookup_insert_eq. rewrite decide_True; [done|by left].
      * rewrite lookup_insert_ne by done.
        rewrite decide_False; [done|]. intros Hin. apply elem_of_cons in Hin.
        destruct Hin; done.
Qed.

(** C9 (as the code has it): the lookup key is the substring of the path
    from its last dot, taken exactly as written, with no case folding. For
    a path [base.e] whose extension [e] holds no further dot, the lookup
    returns the entry stored under [".e"]; two such paths with the same
    extension resolve to the same extractor; once a parser that declares
    [".e"] is registered, the lookup returns that parser; and when [".e"]
    itself is not a registered key the lookup finds no extractor, whatever
    is registered under its lower-case form. *)
Theorem getParserForFile_exact_extension
    (parsers : gmap string LanguageParser) (parser : LanguageParser)
    (base1 base2 e : string) :
  Js.lastIndexOf e "." = -1 →
  Registry.getParserForFile parsers (base1 +:+ String "." e) = parsers !! String "." e
  ∧ Registry.getParserForFile parsers (base1 +:+ String "." e)
    = Registry.getParserForFile parsers (base2 +:+ String "." e)
  ∧ (String "." e ∈ extensions parser →
     Registry.getParserForFile (Registry.registerParser parsers parser)
       (base1 +:+ String "." e) = Some parser)
  ∧ (parsers !! String "." e = None →
     Registry.getParserForFile parsers (base1 +:+ String "." e) = None).
Proof.
  intros He. unfold Registry.getParserForFile.
  rewrite !(substring_last_dot _ _ He). split; [done|]. split; [done|].
  split; [|done].
  intros Hin. rewrite registerParser_lookup. by rewrite decide_True.
Qed.

Lemma getParserForFile_exact_extension_witness :
  Js.lastIndexOf "ts" "." = -1
  ∧ Registry.getParserForFile
      (Registry.registerParser ∅ (Typescript.typescriptParser (λ _ _, Returned ([], []))))
      ("src/App" +:+ String "." "ts")
    = Some (Typescript.typescriptParser (λ _ _, Returned ([], []))).
Proof.
  split; [reflexivity|].
  apply (getParserForFile_exact_extension ∅ _ "src/App" "src/App" "ts");
    [reflexivity|]. simpl. constructor.
Defined.

(** C9 (as stated) fails: with the TypeScript parser registered, a path
    ending in [.ts] and one ending in [.TS] have final extensions that are
    equal after lower-casing, yet only the first resolves to an extractor. *)
Lemma getParserForFile_case_counterexample :
  let parsers :=
    Registry.registerParser ∅ (Typescript.typescriptParser (λ _ _, Returned ([], []))) in
  let ext p := Js.substring p (Js.lastIndexOf p ".") in
  Js.toLowerCase (ext "src/App.TS") = Js.toLowerCase (ext "src/App.ts")
  ∧ lp_language <$> Registry.getParserForFile parsers "src/App.ts" = Some "typescript"
  ∧ Registry.getParserForFile parsers "src/App.TS" = None.
Proof. vm_compute. done. Qed.

(** ** Parse cache *)

Lemma getCachedResult_hit fs (cache : gmap string CacheEntry) filePath r :
  (Cache.getCachedResult fs cache filePath).1 = Some r
  ↔ ∃ entry, cache !! filePath = Some entry
       ∧ statSync fs (toAbsolute fs filePath) = Some (mtime entry)
       ∧ r = result entry.
Proof.
  unfold Cache.getCachedResult. split.
  - destruct (cache !! filePath) as [entry|]; [|done].
    destruct (statSync fs (toAbsolute fs filePath)) as [m|]; [|done].
    destruct (decide (m = mtime entry)) as [->|]; [|done].
    simpl. intros [= <-]. by exists entry.
  - intros (entry & -> & -> & ->). by rewrite decide_True.
Qed.

Lemma getCachedResult_miss fs (cache : gmap string CacheEntry) filePath entry :
  cache !! filePath = Some entry →
  statSync fs (toAbsolute fs filePath) ≠ Some (mtime entry) →
  Cache.getCachedResult fs cache filePath = (None, delete filePath cache).
Proof.
  intros Hc Hs. unfold Cache.getCachedResult. rewrite Hc.
  destruct (statSync fs (toAbsolute fs filePath)) as [m|]; [|done].
  destruct (decide (m = mtime entry)) as [->|]; [done|done].
Qed.

Lemma getCachedResult_absent fs (cache : gmap string CacheEntry) filePath :
  cache !! filePath = None →
  Cache.getCachedResult fs cache filePath = (None, cache).
Proof. intros Hc. unfold Cache.getCachedResult. by rewrite Hc. Qed.

(** Whatever [getCachedResult] leaves under the path it was asked about
    carries the modification time just read from disk. *)
Lemma getCachedResult_entry_mtime fs (cache : gmap string CacheEntry) filePath entry :
  (Cache.getCachedResult fs cache filePath).2 !! filePath = Some entry →
  statSync fs (toAbsolute fs filePath) = Some (mtime entry).
Proof.
  unfold Cache.getCachedResult.
  destruct (cache !! filePath) as [e|] eqn:Hc; simpl; [|congruence].
  destruct (statSync fs (toAbsolute fs filePath)) as [m|]; simpl.
  - destruct (decide (m = mtime e)) as [->|]; simpl.
    + intros H. rewrite Hc in H. by injection H as <-.
    + by rewrite lookup_delete_eq.
  - by rewrite lookup_delete_eq.
Qed.

Lemma setCachedResult_entry_mtime fs (cache : gmap string CacheEntry) filePath r entry :
  (∀ e, cache !! filePath = Some e →
        statSync fs (toAbsolute fs filePath) = Some (mtime e)) →
  Cache.setCachedResult fs cache filePath r !! filePath = Some entry →
  statSync fs (toAbsolute fs filePath) = Some (mtime entry).
Proof.
  intros Hold. unfold Cache.setCachedResult.
  destruct (statSync fs (toAbsolute fs filePath)) as [m|] eqn:Hs.
  - rewrite lookup_insert_eq. by intros [= <-].
  - intros H. apply Hold in H. congruence.
Qed.

(** On a miss, [parseFile] returns the outcome of the file as it is on
    disk. *)
Lemma parseFile_miss extract fs (cache : gmap string CacheEntry) filePath :
  (Cache.getCachedResult fs cache filePath).1 = None →
  (Extractor.parseFile extract fs cache filePath).1 = outcomeOfDisk extract fs filePath.
Proof.
  unfold Extractor.parseFile, outcomeOfDisk.
  destruct (Cache.getCachedResult fs cache filePath) as [[cached|] cache1];
    simpl; [done|intros _].
  destruct (readFileContent fs filePath) as [[|c src]|]; simpl; try done.
  by destruct (extract filePath (String c src)) as [[syms exps]|err].
Qed.

Lemma parseFile_entry_mtime extract fs (cache : gmap string CacheEntry) filePath entry :
  (Extractor.parseFile extract fs cache filePath).2 !! filePath = Some entry →
  statSync fs (toAbsolute fs filePath) = Some (mtime entry).
Proof.
  unfold Extractor.parseFile.
  pose proof (getCachedResult_entry_mtime fs cache filePath) as Hget.
  destruct (Cache.getCachedResult fs cache filePath) as [[cached|] cache1];
    simpl in *; [by apply Hget|].
  destruct (negb (Js.truthy (readFileContent fs filePath))); simpl; [by apply Hget|].
  destruct (extract filePath (default "" (readFileContent fs filePath)))
    as [[syms exps]|err]; simpl; [|by apply Hget].
  apply setCachedResult_entry_mtime. intros e. apply Hget.
Qed.

(** C2: a cache [get] returns a stored outcome exactly when an entry
    exists and the modification time read from disk now equals the stored
    one; on a mismatch or a failed stat the entry is evicted and the lookup
    reports absent. Consequently, when [parseFile] has processed file [F]
    on file system [fs1] and the file's modification time then changes
    ([fs2]), the next [parseFile F] is not served from the cache: it
    returns the outcome of the file as it is on disk in [fs2]. *)
Theorem cache_get_validates_mtime
    (extract : Extract) (fs1 fs2 : FileSystem)
    (cache0 : gmap string CacheEntry) (F : string) :
  statSync fs2 (toAbsolute fs2 F) ≠ statSync fs1 (toAbsolute fs1 F) →
  (∀ fs (cache : gmap string CacheEntry) p r,
     (Cache.getCachedResult fs cache p).1 = Some r
     ↔ ∃ entry, cache !! p = Some entry
          ∧ statSync fs (toAbsolute fs p) = Some (mtime entry)
          ∧ r = result entry)
  ∧ (∀ fs (cache : gmap string CacheEntry) p entry,
       cache !! p = Some entry →
       statSync fs (toAbsolute fs p) ≠ Some (mtime entry) →
       Cache.getCachedResult fs cache p = (None, delete p cache)
       ∧ (Cache.getCachedResult fs cache p).2 !! p = None)
  ∧ (let cache1 := (Extractor.parseFile extract fs1 cache0 F).2 in
     (Cache.getCachedResult fs2 cache1 F).1 = None
     ∧ (Extractor.parseFile extract fs2 cache1 F).1 = outcomeOfDisk extract fs2 F).
Proof.
  intros Hchanged. split; [|split].
  - intros. apply getCachedResult_hit.
  - intros fs cache p entry Hc Hs.
    rewrite (getCachedResult_miss _ _ _ _ Hc Hs). split; [done|].
    simpl. apply lookup_delete_eq.
  - simpl.
    assert ((Cache.getCachedResult fs2 (Extractor.parseFile extract fs1 cache0 F).2 F).1
            = None) as Hmiss.
    { destruct ((Extractor.parseFile extract fs1 cache0 F).2 !! F) as [e|] eqn:He.
      - pose proof (parseFile_entry_mtime _ _ _ _ _ He) as Hm.
        rewrite (getCachedResult_miss _ _ _ _ He); [done|]. congruence.
      - by rewrite getCachedResult_absent. }
    split; [done|]. by apply parseFile_miss.
Qed.

Lemma cache_get_validates_mtime_witness :
  let extract : Extract := λ _ src,
    Returned ([{| name := src; kind := k_function; file := "a.ts";
                  location := {| startLine := 1; endLine := 1; startCol := 0; endCol := 0 |};
                  range := "[1:1]"; signature := src; language := "ts" |}], []) in
  let fs1 := {| toAbsolute := λ p, p; statSync := λ _, Some 1;
                readFileSync := λ _, Some "first" |} in
  let fs2 := {| toAbsolute := λ p, p; statSync := λ _, Some 2;
                readFileSync := λ _, Some "second" |} in
  let cache1 := (Extractor.parseFile extract fs1 ∅ "a.ts").2 in
  (Cache.getCachedResult fs2 cache1 "a.ts").1 = None
  ∧ (Extractor.parseFile extract fs2 cache1 "a.ts").1 = outcomeOfDisk extract fs2 "a.ts".
Proof.
  intros extract fs1 fs2.
  apply (cache_get_validates_mtime extract fs1 fs2 ∅ "a.ts").
  simpl. discriminate.
Defined.

(** ** Parse failure is total per file *)

Lemma getCachedResult_errorFree fs cache filePath :
  cacheErrorFree cache →
  cacheErrorFree (Cache.getCachedResult fs cache filePath).2
  ∧ ∀ r, (Cache.getCachedResult fs cache filePath).1 = Some r → errors r = [].
Proof.
  intros Hinv. split.
  - unfold Cache.getCachedResult.
    destruct (cache !! filePath) as [e|]; [|done].
    destruct (statSync fs (toAbsolute fs filePath)) as [m|]; simpl.
    + destruct (decide (m = mtime e)); simpl; [done|].
      intros p entry Hp. apply lookup_delete_Some in Hp as [_ Hp]. eauto.
    + intros p entry Hp. apply lookup_delete_Some in Hp as [_ Hp]. eauto.
  - intros r (entry & He & _ & ->)%getCachedResult_hit. eauto.
Qed.

Lemma setCachedResult_errorFree fs cache filePath r :
  cacheErrorFree cache → errors r = [] →
  cacheErrorFree (Cache.setCachedResult fs cache filePath r).
Proof.
  intros Hinv Hr. unfold Cache.setCachedResult.
  destruct (statSync fs (toAbsolute fs filePath)) as [m|]; [|done].
  intros p entry Hp. apply lookup_insert_Some in Hp as [[_ <-]|[_ Hp]]; eauto.
Qed.

Lemma parseFile_errorFree extract fs cache filePath :
  cacheErrorFree cache →
  cacheErrorFree (Extractor.parseFile extract fs cache filePath).2.
Proof.
  intros Hinv. unfold Extractor.parseFile.
  destruct (getCachedResult_errorFree fs cache filePath Hinv) as [Hc _].
  destruct (Cache.getCachedResult fs cache filePath) as [[cached|] cache1];
    simpl in *; [done|].
  destruct (negb (Js.truthy (readFileContent fs filePath))); [done|].
  destruct (extract filePath (default "" (readFileContent fs filePath)))
    as [[syms exps]|err]; simpl; [|done].
  by apply setCachedResult_errorFree.
Qed.

Lemma Vue_parseFile_unfold tk :
  Vue.parseFile tk = Extractor.parseFile (Vue.tryBody tk).
Proof. reflexivity. Qed.

Lemma invalidateCache_errorFree cache filePath :
  cacheErrorFree cache → cacheErrorFree (Cache.invalidateCache cache filePath).
Proof.
  intros Hinv. unfold Cache.invalidateCache.
  destruct (Js.truthy filePath); [|by intros p entry Hp].
  destruct filePath as [q|]; [|done].
  intros p entry Hp. apply lookup_delete_Some in Hp as [_ Hp]. eauto.
Qed.

Lemma CacheReachable_errorFree cache : CacheReachable cache → cacheErrorFree cache.
Proof.
  induction 1 as [|cache extract fs filePath _ IH|cache tk fs filePath _ IH
                  |cache filePath _ IH].
  - by intros p entry Hp.
  - by apply parseFile_errorFree.
  - rewrite Vue_parseFile_unfold. by apply parseFile_errorFree.
  - by apply invalidateCache_errorFree.
Qed.

(** C7: for the non-compound extractors (whose [parseFile] is
    [Extractor.parseFile] with the dialect's tree walk as [extract]) and
    every state the parse cache can reach, an outcome with a non-empty
    error list has no symbols, no exports and exactly one error string;
    a failed read and an exception inside [try] each produce exactly that
    one-error outcome. *)
Theorem parseFile_failure_is_total
    (extract : Extract) (fs : FileSystem)
    (cache : gmap string CacheEntry) (filePath : string) :
  CacheReachable cache →
  let r := (Extractor.parseFile extract fs cache filePath).1 in
  (errors r ≠ [] → symbols r = [] ∧ exports r = [] ∧ length (errors r) = 1%nat)
  ∧ ((Cache.getCachedResult fs cache filePath).1 = None →
     Js.truthy (readFileContent fs filePath) = false →
     r = {| symbols := []; exports := [];
            errors := ["Failed to read file: " +:+ filePath] |})
  ∧ (∀ sourceCode err,
       (Cache.getCachedResult fs cache filePath).1 = None →
       readFileContent fs filePath = Some sourceCode →
       sourceCode ≠ "" →
       extract filePath sourceCode = Threw err →
       r = {| symbols := []; exports := [];
              errors := ["Failed to parse file: " +:+ filePath +:+ " - " +:+ err] |}).
Proof.
  intros Hreach r. subst r.
  apply CacheReachable_errorFree in Hreach.
  destruct (getCachedResult_errorFree fs cache filePath Hreach) as [_ Hhit].
  unfold Extractor.parseFile.
  destruct (Cache.getCachedResult fs cache filePath) as [[cached|] cache1]; simpl in *.
  - split; [|split]; [|done|done]. intros Herr. by rewrite (Hhit cached) in Herr.
  - split; [|split].
    + destruct (negb (Js.truthy (readFileContent fs filePath))); simpl; [done|].
      by destruct (extract filePath (default "" (readFileContent fs filePath)))
        as [[syms exps]|err].
    + by intros _ ->.
    + intros sourceCode err _ Hread Hne Hthrow. rewrite Hread. simpl.
      destruct sourceCode as [|c src]; [done|]. simpl. by rewrite Hthrow.
Qed.

Lemma parseFile_failure_is_total_witness :
  let extract : Extract := λ _ _, Threw "SyntaxError" in
  let fs := {| toAbsolute := λ p, p; statSync := λ _, Some 1;
               readFileSync := λ _, Some "def f(:" |} in
  let r := (Extractor.parseFile extract fs ∅ "m.py").1 in
  errors r ≠ [] ∧ symbols r = [] ∧ exports r = [] ∧ length (errors r) = 1%nat.
Proof.
  intros extract fs r.
  assert (errors r ≠ []) as Herr by (vm_compute; discriminate).
  split; [exact Herr|].
  exact (proj1 (parseFile_failure_is_total extract fs ∅ "m.py" reach_empty) Herr).
Defined.

(** ** The compound-document extractor *)

Lemma tryBody_returned tk filePath src ss es ts cs :
  Vue.scriptSection tk filePath (script (extractSfcBlocks tk src)) = Returned (ss, es) →
  Vue.templateSection tk filePath (template (extractSfcBlocks tk src)) = Returned ts →
  Vue.styleSection tk filePath (style (extractSfcBlocks tk src)) = Returned cs →
  Vue.tryBody tk filePath src = Returned (ss ++ ts ++ cs, es).
Proof. unfold Vue.tryBody. by intros -> -> ->. Qed.

Lemma tryBody_threw tk filePath src :
  (∃ err, Vue.scriptSection tk filePath (script (extractSfcBlocks tk src)) = Threw err)
  ∨ (∃ err, Vue.templateSection tk filePath (template (extractSfcBlocks tk src)) = Threw err)
  ∨ (∃ err, Vue.styleSection tk filePath (style (extractSfcBlocks tk src)) = Threw err) →
  ∃ err, Vue.tryBody tk filePath src = Threw err.
Proof.
  unfold Vue.tryBody.
  destruct (Vue.scriptSection tk filePath (script (extractSfcBlocks tk src)))
    as [[ss es]|e1]; simpl; [|by eauto].
  destruct (Vue.templateSection tk filePath (template (extractSfcBlocks tk src)))
    as [ts|e2]; simpl; [|by eauto].
  destruct (Vue.styleSection tk filePath (style (extractSfcBlocks tk src)))
    as [cs|e3]; simpl; [|by eauto].
  intros [[err H]|[[err H]|[err H]]]; discriminate.
Qed.

(** C8 (as the code has it): the .vue extractor processes the script, the
    template and the style section in that order inside one [try] block.
    On a fresh parse of a readable file, when all three sections are
    processed without an exception the outcome lists the script symbols,
    then the template symbols, then the style symbols, each computed from
    its own section, with no error; when the processing of any one section
    throws, the whole file yields one error string and no symbols and no
    exports. *)
Theorem vue_sections_share_one_try
    (tk : VueToolkit) (fs : FileSystem) (cache : gmap string CacheEntry)
    (filePath sourceCode : string) :
  (Cache.getCachedResult fs cache filePath).1 = None →
  readFileContent fs filePath = Some sourceCode →
  sourceCode ≠ "" →
  let blocks := extractSfcBlocks tk sourceCode in
  let r := (Vue.parseFile tk fs cache filePath).1 in
  (∀ ss es ts cs,
     Vue.scriptSection tk filePath (script blocks) = Returned (ss, es) →
     Vue.templateSection tk filePath (template blocks) = Returned ts →
     Vue.styleSection tk filePath (style blocks) = Returned cs →
     r = {| symbols := ss ++ ts ++ cs; exports := es; errors := [] |})
  ∧ ((∃ err, Vue.scriptSection tk filePath (script blocks) = Threw err)
     ∨ (∃ err, Vue.templateSection tk filePath (template blocks) = Threw err)
     ∨ (∃ err, Vue.styleSection tk filePath (style blocks) = Threw err) →
     symbols r = [] ∧ exports r = [] ∧ length (errors r) = 1%nat).
Proof.
  intros Hmiss Hread Hne blocks r. subst blocks r.
  unfold Vue.parseFile.
  destruct (Cache.getCachedResult fs cache filePath) as [[cached|] cache1];
    simpl in *; [done|].
  rewrite Hread. destruct sourceCode as [|c src]; [done|]. simpl. split.
  - intros ss es ts cs H1 H2 H3.
    by rewrite (tryBody_returned _ _ _ _ _ _ _ H1 H2 H3).
  - intros Hthrow. apply tryBody_threw in Hthrow as [err ->]. done.
Qed.

Lemma vue_sections_share_one_try_witness :
  let r := (Vue.parseFile vueSampleToolkit vueSampleFs ∅ "Card.vue").1 in
  symbols r = [] ∧ exports r = [] ∧ length (errors r) = 1%nat.
Proof.
  refine (proj2 (vue_sections_share_one_try vueSampleToolkit vueSampleFs ∅
                   "Card.vue" _ _ _ _) _).
  - reflexivity.
  - reflexivity.
  - discriminate.
  - right. right. eexists. reflexivity.
Defined.

(** C8 (as stated) fails: the script section of this file is processed
    without any failure and yields a symbol, the parse of the style
    section, which is 32768 characters long, throws, and the outcome of
    the file holds no symbol at all. *)
Lemma vue_section_failure_counterexample :
  let tk := vueSampleToolkit in
  let blocks := extractSfcBlocks tk vueSampleText in
  Vue.scriptSection tk "Card.vue" (script blocks) = Returned ([vueSampleSymbol], [])
  ∧ (content <$> style blocks) = Some vueSampleStyle
  ∧ Z.of_nat (String.length vueSampleStyle) = 32768
  ∧ Vue.styleSection tk "Card.vue" (style blocks) = Threw "Error: Invalid argument"
  ∧ (Vue.parseFile tk vueSampleFs ∅ "Card.vue").1
    = {| symbols := []; exports := [];
         errors := ["Failed to parse file: Card.vue - Error: Invalid argument"] |}.
Proof. repeat split; vm_compute; reflexivity. Qed.

(** ** parseFileForSymbol *)

Lemma startsWith_spec s p :
  Js.startsWith s p = true ↔ ∃ post, s = p +:+ post.
Proof.
  revert s. induction p as [|a p IH]; intros s; simpl.
  - split; [intros _; by exists s|done].
  - destruct s as [|b s].
    + split; [done|]. intros [post H]. discriminate.
    + destruct (decide (a = b)) as [->|Hne].
      * rewrite IH. split; intros [post H]; exists post.
        -- by rewrite H.
        -- by injection H.
      * split; [done|]. intros [post H]. injection H as ? ?. congruence.
Qed.

Lemma includes_spec s q :
  Js.includes s q = true ↔ ∃ pre post, s = pre +:+ q +:+ post.
Proof.
  induction s as [|b s IH]; simpl.
  - rewrite orb_false_r, startsWith_spec. split.
    + intros [post H]. by exists "", post.
    + intros (pre & post & H). destruct pre as [|c pre]; [by exists post|discriminate].
  - rewrite orb_true_iff, IH, startsWith_spec. split.
    + intros [[post H]|(pre & post & H)].
      * by exists "", post.
      * exists (String b pre), post. simpl. by rewrite H.
    + intros (pre & post & H). destruct pre as [|c pre].
      * left. by exists post.
      * right. injection H as _ H. by exists pre, post.
Qed.

(** The filter of the case-insensitive extractors selects exactly the
    symbols whose lower-cased name contains the lower-cased query and whose
    kind equals the requested one, if one is requested. *)
Lemma matchesInsensitive_spec query type s :
  Extractor.matchesInsensitive query type s = true
  ↔ (∃ pre post, Js.toLowerCase (name s) = pre +:+ Js.toLowerCase query +:+ post)
    ∧ (∀ t, type = Some t → kind s = t).
Proof.
  unfold Extractor.matchesInsensitive. rewrite andb_true_iff, includes_spec.
  destruct type as [t|]; simpl.
  - rewrite bool_decide_eq_true. split.
    + intros [H1 H2]. split; [done|]. by intros ? [= <-].
    + intros [H1 H2]. split; [done|]. by apply H2.
  - split; [|by intros [? _]]. intros [H1 _]. split; [done|]. by intros.
Qed.

Lemma insensitive_parseFileForSymbol extract fs cache filePath query type :
  (Solidity.parseFileForSymbol extract fs cache filePath query type).1
  = List.filter (Extractor.matchesInsensitive query type)
      (symbols (Extractor.parseFile extract fs cache filePath).1)
  ∧ (Python.parseFileForSymbol extract fs cache filePath query type).1
    = List.filter (Extractor.matchesInsensitive query type)
        (symbols (Extractor.parseFile extract fs cache filePath).1).
Proof.
  unfold Solidity.parseFileForSymbol, Python.parseFileForSymbol,
    Solidity.parseFile, Python.parseFile.
  by destruct (Extractor.parseFile extract fs cache filePath).
Qed.

Lemma vue_parseFileForSymbol tk fs cache filePath query type :
  (Vue.parseFileForSymbol tk fs cache filePath query type).1
  = List.filter (Extractor.matchesInsensitive query type)
      (symbols (Vue.parseFile tk fs cache filePath).1).
Proof.
  unfold Vue.parseFileForSymbol.
  by destruct (Vue.parseFile tk fs cache filePath).
Qed.

Lemma typescript_parseFileForSymbol extract fs cache filePath symbolName symbolType :
  (Typescript.parseFileForSymbol extract fs cache filePath symbolName symbolType).1
  = List.filter
      (λ s, Js.includes (name s) symbolName
            && match symbolType with
               | None => true
               | Some t => bool_decide (kind s = t)
               end)
      (symbols (Extractor.parseFile extract fs cache filePath).1).
Proof.
  unfold Typescript.parseFileForSymbol, Typescript.parseFile.
  destruct (Extractor.parseFile extract fs cache filePath) as [r cache1]. simpl.
  apply filter_ext. intros s. f_equal.
  destruct (bool_decide (name s = symbolName)) eqn:E; [|done].
  apply bool_decide_eq_true in E. simpl. symmetry.
  apply includes_spec. exists "", "". rewrite <- E.
  clear. induction (name s) as [|c n IH]; [done|].
  change ("" +:+ String c n +:+ "") with (String c ("" +:+ n +:+ "")).
  by rewrite <- IH.
Qed.

(** C5: on a file whose parse holds the one symbol [Foo], the query [foo]
    is a case-insensitive substring of the name, and the case-insensitive
    extractors return the symbol, but the TypeScript extractor's
    [parseFileForSymbol] returns nothing: its name test is case-sensitive. *)
Theorem typescript_parseFileForSymbol_is_case_sensitive :
  let extract : Extract := λ _ _, Returned ([fooSymbol], []) in
  Extractor.matchesInsensitive "foo" None fooSymbol = true
  ∧ (Typescript.parseFileForSymbol extract fooFs ∅ "a.ts" "foo" None).1 = []
  ∧ (Solidity.parseFileForSymbol extract fooFs ∅ "a.ts" "foo" None).1 = [fooSymbol]
  ∧ (Python.parseFileForSymbol extract fooFs ∅ "a.ts" "foo" None).1 = [fooSymbol].
Proof. vm_compute. done. Qed.

(** ** Export resolver: termination and guards *)

Section WalkFacts.

Context {St : Type}.
Variable parseFile : string → St → ParseResult * St.
Variable resolve : string → string → option string.

Lemma find_name_none (l : list SymbolInfo) X :
(∀ s, s ∈ l → name s ≠ X) →
List.find (λ s, bool_decide (name s = X)) l = None.
Proof.
induction l as [|s l IH]; intros H; simpl; [done|].
rewrite bool_decide_eq_false_2 by (apply H; left).
apply IH. intros s' Hs'. apply H. by right.
Qed.

Lemma followLoop_total recur filePath exported result exps visited (st : St) :
(∀ f n v s, is_Some (recur f n v s)) →
is_Some (ExportResolver.followLoop resolve recur filePath exported result
           exps visited st).
Proof.
intros Hrec. revert visited st.
induction exps as [|exp rest IH]; intros visited st; simpl; [by eexists|].
destruct (exp_kind exp).
- destruct (_ && _); [|apply IH].
  destruct (Js.truthy (resolve _ _)); [|apply IH].
  destruct (Hrec (default "" (resolve filePath (default "" (source exp))))
              (default exported (localName exp)) visited st) as [[[[r|] v] s] ->];
    [by eexists|apply IH].
- destruct (_ && _); [|apply IH].
  destruct (List.find _ _); [by eexists|apply IH].
- destruct (Js.truthy (source exp)); [|apply IH].
  destruct (Js.truthy (resolve _ _)); [|apply IH].
  destruct (Hrec (default "" (resolve filePath (default "" (source exp))))
              exported visited st) as [[[[r|] v] s] ->];
    [by eexists|apply IH].
Qed.

Lemma followLoop_mono recur1 recur2 filePath exported result exps visited (st : St) out :
(∀ f n v s o, recur1 f n v s = Some o → recur2 f n v s = Some o) →
ExportResolver.followLoop resolve recur1 filePath exported result exps visited st
= Some out →
ExportResolver.followLoop resolve recur2 filePath exported result exps visited st
= Some out.
Proof.
intros Hrec. revert visited st.
induction exps as [|exp rest IH]; intros visited st; simpl; [done|].
destruct (exp_kind exp).
- destruct (_ && _); [|apply IH].
  destruct (Js.truthy (resolve _ _)); [|apply IH].
  destruct (recur1 _ _ visited st) as [[[[r|] v] s]|] eqn:E; [| |done].
  + by rewrite (Hrec _ _ _ _ _ E).
  + rewrite (Hrec _ _ _ _ _ E). apply IH.
- destruct (_ && _); [|apply IH].
  destruct (List.find _ _); [done|apply IH].
- destruct (Js.truthy (source exp)); [|apply IH].
  destruct (Js.truthy (resolve _ _)); [|apply IH].
  destruct (recur1 _ _ visited st) as [[[[r|] v] s]|] eqn:E; [| |done].
  + by rewrite (Hrec _ _ _ _ _ E).
  + rewrite (Hrec _ _ _ _ _ E). apply IH.
Qed.

Lemma followExport_fuel_total fuel filePath exported visited depth st :
(ExportResolver.enoughFuel depth ≤ fuel)%nat →
is_Some (ExportResolver.followExport_fuel parseFile resolve fuel filePath exported
           visited depth st).
Proof.
revert filePath exported visited depth st.
induction fuel as [|fuel IH]; intros filePath exported visited depth st Hfuel.
- unfold ExportResolver.enoughFuel in Hfuel. lia.
- simpl. destruct (ExportResolver.MAX_DEPTH <? depth)%nat eqn:Hd; [by eexists|].
  destruct (decide (_ ∈ visited)); [by eexists|].
  destruct (parseFile filePath st) as [result st1].
  destruct (0 <? length (errors result))%nat; [by eexists|].
  destruct (List.find _ _); [by eexists|].
  apply followLoop_total. intros f nm v s. apply IH.
  apply Nat.ltb_ge in Hd.
  unfold ExportResolver.enoughFuel, ExportResolver.MAX_DEPTH in *. lia.
Qed.

Lemma followExport_fuel_mono fuel fuel' filePath exported visited depth st out :
(fuel ≤ fuel')%nat →
ExportResolver.followExport_fuel parseFile resolve fuel filePath exported
  visited depth st = Some out →
ExportResolver.followExport_fuel parseFile resolve fuel' filePath exported
  visited depth st = Some out.
Proof.
revert fuel' filePath exported visited depth st out.
induction fuel as [|fuel IH]; intros fuel' filePath exported visited depth st out Hle;
  [done|].
destruct fuel' as [|fuel']; [lia|]. simpl.
destruct (ExportResolver.MAX_DEPTH <? depth)%nat; [done|].
destruct (decide (_ ∈ visited)); [done|].
destruct (parseFile filePath st) as [result st1].
destruct (0 <? length (errors result))%nat; [done|].
destruct (List.find _ _); [done|].
apply followLoop_mono. intros f nm v s o. apply IH. lia.
Qed.

Lemma followExport_depth_guard filePath exported visited depth st :
(ExportResolver.MAX_DEPTH < depth)%nat →
ExportResolver.followExport parseFile resolve filePath exported visited depth st
= Some (None, visited, st).
Proof.
intros Hd. unfold ExportResolver.followExport, ExportResolver.enoughFuel. simpl.
apply Nat.ltb_lt in Hd. by rewrite Hd.
Qed.

Lemma followExport_visited_guard filePath exported visited depth st :
ExportResolver.visitKey filePath exported ∈ visited →
ExportResolver.followExport parseFile resolve filePath exported visited depth st
= Some (None, visited, st).
Proof.
intros Hv. unfold ExportResolver.followExport, ExportResolver.enoughFuel. simpl.
destruct (ExportResolver.MAX_DEPTH <? depth)%nat; [done|].
by rewrite decide_True.
Qed.

Lemma followLoop_single_reexport recur F T X src result e visited (st : St) :
exp_kind e = ek_named → exportedName e = Some X →
(localName e = None ∨ localName e = Some X) → source e = Some src →
resolve F src = Some T →
(∃ v' s', recur T X visited st = Some (None, v', s')) →
∃ v' s',
  ExportResolver.followLoop resolve recur F X result [e] visited st
  = Some (None, v', s').
Proof.
intros Hk Hn Hl Hs Hres (v' & s' & Hrec).
cbn [ExportResolver.followLoop]. rewrite Hk, Hn, Hs.
rewrite bool_decide_eq_true_2 by done.
destruct src as [|c src]; [by eexists _, _|].
cbn [andb Js.truthy default from_option id]. rewrite Hres.
destruct T as [|t T]; [by eexists _, _|].
cbn [Js.truthy default from_option id].
assert (from_option id X (localName e) = X) as ->
  by (destruct Hl as [->| ->]; done).
rewrite Hrec. by eexists _, _.
Qed.

(** One step along a re-export edge, for states satisfying an invariant
    [Inv] that [parseFile] preserves: if the walk from the target comes
    back empty whenever the key [k0] is marked, so does the walk from a
    file that re-exports the name from that target. *)
Lemma followExport_reexport_none (Inv : St → Prop) fuel F T X src k0 visited depth st :
  (∀ f s, Inv s → Inv (parseFile f s).2) →
  (∀ s, Inv s → reexportsNamed (parseFile F s).1 X src) →
  resolve F src = Some T →
  Inv st →
  k0 ∈ visited ∨ k0 = ExportResolver.visitKey F X →
  (∀ v s, Inv s → k0 ∈ v →
     ∃ v' s', ExportResolver.followExport_fuel parseFile resolve fuel T X v (S depth) s
              = Some (None, v', s')) →
  ∃ v' s', ExportResolver.followExport_fuel parseFile resolve (S fuel) F X visited depth st
           = Some (None, v', s').
Proof.
  intros Hpres HF Hres Hst Hk0 Hrec. simpl.
  destruct (ExportResolver.MAX_DEPTH <? depth)%nat; [by eexists _, _|].
  destruct (decide (_ ∈ visited)); [by eexists _, _|].
  specialize (HF st Hst). specialize (Hpres F st Hst).
  destruct (parseFile F st) as [r st1]. simpl in HF, Hpres.
  destruct HF as (Herr & Hsym & e & Hexp & Hk & Hn & Hl & Hs).
  rewrite Herr. simpl. rewrite (find_name_none _ _ Hsym), Hexp.
  eapply followLoop_single_reexport; eauto.
  apply Hrec; [done|]. destruct Hk0 as [Hin| ->].
  - by apply elem_of_union_r.
  - by apply elem_of_union_l, elem_of_singleton.
Qed.

(** The two-file cycle. *)
Lemma followExport_two_file_cycle (Inv : St → Prop) A B X srcA srcB st :
  (∀ f s, Inv s → Inv (parseFile f s).2) →
  Inv st →
  (∀ s, Inv s → reexportsNamed (parseFile A s).1 X srcB) →
  (∀ s, Inv s → reexportsNamed (parseFile B s).1 X srcA) →
  resolve A srcB = Some B →
  resolve B srcA = Some A →
  ∃ visited' st',
    ExportResolver.followExport parseFile resolve A X ∅ 0 st
    = Some (None, visited', st').
Proof.
  intros Hpres Hst HA HB HrA HrB.
  apply (followExport_reexport_none Inv 11 A B X srcB (ExportResolver.visitKey A X));
    [done|done|done|done|by right|].
  intros v1 s1 Hs1 Hv1.
  apply (followExport_reexport_none Inv 10 B A X srcA (ExportResolver.visitKey A X));
    [done|done|done|done|by left|].
  intros v2 s2 Hs2 Hv2. simpl. rewrite decide_True by done. by eexists _, _.
Qed.

End WalkFacts.

(** Idempotence on a fixed disk: from a cache that agrees with the disk,
    [parseFile] returns the outcome of the file as it is on disk and leaves
    a cache that still agrees with the disk. *)
Lemma parseFile_coherent extract fs cache filePath :
  cacheCoherent extract fs cache →
  (Extractor.parseFile extract fs cache filePath).1 = outcomeOfDisk extract fs filePath
  ∧ cacheCoherent extract fs (Extractor.parseFile extract fs cache filePath).2.
Proof.
  intros Hco.
  assert (cacheCoherent extract fs (Cache.getCachedResult fs cache filePath).2) as Hco1.
  { unfold Cache.getCachedResult.
    destruct (cache !! filePath) as [e|]; [|done].
    destruct (statSync fs (toAbsolute fs filePath)) as [m|]; simpl.
    - destruct (decide (m = mtime e)); simpl; [done|].
      intros p e' Hp. apply lookup_delete_Some in Hp as [_ Hp]. by apply Hco.
    - intros p e' Hp. apply lookup_delete_Some in Hp as [_ Hp]. by apply Hco. }
  destruct ((Cache.getCachedResult fs cache filePath).1) as [cached|] eqn:Hget.
  - apply getCachedResult_hit in Hget as (e & He & Hm & ->).
    unfold Extractor.parseFile, Cache.getCachedResult. rewrite He, Hm.
    rewrite decide_True by done. simpl. split; [by apply Hco|done].
  - split; [by apply parseFile_miss|].
    pose proof (parseFile_miss extract fs cache filePath Hget) as Hout.
    unfold Extractor.parseFile in *.
    destruct (Cache.getCachedResult fs cache filePath) as [[cached|] cache1];
      simpl in *; [done|].
    destruct (negb (Js.truthy (readFileContent fs filePath))); [done|].
    destruct (extract filePath (default "" (readFileContent fs filePath)))
      as [[syms exps]|err]; simpl in *; [|done].
    unfold Cache.setCachedResult.
    destruct (statSync fs (toAbsolute fs filePath)) as [m|]; [|done].
    intros p e Hp Hm. apply lookup_insert_Some in Hp as [[<- <-]|[_ Hp]]; [done|].
    by apply Hco1.
Qed.

(** A registry holding only the TypeScript parser dispatches every path
    either to that parser or to the unsupported-file outcome. *)
Lemma Index_parseFile_typescript_only extract fs cache filePath :
  Index.parseFile
    (Registry.registerParser ∅ (Typescript.typescriptParser extract)) fs cache filePath
  = Extractor.parseFile extract fs cache filePath
  ∨ Index.parseFile
      (Registry.registerParser ∅ (Typescript.typescriptParser extract)) fs cache filePath
    = ({| symbols := []; exports := [];
          errors := ["Unsupported file type: " +:+ filePath] |}, cache).
Proof.
  unfold Index.parseFile, Registry.getParserForFile.
  rewrite registerParser_lookup. case_decide; [by left|].
  rewrite lookup_empty. by right.
Qed.

(** The two-file cycle on disk, through registry, cache and extractor,
    evaluated from the empty cache. *)
Lemma followExport_cycle_on_disk_run :
  (λ out, (out.1.1, elements out.1.2, dom out.2))
    <$> ExportResolver.followExport
          (λ p c, Index.parseFile diskRegistry diskFs c p)
          (ExportResolver.resolveModulePath diskPaths diskFs) "a.ts" "X" ∅ 0 ∅
  = Some (None, elements ({["a.ts:X"; "b.ts:X"]} : gset string),
          ({["a.ts"; "b.ts"]} : gset string)).
Proof. vm_compute. reflexivity. Qed.

(** C1: [followExport] terminates on every export graph: the fuel
    [enoughFuel depth], which depends on nothing but the depth, always
    produces a result, and more fuel produces the same result. It returns
    [null] without touching the visited set or parsing anything when the
    depth exceeds [MAX_DEPTH = 10] and when the key of [(file, name)] is
    already in the visited set. On a two-file re-export cycle ([A] exports
    [X] from [B], [B] exports [X] from [A], in every state of the parse
    cache that satisfies an invariant [Inv] which [parseFile] preserves) it
    returns [null]. *)
Theorem followExport_terminates_and_guards
    {St : Type} (parseFile : string → St → ParseResult * St)
    (resolve : string → string → option string) :
  ExportResolver.MAX_DEPTH = 10%nat
  ∧ (∀ fuel filePath exported visited depth st,
       (ExportResolver.enoughFuel depth ≤ fuel)%nat →
       ∃ out,
         ExportResolver.followExport parseFile resolve filePath exported visited depth st
         = Some out
         ∧ ExportResolver.followExport_fuel parseFile resolve fuel filePath exported
             visited depth st = Some out)
  ∧ (∀ filePath exported visited depth st,
       (ExportResolver.MAX_DEPTH < depth)%nat →
       ExportResolver.followExport parseFile resolve filePath exported visited depth st
       = Some (None, visited, st))
  ∧ (∀ filePath exported visited depth st,
       ExportResolver.visitKey filePath exported ∈ visited →
       ExportResolver.followExport parseFile resolve filePath exported visited depth st
       = Some (None, visited, st))
  ∧ (∀ (Inv : St → Prop) A B X srcA srcB st,
       (∀ f s, Inv s → Inv (parseFile f s).2) →
       Inv st →
       (∀ s, Inv s → reexportsNamed (parseFile A s).1 X srcB) →
       (∀ s, Inv s → reexportsNamed (parseFile B s).1 X srcA) →
       resolve A srcB = Some B →
       resolve B srcA = Some A →
       ∃ visited' st',
         ExportResolver.followExport parseFile resolve A X ∅ 0 st
         = Some (None, visited', st')).
Proof.
  split; [reflexivity|]. split; [|split; [|split]].
  - intros fuel filePath exported visited depth st Hfuel.
    destruct (followExport_fuel_total parseFile resolve
                (ExportResolver.enoughFuel depth) filePath exported visited depth st)
      as [out Hout]; [done|].
    exists out. split; [exact Hout|].
    by apply (followExport_fuel_mono parseFile resolve _ _ _ _ _ _ _ _ Hfuel).
  - apply followExport_depth_guard.
  - apply followExport_visited_guard.
  - apply followExport_two_file_cycle.
Qed.

Lemma disk_parse_preserves f s :
  cacheCoherent diskExtract diskFs s →
  cacheCoherent diskExtract diskFs (Index.parseFile diskRegistry diskFs s f).2.
Proof.
  intros Hs. unfold diskRegistry.
  destruct (Index_parseFile_typescript_only diskExtract diskFs s f) as [-> | ->];
    [by apply parseFile_coherent|done].
Qed.

Lemma disk_parse_a s :
  cacheCoherent diskExtract diskFs s →
  reexportsNamed (Index.parseFile diskRegistry diskFs s "a.ts").1 "X" "./b".
Proof.
  intros Hs.
  replace (Index.parseFile diskRegistry diskFs s "a.ts")
    with (Extractor.parseFile diskExtract diskFs s "a.ts") by reflexivity.
  rewrite (proj1 (parseFile_coherent diskExtract diskFs s "a.ts" Hs)).
  split; [done|]. split; [by intros x Hx%elem_of_nil|].
  exists (cycleExport "./b"). repeat split; by try right.
Qed.

Lemma disk_parse_b s :
  cacheCoherent diskExtract diskFs s →
  reexportsNamed (Index.parseFile diskRegistry diskFs s "b.ts").1 "X" "./a".
Proof.
  intros Hs.
  replace (Index.parseFile diskRegistry diskFs s "b.ts")
    with (Extractor.parseFile diskExtract diskFs s "b.ts") by reflexivity.
  rewrite (proj1 (parseFile_coherent diskExtract diskFs s "b.ts" Hs)).
  split; [done|]. split; [by intros x Hx%elem_of_nil|].
  exists (cycleExport "./a"). repeat split; by try right.
Qed.

Lemma cacheCoherent_empty extract fs : cacheCoherent extract fs ∅.
Proof. intros p e Hp. by rewrite lookup_empty in Hp. Qed.

Lemma followExport_terminates_and_guards_witness :
  ∃ visited' cache',
    ExportResolver.followExport
      (λ p c, Index.parseFile diskRegistry diskFs c p)
      (ExportResolver.resolveModulePath diskPaths diskFs) "a.ts" "X" ∅ 0 ∅
    = Some (None, visited', cache').
Proof.
  apply (proj2 (proj2 (proj2 (proj2
           (followExport_terminates_and_guards
              (λ p c, Index.parseFile diskRegistry diskFs c p)
              (ExportResolver.resolveModulePath diskPaths diskFs)))))
           (cacheCoherent diskExtract diskFs) "a.ts" "b.ts" "X" "./a" "./b" ∅).
  - intros f s. apply disk_parse_preserves.
  - apply cacheCoherent_empty.
  - apply disk_parse_a.
  - apply disk_parse_b.
  - reflexivity.
  - reflexivity.
Defined.

(** ** Export resolver: wildcard aggregation *)

Section AggregateFacts.

Context {St : Type}.
Variable parseFile : string → St → ParseResult * St.
Variable resolve : string → string → option string.

Lemma reexportLoop_total recur filePath exps acc visited (st : St) :
(∀ f v s, is_Some (recur f v s)) →
is_Some (ExportResolver.reexportLoop resolve recur filePath exps acc visited st).
Proof.
intros Hrec. revert acc visited st.
induction exps as [|exp rest IH]; intros acc visited st; simpl; [by eexists|].
destruct (exp_kind exp); try apply IH.
destruct (Js.truthy (source exp)); [|apply IH].
destruct (Js.truthy (resolve _ _)); [|apply IH].
destruct (Hrec (default "" (resolve filePath (default "" (source exp)))) visited st)
  as [[[re v] s] ->]. apply IH.
Qed.

Lemma reexportLoop_mono recur1 recur2 filePath exps acc visited (st : St) out :
(∀ f v s o, recur1 f v s = Some o → recur2 f v s = Some o) →
ExportResolver.reexportLoop resolve recur1 filePath exps acc visited st = Some out →
ExportResolver.reexportLoop resolve recur2 filePath exps acc visited st = Some out.
Proof.
intros Hrec. revert acc visited st.
induction exps as [|exp rest IH]; intros acc visited st; simpl; [done|].
destruct (exp_kind exp); try apply IH.
destruct (Js.truthy (source exp)); [|apply IH].
destruct (Js.truthy (resolve _ _)); [|apply IH].
destruct (recur1 _ visited st) as [[[re v] s]|] eqn:E; [|done].
rewrite (Hrec _ _ _ _ E). apply IH.
Qed.

Lemma reexportLoop_skip recur filePath exps acc visited (st : St) :
Forall (λ x, exp_kind x ≠ ek_all) exps →
ExportResolver.reexportLoop resolve recur filePath exps acc visited st
= Some (acc, visited, st).
Proof.
induction 1 as [|exp rest Hk _ IH]; simpl; [done|].
by destruct (exp_kind exp).
Qed.

Lemma reexportLoop_app recur filePath l1 l2 acc visited (st : St) :
ExportResolver.reexportLoop resolve recur filePath (l1 ++ l2) acc visited st
= match ExportResolver.reexportLoop resolve recur filePath l1 acc visited st with
  | Some (acc', visited', st') =>
      ExportResolver.reexportLoop resolve recur filePath l2 acc' visited' st'
  | None => None
  end.
Proof.
revert acc visited st.
induction l1 as [|exp rest IH]; intros acc visited st; simpl; [done|].
destruct (exp_kind exp); try apply IH.
destruct (Js.truthy (source exp)); [|apply IH].
destruct (Js.truthy (resolve _ _)); [|apply IH].
destruct (recur _ visited st) as [[[re v] s]|]; [apply IH|done].
Qed.

Lemma reexportLoop_one_wildcard recur F T src pre e post acc visited (st : St)
  re visited' st' :
exp_kind e = ek_all → source e = Some src → src ≠ "" →
resolve F src = Some T → T ≠ "" →
Forall (λ x, exp_kind x ≠ ek_all) (pre ++ post) →
recur T visited st = Some (re, visited', st') →
ExportResolver.reexportLoop resolve recur F (pre ++ e :: post) acc visited st
= Some (acc ++ re, visited', st').
Proof.
intros Hk Hs Hsrc Hres HT Hrest Hrec.
apply Forall_app in Hrest as [Hpre Hpost].
rewrite reexportLoop_app, (reexportLoop_skip _ _ _ _ _ _ Hpre).
cbn [ExportResolver.reexportLoop]. rewrite Hk, Hs.
destruct src as [|c src]; [done|].
cbn [Js.truthy default from_option id]. rewrite Hres.
destruct T as [|t T]; [done|].
cbn [Js.truthy default from_option id]. rewrite Hrec.
apply (reexportLoop_skip _ _ _ _ _ _ Hpost).
Qed.

Lemma getAllReexportedSymbols_fuel_total fuel filePath visited depth st :
(ExportResolver.enoughFuel depth ≤ fuel)%nat →
is_Some (ExportResolver.getAllReexportedSymbols_fuel parseFile resolve fuel
           filePath visited depth st).
Proof.
revert filePath visited depth st.
induction fuel as [|fuel IH]; intros filePath visited depth st Hfuel.
- unfold ExportResolver.enoughFuel in Hfuel. lia.
- simpl. destruct (ExportResolver.MAX_DEPTH <? depth)%nat eqn:Hd; [by eexists|].
  destruct (decide (_ ∈ visited)); [by eexists|].
  destruct (parseFile filePath st) as [result st1].
  destruct (0 <? length (errors result))%nat; [by eexists|].
  apply reexportLoop_total. intros f v s. apply IH.
  apply Nat.ltb_ge in Hd.
  unfold ExportResolver.enoughFuel, ExportResolver.MAX_DEPTH in *. lia.
Qed.

Lemma getAllReexportedSymbols_fuel_mono fuel fuel' filePath visited depth st out :
(fuel ≤ fuel')%nat →
ExportResolver.getAllReexportedSymbols_fuel parseFile resolve fuel filePath
  visited depth st = Some out →
ExportResolver.getAllReexportedSymbols_fuel parseFile resolve fuel' filePath
  visited depth st = Some out.
Proof.
revert fuel' filePath visited depth st out.
induction fuel as [|fuel IH]; intros fuel' filePath visited depth st out Hle;
  [done|].
destruct fuel' as [|fuel']; [lia|]. simpl.
destruct (ExportResolver.MAX_DEPTH <? depth)%nat; [done|].
destruct (decide (_ ∈ visited)); [done|].
destruct (parseFile filePath st) as [result st1].
destruct (0 <? length (errors result))%nat; [done|].
apply reexportLoop_mono. intros f v s o. apply IH. lia.
Qed.

(** A file without wildcard re-exports contributes its own symbols. *)
Lemma getAll_wildcardFree fuel F syms visited depth st :
(depth ≤ ExportResolver.MAX_DEPTH)%nat → F ∉ visited →
wildcardFree (parseFile F st).1 syms →
ExportResolver.getAllReexportedSymbols_fuel parseFile resolve (S fuel) F
  visited depth st
= Some (syms, {[F]} ∪ visited, (parseFile F st).2).
Proof.
intros Hd Hv (Herr & Hsym & Hexp). simpl.
apply Nat.ltb_ge in Hd. rewrite Hd. rewrite decide_False by done.
destruct (parseFile F st) as [r st1]. simpl in *. rewrite Herr. simpl.
rewrite Hsym. by apply reexportLoop_skip.
Qed.

(** A file with one wildcard re-export contributes its own symbols followed
  by what the walk of the target returns. *)
Lemma getAll_wildcardTo fuel F T syms src visited depth st re visited' st' :
(depth ≤ ExportResolver.MAX_DEPTH)%nat → F ∉ visited →
wildcardTo (parseFile F st).1 syms src →
src ≠ "" → resolve F src = Some T → T ≠ "" →
ExportResolver.getAllReexportedSymbols_fuel parseFile resolve fuel T
  ({[F]} ∪ visited) (S depth) (parseFile F st).2 = Some (re, visited', st') →
ExportResolver.getAllReexportedSymbols_fuel parseFile resolve (S fuel) F
  visited depth st
= Some (syms ++ re, visited', st').
Proof.
intros Hd Hv (Herr & Hsym & pre & e & post & Hexp & Hk & Hs & Hrest)
  Hsrc Hres HT Hrec. simpl.
apply Nat.ltb_ge in Hd. rewrite Hd. rewrite decide_False by done.
destruct (parseFile F st) as [r st1]. simpl in *. rewrite Herr. simpl.
rewrite Hsym, Hexp.
by apply (reexportLoop_one_wildcard _ F T src).
Qed.

(** A wildcard chain three files deep, for states satisfying an invariant
    [Inv] that [parseFile] preserves. *)
Lemma getAll_three_deep (Inv : St → Prop) A B C srcB srcC symsA symsB symsC st :
  (∀ f s, Inv s → Inv (parseFile f s).2) →
  Inv st →
  A ≠ B → A ≠ C → B ≠ C → B ≠ "" → C ≠ "" → srcB ≠ "" → srcC ≠ "" →
  (∀ s, Inv s → wildcardTo (parseFile A s).1 symsA srcB) →
  (∀ s, Inv s → wildcardTo (parseFile B s).1 symsB srcC) →
  (∀ s, Inv s → wildcardFree (parseFile C s).1 symsC) →
  resolve A srcB = Some B →
  resolve B srcC = Some C →
  ∃ st',
    ExportResolver.getAllReexportedSymbols parseFile resolve A ∅ 0 st
    = Some (symsA ++ symsB ++ symsC, {[C]} ∪ ({[B]} ∪ ({[A]} ∪ ∅)), st').
Proof.
  intros Hpres Hst HAB HAC HBC HB HC HsB HsC HpA HpB HpC HrA HrB.
  pose proof (Hpres A st Hst) as Hst1.
  pose proof (Hpres B _ Hst1) as Hst2.
  eexists. unfold ExportResolver.getAllReexportedSymbols.
  apply (getAll_wildcardTo 11 A B symsA srcB); try done.
  { unfold ExportResolver.MAX_DEPTH. lia. }
  { by apply HpA. }
  apply (getAll_wildcardTo 10 B C symsB srcC); try done.
  { unfold ExportResolver.MAX_DEPTH. lia. }
  { rewrite elem_of_union, elem_of_singleton. by intros [?|?%elem_of_empty]. }
  { by apply HpB. }
  apply (getAll_wildcardFree 9 C symsC); try done.
  { unfold ExportResolver.MAX_DEPTH. lia. }
  { rewrite !elem_of_union, !elem_of_singleton.
    by intros [?|[?|?%elem_of_empty]]. }
  by apply HpC.
Qed.

End AggregateFacts.

(** The sample syntax trees spell the sample files. *)
Lemma sample_trees_spell_files :
  Forall (λ '(tree, text),
            node_text tree = text
            ∧ JsText.join (node_text <$> children tree) (String "010" "") = text)
    [(chainTreeA, chainTextA); (chainTreeB, chainTextB); (chainTreeC, chainTextC);
     (loopTreeP, loopTextP); (loopTreeQ, loopTextQ); (loopTreeR, loopTextR);
     (loopTreeS, loopTextS)].
Proof. repeat constructor. Qed.

(** C6 (the code on the claim's own example): in a workspace of three
    files chained by [export * from], each declaring and exporting two
    functions, the statement [export * from './b'] yields no export record
    at all. [collectExports] records kind [all] only for an export
    statement with a [namespace_export] child, which
    [export * as b from './b'] has and [export * from './b'] has not. So
    the parse of the root file holds two named records and no wildcard,
    and [getAllReexportedSymbols] of the root visits the root only and
    returns its two symbols, not the six of the chain. *)
Theorem getAllReexportedSymbols_misses_plain_wildcard :
  TypescriptWalk.exportRecords (tsExportStar "./b" 2) = []
  ∧ (λ e, (exp_kind e, source e))
      <$> TypescriptWalk.exportRecords (tsExportNamespace "b" "./b" 2)
    = [(ek_all, Some "./b")]
  ∧ exp_kind <$> exports (outcomeOfDisk chainExtract chainFs "a.ts")
    = [ek_named; ek_named]
  ∧ (λ out : list SymbolInfo * gset string * gmap string CacheEntry,
       (out.1.1, out.1.2))
      <$> ExportResolver.getAllReexportedSymbols
            (λ p c, Index.parseFile chainRegistry chainFs c p)
            (ExportResolver.resolveModulePath chainPaths chainFs) "a.ts" ∅ 0 ∅
    = Some (chainSymsA, ({["a.ts"]} : gset string))
  ∧ length chainSymsA = 2%nat
  ∧ length (chainSymsA ++ chainSymsB ++ chainSymsC) = 6%nat.
Proof. repeat split; vm_compute; reflexivity. Qed.

(** ** Fuzzy search: the join of the four strategies *)

Lemma promiseAll_fulfilled {A} (ps : list (Settled A)) (vs : list A) :
  ps = Fulfilled <$> vs → Fuzzy.promiseAll ps = Fulfilled vs.
Proof.
  intros ->. induction vs as [|v vs IH]; [done|].
  change (Fulfilled <$> v :: vs) with (Fulfilled v :: (Fulfilled <$> vs)).
  cbn [Fuzzy.promiseAll]. by rewrite IH.
Qed.

Lemma promiseAll_rejected {A} (ps : list (Settled A)) :
  (∃ e, Rejected e ∈ ps) → ∃ e, Fuzzy.promiseAll ps = Rejected e.
Proof.
  intros [e He]. induction ps as [|p ps IH]; [by apply elem_of_nil in He|].
  apply elem_of_cons in He as [<-|He]; simpl; [by eexists|].
  destruct p as [a|e']; [|by eexists].
  destruct (IH He) as [e'' ->]. by eexists.
Qed.

(** C4 (as the code has it): [searchFuzzy] awaits the four recall
    strategies through one [Promise.all] and has no handler for a failure.
    When all four strategies succeed it returns [mergeAndSort] of their
    candidates concatenated in the order alias, symbol, filename, text;
    when any one of them fails, [searchFuzzy] itself fails. *)
Theorem searchFuzzy_single_join
    (aliasRecall : string → Settled (list FuzzyResult))
    (searchSymbol : SearchSymbolInput → Settled (list SymbolInfo))
    (fileNameRecall textRecall : string → option string → Settled (list FuzzyResult))
    (input : SearchFuzzyInput) :
  let query := sf_query input in
  let scope := sf_scope input in
  let limit := sf_limit input in
  let run := Fuzzy.searchFuzzy aliasRecall searchSymbol fileNameRecall textRecall input in
  (∀ a s f t,
     aliasRecall query = Fulfilled a →
     Fuzzy.symbolRecall searchSymbol query scope (Some limit) = Fulfilled s →
     fileNameRecall query scope = Fulfilled f →
     textRecall query scope = Fulfilled t →
     run = Fulfilled (Fuzzy.mergeAndSort (a ++ s ++ f ++ t) limit))
  ∧ ((∃ e, aliasRecall query = Rejected e)
     ∨ (∃ e, Fuzzy.symbolRecall searchSymbol query scope (Some limit) = Rejected e)
     ∨ (∃ e, fileNameRecall query scope = Rejected e)
     ∨ (∃ e, textRecall query scope = Rejected e) →
     ∃ e, run = Rejected e).
Proof.
  intros query scope limit run. subst run. unfold Fuzzy.searchFuzzy.
  fold query scope limit. split.
  - intros a s f t -> -> -> ->.
    rewrite (promiseAll_fulfilled _ [a; s; f; t]) by done.
    simpl. by rewrite app_nil_r.
  - intros Hrej.
    destruct (promiseAll_rejected
                [aliasRecall query;
                 Fuzzy.symbolRecall searchSymbol query scope (Some limit);
                 fileNameRecall query scope; textRecall query scope])
      as [e ->]; [|by eexists].
    destruct Hrej as [[e He]|[[e He]|[[e He]|[e He]]]]; exists e; rewrite <- He.
    + apply elem_of_cons; by left.
    + do 1 (apply elem_of_cons; right). apply elem_of_cons; by left.
    + do 2 (apply elem_of_cons; right). apply elem_of_cons; by left.
    + do 3 (apply elem_of_cons; right). apply elem_of_cons; by left.
Qed.

Lemma searchFuzzy_single_join_witness :
  ∃ e,
    Fuzzy.searchFuzzy (λ _, Fulfilled [aliasCandidate]) (λ _, Fulfilled [])
      (λ _ _, Rejected "SyntaxError: Invalid regular expression")
      (λ _ _, Fulfilled []) flipInput
    = Rejected e.
Proof.
  apply (proj2 (searchFuzzy_single_join (λ _, Fulfilled [aliasCandidate])
                  (λ _, Fulfilled [])
                  (λ _ _, Rejected "SyntaxError: Invalid regular expression")
                  (λ _ _, Fulfilled []) flipInput)).
  right. right. left. eexists. reflexivity.
Defined.

(** C4 (as stated) fails: the filename strategy fails, the alias strategy
    has produced a candidate and the other two have produced none, so the
    merged candidates of the remaining strategies are that one candidate;
    [searchFuzzy] returns no candidates but fails with the filename
    strategy's error. *)
Lemma searchFuzzy_failure_counterexample :
  Fuzzy.symbolRecall (λ _, Fulfilled []) "flip card" None (Some 20) = Fulfilled []
  ∧ Fuzzy.mergeAndSort ([aliasCandidate] ++ [] ++ []) 20 = [aliasCandidate]
  ∧ Fuzzy.searchFuzzy (λ _, Fulfilled [aliasCandidate]) (λ _, Fulfilled [])
      (λ _ _, Rejected "SyntaxError: Invalid regular expression")
      (λ _ _, Fulfilled []) flipInput
    = Rejected "SyntaxError: Invalid regular expression".
Proof. vm_compute. done. Qed.

(** ** Fuzzy search: symbol recall *)

Lemma collectSymbols_spec query l seen acc :
  Fuzzy.collectSymbols query l seen acc
  = (list_to_set (Fuzzy.symbolKey <$> l) ∪ seen,
     acc ++ (Fuzzy.symbolCandidate query <$> keepFirst seen l)).
Proof.
  revert seen acc. induction l as [|s l IH]; intros seen acc; simpl.
  - f_equal; [set_solver|by rewrite app_nil_r].
  - destruct (decide (Fuzzy.symbolKey s ∈ seen)) as [Hin|Hnin]; rewrite IH.
    + f_equal. set_solver.
    + f_equal; [set_solver|]. simpl. by rewrite <- app_assoc.
Qed.

Lemma keepFirst_app seen l1 l2 :
  keepFirst seen (l1 ++ l2)
  = keepFirst seen l1 ++ keepFirst (list_to_set (Fuzzy.symbolKey <$> l1) ∪ seen) l2.
Proof.
  revert seen. induction l1 as [|s l1 IH]; intros seen; simpl.
  - f_equal. set_solver.
  - destruct (decide (Fuzzy.symbolKey s ∈ seen)) as [Hin|Hnin]; rewrite IH.
    + do 2 f_equal. set_solver.
    + simpl. do 3 f_equal. set_solver.
Qed.

Lemma keepFirst_elem seen l s :
  s ∈ keepFirst seen l → s ∈ l ∧ Fuzzy.symbolKey s ∉ seen.
Proof.
  revert seen. induction l as [|x l IH]; intros seen; simpl.
  - by intros H%elem_of_nil.
  - destruct (decide (Fuzzy.symbolKey x ∈ seen)) as [Hin|Hnin].
    + intros [H1 H2]%IH. split; [by right|done].
    + intros [->|[H1 H2]%IH]%elem_of_cons.
      * split; [by left|done].
      * split; [by right|]. set_solver.
Qed.

Lemma keepFirst_NoDup seen l : NoDup (Fuzzy.symbolKey <$> keepFirst seen l).
Proof.
  revert seen. induction l as [|x l IH]; intros seen; simpl; [constructor|].
  destruct (decide (Fuzzy.symbolKey x ∈ seen)) as [Hin|Hnin]; [apply IH|].
  simpl. constructor; [|apply IH].
  intros (y & Hy & Hin)%list_elem_of_fmap.
  apply keepFirst_elem in Hin as [_ Hin]. set_solver.
Qed.

Lemma keepFirst_first seen pre s post :
  Fuzzy.symbolKey s ∉ seen →
  (∀ x, x ∈ pre → Fuzzy.symbolKey x ≠ Fuzzy.symbolKey s) →
  s ∈ keepFirst seen (pre ++ s :: post).
Proof.
  intros Hseen Hpre. rewrite keepFirst_app. apply elem_of_app. right.
  simpl. rewrite decide_False; [by left|].
  intros [Hin|Hin]%elem_of_union; [|done].
  apply elem_of_list_to_set, list_elem_of_fmap in Hin as (x & Hx & Hin).
  by apply (Hpre x).
Qed.

Lemma NoDup_fmap_eq {A B} (f : A → B) (l : list A) x y :
  NoDup (f <$> l) → x ∈ l → y ∈ l → f x = f y → x = y.
Proof.
  induction l as [|a l IH]; simpl; [by intros _ H%elem_of_nil|].
  intros [Hnin Hnd]%NoDup_cons [->|Hx]%elem_of_cons [->|Hy]%elem_of_cons Hf;
    [done| | |by apply IH].
  - exfalso. apply Hnin. rewrite Hf. by apply list_elem_of_fmap_2.
  - exfalso. apply Hnin. rewrite <- Hf. by apply list_elem_of_fmap_2.
Qed.

Lemma symbolRecallLoop_spec searchSymbol res query scope limit variants seen acc :
  (∀ variant,
     searchSymbol {| ss_query := variant; ss_type := None; ss_scope := scope;
                     ss_limit := default 20 limit; ss_followExports := true |}
     = Fulfilled (res variant)) →
  Fuzzy.symbolRecallLoop searchSymbol query scope limit variants seen acc
  = Fulfilled (acc ++ (Fuzzy.symbolCandidate query
                         <$> keepFirst seen (concat (res <$> variants)))).
Proof.
  intros Hres. revert seen acc.
  induction variants as [|v variants IH]; intros seen acc; simpl.
  - by rewrite app_nil_r.
  - rewrite Hres. simpl. rewrite collectSymbols_spec, IH.
    rewrite keepFirst_app, fmap_app. by rewrite <- app_assoc.
Qed.

Lemma symbolKey_inj (s1 s2 : SymbolInfo) :
  noChar ":" (file s1) → noChar ":" (file s2) →
  Fuzzy.symbolKey s1 = Fuzzy.symbolKey s2 → fileAndName s1 = fileAndName s2.
Proof.
  intros H1 H2. unfold Fuzzy.symbolKey, fileAndName.
  change (file s1 +:+ ":" +:+ name s1) with (file s1 +:+ String ":" (name s1)).
  change (file s2 +:+ ":" +:+ name s2) with (file s2 +:+ String ":" (name s2)).
  intros [-> ->]%app_sep_inj_l; done.
Qed.

Lemma symbolKey_fileAndName (s1 s2 : SymbolInfo) :
  fileAndName s1 = fileAndName s2 → Fuzzy.symbolKey s1 = Fuzzy.symbolKey s2.
Proof. unfold Fuzzy.symbolKey, fileAndName. by intros [= -> ->]. Qed.

(** On files without a colon in their path, keeping the first symbol per
    key is keeping the first symbol per pair of file and name. *)
Lemma keepFirst_firstPerFileAndName seen takenSyms l :
  Forall (λ s, noChar ":" (file s)) l →
  Forall (λ s, noChar ":" (file s)) takenSyms →
  seen = list_to_set (Fuzzy.symbolKey <$> takenSyms) →
  keepFirst seen l = firstPerFileAndName (fileAndName <$> takenSyms) l.
Proof.
  revert seen takenSyms. induction l as [|s l IH]; intros seen takenSyms Hl Ht ->;
    [done|].
  apply Forall_cons in Hl as [Hs Hl]. simpl.
  assert (Fuzzy.symbolKey s ∈ (list_to_set (Fuzzy.symbolKey <$> takenSyms) : gset string)
          ↔ fileAndName s ∈ fileAndName <$> takenSyms) as Hiff.
  { rewrite elem_of_list_to_set, !list_elem_of_fmap. split.
    - intros (x & Hk & Hx). exists x. split; [|done].
      apply symbolKey_inj; [done| |done].
      rewrite Forall_forall in Ht. by apply Ht.
    - intros (x & Hk & Hx). exists x. split; [|done].
      by apply symbolKey_fileAndName. }
  destruct (decide (Fuzzy.symbolKey s ∈ _)) as [Hin|Hnin].
  - rewrite decide_True by (by apply Hiff). by apply IH.
  - rewrite decide_False by (by rewrite <- Hiff). f_equal.
    apply (IH _ (s :: takenSyms)); [done|by constructor|].
    by rewrite fmap_cons, list_to_set_cons.
Qed.

(** The symbol recall, in terms of the key string. *)
Lemma symbolRecall_by_key
    (searchSymbol : SearchSymbolInput → Settled (list SymbolInfo))
    (res : string → list SymbolInfo)
    (query : string) (scope : option string) (limit : option Z) :
  (∀ variant,
     searchSymbol {| ss_query := variant; ss_type := None; ss_scope := scope;
                     ss_limit := default 20 limit; ss_followExports := true |}
     = Fulfilled (res variant)) →
  let encountered := concat (res <$> Fuzzy.normalizeQuery query) in
  ∃ out,
    Fuzzy.symbolRecall searchSymbol query scope limit = Fulfilled out
    ∧ out = (Fuzzy.symbolCandidate query <$> keepFirst ∅ encountered)
    ∧ NoDup ((λ c, (fz_file c, fz_symbol c)) <$> out)
    ∧ (∀ pre s1 mid s2 post,
         encountered = pre ++ s1 :: mid ++ s2 :: post →
         file s1 = file s2 → name s1 = name s2 →
         (∀ s, s ∈ pre → Fuzzy.symbolKey s ≠ Fuzzy.symbolKey s1) →
         Fuzzy.symbolCandidate query s1 ∈ out
         ∧ (range s2 ≠ range s1 → Fuzzy.symbolCandidate query s2 ∉ out)).
Proof.
  intros Hres encountered. eexists. split; [|split; [reflexivity|split]].
  - unfold Fuzzy.symbolRecall.
    by rewrite (symbolRecallLoop_spec _ res).
  - rewrite <- list_fmap_compose.
    pose proof (keepFirst_NoDup ∅ encountered) as Hnd.
    apply NoDup_fmap_2_strong; [|by eapply NoDup_fmap_1].
    intros x y Hx Hy [= Hf Hn].
    apply (NoDup_fmap_eq Fuzzy.symbolKey (keepFirst ∅ encountered)); try done.
    unfold Fuzzy.symbolKey. by rewrite Hf, Hn.
  - intros pre s1 mid s2 post Henc Hfile Hname Hfirst.
    assert (s1 ∈ keepFirst ∅ encountered) as Hs1.
    { rewrite Henc. apply keepFirst_first; [set_solver|done]. }
    split; [by apply list_elem_of_fmap_2|].
    intros Hrange (s' & Hc & Hs')%list_elem_of_fmap.
    injection Hc as Hf Hr Hn _ _ _.
    assert (s' = s1) as ->.
    { apply (NoDup_fmap_eq Fuzzy.symbolKey (keepFirst ∅ encountered));
        [apply keepFirst_NoDup|done|done|].
      unfold Fuzzy.symbolKey. congruence. }
    congruence.
Qed.

(** C10: when every symbol search succeeds, [symbolRecall] turns into
    candidates exactly the symbols that are first for their key
    [`${file}:${name}`] in encounter order over all query variants. The
    output holds at most one candidate per (file, symbol name); of two
    encountered symbols with the same file and name, the first one
    encountered yields a candidate and the later one, whose range differs,
    yields none. When no file path holds a colon, the key determines the
    pair: the output is the list of candidates of the symbols that are
    first for their pair (file, name), so that every symbol with a new
    file or a new name yields a candidate, and a symbol whose file and
    name were met before yields none. *)
Theorem symbolRecall_dedups_by_file_and_name
    (searchSymbol : SearchSymbolInput → Settled (list SymbolInfo))
    (res : string → list SymbolInfo)
    (query : string) (scope : option string) (limit : option Z) :
  (∀ variant,
     searchSymbol {| ss_query := variant; ss_type := None; ss_scope := scope;
                     ss_limit := default 20 limit; ss_followExports := true |}
     = Fulfilled (res variant)) →
  let encountered := concat (res <$> Fuzzy.normalizeQuery query) in
  ∃ out,
    Fuzzy.symbolRecall searchSymbol query scope limit = Fulfilled out
    ∧ out = (Fuzzy.symbolCandidate query <$> keepFirst ∅ encountered)
    ∧ NoDup ((λ c, (fz_file c, fz_symbol c)) <$> out)
    ∧ (∀ pre s1 mid s2 post,
         encountered = pre ++ s1 :: mid ++ s2 :: post →
         file s1 = file s2 → name s1 = name s2 →
         (∀ s, s ∈ pre → Fuzzy.symbolKey s ≠ Fuzzy.symbolKey s1) →
         Fuzzy.symbolCandidate query s1 ∈ out
         ∧ (range s2 ≠ range s1 → Fuzzy.symbolCandidate query s2 ∉ out))
    ∧ (Forall (λ s, noChar ":" (file s)) encountered →
         out = (Fuzzy.symbolCandidate query <$> firstPerFileAndName [] encountered)
         ∧ (∀ pre s post,
              encountered = pre ++ s :: post →
              (∀ x, x ∈ pre → fileAndName x ≠ fileAndName s) →
              Fuzzy.symbolCandidate query s ∈ out)
         ∧ (∀ pre s1 mid s2 post,
              encountered = pre ++ s1 :: mid ++ s2 :: post →
              fileAndName s1 = fileAndName s2 →
              (∀ x, x ∈ pre → fileAndName x ≠ fileAndName s1) →
              Fuzzy.symbolCandidate query s1 ∈ out
              ∧ (range s2 ≠ range s1 → Fuzzy.symbolCandidate query s2 ∉ out))).
Proof.
  intros Hres encountered.
  destruct (symbolRecall_by_key searchSymbol res query scope limit Hres)
    as (out & Hrun & Hout & Hnd & Hkey).
  fold encountered in Hout, Hkey.
  exists out. do 4 (split; [assumption|]).
  intros Hfiles.
  assert (∀ pre s post, encountered = pre ++ s :: post →
            (∀ x, x ∈ pre → fileAndName x ≠ fileAndName s) →
            ∀ x, x ∈ pre → Fuzzy.symbolKey x ≠ Fuzzy.symbolKey s) as Hne.
  { intros pre s post Henc Hpre x Hx Heq. apply (Hpre x Hx).
    rewrite Forall_forall in Hfiles.
    apply symbolKey_inj; [| |done]; apply Hfiles; rewrite Henc, elem_of_app.
    - by left.
    - right. by left. }
  split; [|split].
  - rewrite Hout. f_equal.
    by apply (keepFirst_firstPerFileAndName ∅ [] encountered).
  - intros pre s post Henc Hpre. rewrite Hout. apply list_elem_of_fmap_2.
    rewrite Henc. apply keepFirst_first; [set_solver|].
    by apply (Hne pre s post).
  - intros pre s1 mid s2 post Henc Hpair Hpre.
    unfold fileAndName in Hpair. injection Hpair as Hf Hn.
    apply (Hkey pre s1 mid s2 post); [done|done|done|].
    by apply (Hne pre s1 (mid ++ s2 :: post)).
Qed.

Lemma symbolRecall_dedups_by_file_and_name_witness :
  let found := [renderAt 3 "[3:5]"; renderAt 9 "[9:11]"; renderElsewhere] in
  let searchSymbol : SearchSymbolInput → Settled (list SymbolInfo) :=
    λ input, Fulfilled (if bool_decide (ss_query input = "render") then found else []) in
  ∃ out,
    Fuzzy.symbolRecall searchSymbol "render" None None = Fulfilled out
    ∧ out = (Fuzzy.symbolCandidate "render" <$> [renderAt 3 "[3:5]"; renderElsewhere])
    ∧ Fuzzy.symbolCandidate "render" (renderAt 3 "[3:5]") ∈ out
    ∧ Fuzzy.symbolCandidate "render" (renderAt 9 "[9:11]") ∉ out.
Proof.
  intros found searchSymbol.
  destruct (symbolRecall_dedups_by_file_and_name searchSymbol
              (λ v, if bool_decide (v = "render") then found else [])
              "render" None None (λ _, eq_refl))
    as (out & Hrun & _ & _ & _ & Hpairs).
  destruct Hpairs as (Hout & _ & Hfirst).
  { repeat constructor; discriminate. }
  exists out. split; [exact Hrun|]. split; [exact Hout|].
  destruct (Hfirst [] (renderAt 3 "[3:5]") [] (renderAt 9 "[9:11]") [renderElsewhere])
    as [Hin Hnot].
  - reflexivity.
  - reflexivity.
  - by intros s Hs%elem_of_nil.
  - split; [exact Hin|]. apply Hnot. discriminate.
Defined.

(** ** Fuzzy search: merge, sort, truncate *)

Lemma elem_of_uniq t l : t ∈ Fuzzy.uniq l ↔ t ∈ l.
Proof.
  induction l as [|x l IH]; simpl; [done|].
  rewrite !elem_of_cons, <- IH, !list_elem_of_In, filter_In, <- !list_elem_of_In.
  rewrite negb_true_iff, bool_decide_eq_false.
  destruct (decide (t = x)); naive_solver.
Qed.

Lemma NoDup_uniq l : NoDup (Fuzzy.uniq l).
Proof.
  induction l as [|x l IH]; simpl; [constructor|]. constructor.
  - rewrite list_elem_of_In, filter_In, negb_true_iff, bool_decide_eq_false.
    by intros [_ ?].
  - apply NoDup_ListNoDup, List.NoDup_filter. by apply NoDup_ListNoDup.
Qed.

Section JsMap.

Context {V : Type}.
Implicit Types (m : list (string * V)) (k : string) (v : V).

Lemma mapGet_None k m : Fuzzy.mapGet k m = None ↔ k ∉ m.*1.
Proof.
induction m as [|[k' v'] m IH]; simpl.
- split; [intros _; by intros H%elem_of_nil|done].
- destruct (decide (k = k')) as [->|Hne].
  + split; [done|]. intros H. exfalso. apply H. by left.
  + rewrite IH, not_elem_of_cons. naive_solver.
Qed.

Lemma mapGet_Some k v m : Fuzzy.mapGet k m = Some v → (k, v) ∈ m.
Proof.
induction m as [|[k' v'] m IH]; simpl; [done|].
destruct (decide (k = k')) as [->|Hne].
- intros [= ->]. by left.
- intros H. right. by apply IH.
Qed.

Lemma mapSet_absent k v m : Fuzzy.mapGet k m = None → Fuzzy.mapSet k v m = m ++ [(k, v)].
Proof.
induction m as [|[k' v'] m IH]; simpl; [done|].
destruct (decide (k = k')); [done|]. intros H. by rewrite IH.
Qed.

Lemma mapSet_keys_present k v v0 m :
Fuzzy.mapGet k m = Some v0 → (Fuzzy.mapSet k v m).*1 = m.*1.
Proof.
induction m as [|[k' v'] m IH]; [done|]. cbn [Fuzzy.mapGet Fuzzy.mapSet].
destruct (decide (k = k')) as [->|Hne]; [done|].
intros H. by rewrite !fmap_cons, IH.
Qed.

Lemma elem_of_mapSet_present k v v0 m k' v' :
NoDup m.*1 → Fuzzy.mapGet k m = Some v0 →
(k', v') ∈ Fuzzy.mapSet k v m
↔ (k' = k ∧ v' = v) ∨ (k' ≠ k ∧ (k', v') ∈ m).
Proof.
induction m as [|[k1 v1] m IH]; simpl; [done|].
intros [Hnin Hnd]%NoDup_cons.
destruct (decide (k = k1)) as [->|Hne].
- intros _. rewrite !elem_of_cons. split.
  + intros [[= -> ->]|Hin]; [by left|]. right. split; [|by right].
    intros ->. apply Hnin. by apply (list_elem_of_fmap_2 fst _ (k1, v')).
  + intros [[-> ->]|[Hk [[= -> ->]|Hin]]]; [by left|done|by right].
- intros Hget. rewrite !elem_of_cons, (IH Hnd Hget). split.
  + intros [[= -> ->]|[[-> ->]|[Hk Hin]]].
    * right. split; [done|by left].
    * by left.
    * right. split; [done|by right].
  + intros [[-> ->]|[Hk [[= -> ->]|Hin]]].
    * right. by left.
    * by left.
    * right. right. done.
Qed.

End JsMap.

Lemma mergedFor_snoc_other processed r v :
  Fuzzy.dedupKey r ≠ Fuzzy.dedupKey v →
  mergedFor processed v → mergedFor (processed ++ [r]) v.
Proof.
  intros Hne (Hex & Hmax & Hreasons). split; [|split].
  - destruct Hex as (r0 & Hin & Hk & Hs). exists r0. rewrite elem_of_app. eauto.
  - intros r' [Hin|Hin%list_elem_of_singleton]%elem_of_app Hk; [by apply Hmax|].
    by subst r'.
  - intros t. rewrite Hreasons. split.
    + intros (r0 & Hin & Hk & Ht). exists r0. rewrite elem_of_app. eauto.
    + intros (r0 & [Hin|Hin%list_elem_of_singleton]%elem_of_app & Hk & Ht);
        [by eauto|]. by subst r0.
Qed.

Lemma mergedFor_new processed r :
  (∀ r', r' ∈ processed → Fuzzy.dedupKey r' ≠ Fuzzy.dedupKey r) →
  mergedFor (processed ++ [r]) r.
Proof.
  intros Hfresh. split; [|split].
  - exists r. rewrite elem_of_app, list_elem_of_singleton. eauto.
  - intros r' [Hin|Hin%list_elem_of_singleton]%elem_of_app Hk.
    + by apply Hfresh in Hin.
    + subst r'. lia.
  - intros t. split.
    + intros Ht. exists r. rewrite elem_of_app, list_elem_of_singleton. eauto.
    + intros (r0 & [Hin|Hin%list_elem_of_singleton]%elem_of_app & Hk & Ht).
      * by apply Hfresh in Hin.
      * by subst r0.
Qed.

Lemma mergedFor_win processed r existing :
  Fuzzy.dedupKey existing = Fuzzy.dedupKey r →
  mergedFor processed existing →
  score existing < score r →
  mergedFor (processed ++ [r])
    (Fuzzy.withReasons r (Fuzzy.uniq (reasons r ++ reasons existing))).
Proof.
  intros Hkey (Hex & Hmax & Hreasons) Hlt. split; [|split].
  - exists r. rewrite elem_of_app, list_elem_of_singleton. eauto.
  - intros r' [Hin|Hin%list_elem_of_singleton]%elem_of_app Hk; simpl in *.
    + assert (score r' ≤ score existing); [|lia].
      apply Hmax; [done|]. by rewrite Hkey.
    + subst r'. lia.
  - intros t. simpl. rewrite elem_of_uniq, elem_of_app, Hreasons.
    change (Fuzzy.dedupKey (Fuzzy.withReasons r
              (Fuzzy.uniq (reasons r ++ reasons existing))))
      with (Fuzzy.dedupKey r).
    rewrite Hkey. split.
    + intros [Ht|(r0 & Hin & Hk & Ht)].
      * exists r. rewrite elem_of_app, list_elem_of_singleton. eauto.
      * exists r0. rewrite elem_of_app. eauto.
    + intros (r0 & [Hin|Hin%list_elem_of_singleton]%elem_of_app & Hk & Ht).
      * right. eauto.
      * subst r0. by left.
Qed.

Lemma mergedFor_keep processed r existing :
  Fuzzy.dedupKey existing = Fuzzy.dedupKey r →
  mergedFor processed existing →
  score r ≤ score existing →
  mergedFor (processed ++ [r])
    (Fuzzy.withReasons existing (Fuzzy.uniq (reasons existing ++ reasons r))).
Proof.
  intros Hkey (Hex & Hmax & Hreasons) Hle. split; [|split].
  - destruct Hex as (r0 & Hin & Hk & Hs). exists r0. rewrite elem_of_app. eauto.
  - intros r' [Hin|Hin%list_elem_of_singleton]%elem_of_app Hk; simpl in *.
    + by apply Hmax.
    + by subst r'.
  - intros t. simpl. rewrite elem_of_uniq, elem_of_app, Hreasons.
    change (Fuzzy.dedupKey (Fuzzy.withReasons existing
              (Fuzzy.uniq (reasons existing ++ reasons r))))
      with (Fuzzy.dedupKey existing).
    split.
    + intros [(r0 & Hin & Hk & Ht)|Ht].
      * exists r0. rewrite elem_of_app. eauto.
      * exists r. rewrite elem_of_app, list_elem_of_singleton. eauto.
    + intros (r0 & [Hin|Hin%list_elem_of_singleton]%elem_of_app & Hk & Ht).
      * left. eauto.
      * subst r0. by right.
Qed.

Lemma mergeStep_inv processed m r :
  mergeInv processed m → mergeInv (processed ++ [r]) (Fuzzy.mergeStep m r).
Proof.
  intros (Hnd & Hcover & Hentries). unfold Fuzzy.mergeStep.
  destruct (Fuzzy.mapGet (Fuzzy.dedupKey r) m) as [existing|] eqn:Hget.
  - pose proof (mapGet_Some _ _ _ Hget) as Hin.
    destruct (Hentries _ _ Hin) as [Hkey Hmerged].
    assert (∀ v, mergedFor (processed ++ [r]) v → Fuzzy.dedupKey v = Fuzzy.dedupKey r →
                 mergeInv (processed ++ [r]) (Fuzzy.mapSet (Fuzzy.dedupKey r) v m))
      as Hset.
    { intros v Hv Hvk. split; [|split].
      - by rewrite (mapSet_keys_present _ _ _ _ Hget).
      - rewrite (mapSet_keys_present _ _ _ _ Hget).
        intros r' [Hr'|Hr'%list_elem_of_singleton]%elem_of_app; [by apply Hcover|].
        subst r'. by apply (list_elem_of_fmap_2 fst _ (Fuzzy.dedupKey r, existing)).
      - intros k' v'. rewrite (elem_of_mapSet_present _ _ _ _ _ _ Hnd Hget).
        intros [[-> ->]|[Hk' Hin']]; [done|].
        destruct (Hentries _ _ Hin') as [Hk'' Hm']. split; [done|].
        apply mergedFor_snoc_other; [congruence|done]. }
    destruct (score existing <? score r) eqn:Hcmp.
    + apply Hset; [|done]. apply mergedFor_win; [done|done|lia].
    + apply Hset; [|done]. apply mergedFor_keep; [done|done|lia].
  - rewrite (mapSet_absent _ _ _ Hget). apply mapGet_None in Hget.
    split; [|split].
    + rewrite fmap_app. apply NoDup_app. split; [done|]. split.
      * intros k Hk [->|[]%elem_of_nil]%elem_of_cons. done.
      * apply NoDup_singleton.
    + intros r' [Hr'|Hr'%list_elem_of_singleton]%elem_of_app;
        rewrite fmap_app, elem_of_app.
      * left. by apply Hcover.
      * subst r'. right. by left.
    + intros k v [Hin|Hin%list_elem_of_singleton]%elem_of_app.
      * destruct (Hentries _ _ Hin) as [Hk Hm]. split; [done|].
        apply mergedFor_snoc_other; [|done]. rewrite Hk. intros Heq.
        apply Hget. rewrite Heq. by apply (list_elem_of_fmap_2 fst _ (k, v)).
      * injection Hin as -> ->. split; [done|]. apply mergedFor_new.
        intros r' Hr' Heq. apply Hget. rewrite <- Heq. by apply Hcover.
Qed.

Lemma foldl_mergeStep_inv processed m rest :
  mergeInv processed m →
  mergeInv (processed ++ rest) (foldl Fuzzy.mergeStep m rest).
Proof.
  revert processed m. induction rest as [|r rest IH]; intros processed m Hinv; simpl.
  - by rewrite app_nil_r.
  - rewrite (cons_middle r processed rest), app_assoc.
    apply IH. by apply mergeStep_inv.
Qed.

Lemma mergeMap_inv results : mergeInv results (Fuzzy.mergeMap results).
Proof.
  apply (foldl_mergeStep_inv [] [] results).
  split; [constructor|]. split; [by intros r Hr%elem_of_nil|].
  by intros k v H%elem_of_nil.
Qed.

Lemma foldl_mergeStep_fresh (acc : list (string * FuzzyResult)) (l : list FuzzyResult) :
  NoDup (acc.*1 ++ (Fuzzy.dedupKey <$> l)) →
  foldl Fuzzy.mergeStep acc l = acc ++ ((λ r, (Fuzzy.dedupKey r, r)) <$> l).
Proof.
  revert acc. induction l as [|r l IH]; intros acc Hnd; simpl.
  { by rewrite app_nil_r. }
  assert (Fuzzy.mapGet (Fuzzy.dedupKey r) acc = None) as Hget.
  { apply mapGet_None. apply NoDup_app in Hnd as (_ & Hdisj & _).
    intros Hin. apply (Hdisj _ Hin). by left. }
  unfold Fuzzy.mergeStep at 2. rewrite Hget, mapSet_absent by done.
  rewrite IH.
  - by rewrite <- app_assoc.
  - rewrite fmap_app, <- app_assoc. done.
Qed.

Lemma mergeMap_distinct_keys (l : list FuzzyResult) :
  NoDup (Fuzzy.dedupKey <$> l) → (Fuzzy.mergeMap l).*2 = l.
Proof.
  intros Hnd. unfold Fuzzy.mergeMap. rewrite foldl_mergeStep_fresh by done.
  simpl. rewrite <- list_fmap_compose. apply list_fmap_id.
Qed.

Lemma insertDesc_perm x l : Fuzzy.insertDesc x l ≡ₚ x :: l.
Proof.
  induction l as [|y l IH]; simpl; [done|].
  destruct (score x <? score y); [|done].
  rewrite IH. apply Permutation_swap.
Qed.

Lemma sortDesc_perm l : Fuzzy.sortDesc l ≡ₚ l.
Proof.
  induction l as [|x l IH]; simpl; [done|].
  by rewrite insertDesc_perm, IH.
Qed.

Lemma insertDesc_sorted x l :
  Sorted scoreDesc l → Sorted scoreDesc (Fuzzy.insertDesc x l).
Proof.
  induction 1 as [|y l Hsorted IH Hhd]; simpl.
  - by repeat constructor.
  - destruct (score x <? score y) eqn:Hcmp.
    + constructor; [exact IH|].
      destruct Hhd as [|z l' Hz]; simpl.
      * constructor. unfold scoreDesc. lia.
      * destruct (score x <? score z); constructor; [done|].
        unfold scoreDesc. lia.
    + constructor; [by constructor|]. constructor. unfold scoreDesc. lia.
Qed.

Lemma sortDesc_sorted l : Sorted scoreDesc (Fuzzy.sortDesc l).
Proof.
  induction l as [|x l IH]; simpl; [constructor|]. by apply insertDesc_sorted.
Qed.

Lemma StronglySorted_take {A} (R : relation A) n l :
  StronglySorted R l → StronglySorted R (take n l).
Proof.
  intros H. rewrite <- (take_drop n l) in H.
  by apply StronglySorted_app_1_l in H.
Qed.

Lemma slice0_nonneg {A} (l : list A) limit :
  0 ≤ limit → Fuzzy.slice0 l limit = take (Z.to_nat limit) l.
Proof. intros H. unfold Fuzzy.slice0. destruct (limit <? 0) eqn:E; [lia|done]. Qed.

Lemma NoDup_fmap_take {A B} (f : A → B) n l :
  NoDup (f <$> l) → NoDup (f <$> take n l).
Proof.
  intros H. rewrite <- (take_drop n l), fmap_app in H.
  by apply NoDup_app in H as [H _].
Qed.

Lemma dedupKey_location (r1 r2 : FuzzyResult) :
  rangeShaped (fz_range r1) → rangeShaped (fz_range r2) →
  Fuzzy.dedupKey r1 = Fuzzy.dedupKey r2 → locationOf r1 = locationOf r2.
Proof.
  intros (a1 & b1 & E1 & Ha1 & Hb1) (a2 & b2 & E2 & Ha2 & Hb2).
  unfold Fuzzy.dedupKey, locationOf. rewrite E1, E2.
  change (fz_file r1 +:+ ":" +:+ "[" +:+ a1 +:+ ":" +:+ b1 +:+ "]")
    with (fz_file r1 +:+ String ":" (String "[" a1 +:+ String ":" (b1 +:+ "]"))).
  change (fz_file r2 +:+ ":" +:+ "[" +:+ a2 +:+ ":" +:+ b2 +:+ "]")
    with (fz_file r2 +:+ String ":" (String "[" a2 +:+ String ":" (b2 +:+ "]"))).
  change ("[" +:+ a1 +:+ ":" +:+ b1 +:+ "]")
    with (String "[" a1 +:+ String ":" (b1 +:+ "]")).
  change ("[" +:+ a2 +:+ ":" +:+ b2 +:+ "]")
    with (String "[" a2 +:+ String ":" (b2 +:+ "]")).
  intros Hkey.
  assert (noChar ":" (b1 +:+ "]")) as Hn1 by (apply noChar_app; by repeat split).
  assert (noChar ":" (b2 +:+ "]")) as Hn2 by (apply noChar_app; by repeat split).
  change (fz_file r1 +:+ String ":" (String "[" a1 +:+ String ":" (b1 +:+ "]")))
    with (fz_file r1 +:+ (String ":" (String "[" a1) +:+ String ":" (b1 +:+ "]")))
    in Hkey.
  change (fz_file r2 +:+ String ":" (String "[" a2 +:+ String ":" (b2 +:+ "]")))
    with (fz_file r2 +:+ (String ":" (String "[" a2) +:+ String ":" (b2 +:+ "]")))
    in Hkey.
  rewrite <- !append_assoc in Hkey.
  apply app_sep_inj in Hkey as [Hpre Hb]; [|done|done].
  apply app_sep_inj in Hpre as [Hf Ha]; [|by split|by split].
  by rewrite Hf, Ha, Hb.
Qed.

Lemma elem_of_mapSet {V} (k : string) (v : V) m (k' : string) (v' : V) :
  (k', v') ∈ Fuzzy.mapSet k v m → (k', v') = (k, v) ∨ (k', v') ∈ m.
Proof.
  induction m as [|[k1 v1] m IH]; simpl.
  - intros ?%list_elem_of_singleton. by left.
  - destruct (decide (k = k1)) as [->|Hne].
    + intros [->|H]%elem_of_cons; [by left|]. right. by right.
    + intros [->|H]%elem_of_cons; [right; by left|].
      destruct (IH H) as [?|?]; [by left|]. right. by right.
Qed.

Lemma mergeStep_locations processed m r :
  (∀ k v, (k, v) ∈ m → ∃ r0, r0 ∈ processed ∧ locationOf v = locationOf r0) →
  ∀ k v, (k, v) ∈ Fuzzy.mergeStep m r →
         ∃ r0, r0 ∈ processed ++ [r] ∧ locationOf v = locationOf r0.
Proof.
  intros Hm k v. unfold Fuzzy.mergeStep.
  assert (∀ k v, (k, v) ∈ m →
            ∃ r0, r0 ∈ processed ++ [r] ∧ locationOf v = locationOf r0) as Hm'.
  { intros k0 v0 Hin. destruct (Hm _ _ Hin) as (r0 & Hr0 & E).
    exists r0. rewrite elem_of_app. eauto. }
  assert (r ∈ processed ++ [r]) as Hr.
  { rewrite elem_of_app, list_elem_of_singleton. by right. }
  destruct (Fuzzy.mapGet (Fuzzy.dedupKey r) m) as [existing|] eqn:Hget.
  - apply mapGet_Some in Hget. destruct (Hm' _ _ Hget) as (r0 & Hr0 & E).
    destruct (score existing <? score r).
    + intros [[= -> ->]|Hin]%elem_of_mapSet; [by exists r|by eapply Hm'].
    + intros [[= -> ->]|Hin]%elem_of_mapSet; [by exists r0|by eapply Hm'].
  - intros [[= -> ->]|Hin]%elem_of_mapSet; [by exists r|by eapply Hm'].
Qed.

Lemma foldl_mergeStep_locations processed m rest :
  (∀ k v, (k, v) ∈ m → ∃ r0, r0 ∈ processed ∧ locationOf v = locationOf r0) →
  ∀ k v, (k, v) ∈ foldl Fuzzy.mergeStep m rest →
         ∃ r0, r0 ∈ processed ++ rest ∧ locationOf v = locationOf r0.
Proof.
  revert processed m. induction rest as [|r rest IH]; intros processed m Hm; simpl.
  - by rewrite app_nil_r.
  - rewrite (cons_middle r processed rest), app_assoc.
    apply IH. by apply mergeStep_locations.
Qed.

Lemma mergeMap_locations results v :
  v ∈ (Fuzzy.mergeMap results).*2 → ∃ r, r ∈ results ∧ locationOf v = locationOf r.
Proof.
  intros ([k v'] & -> & Hin)%list_elem_of_fmap.
  apply (foldl_mergeStep_locations [] [] results) with (k := k); [|done].
  by intros k0 v0 H%elem_of_nil.
Qed.

Lemma mergedFor_mergedAt results v :
  Forall (λ r, rangeShaped (fz_range r)) results →
  rangeShaped (fz_range v) →
  mergedFor results v → mergedAt results v.
Proof.
  intros Hshape Hv (Hex & Hmax & Hreasons).
  rewrite Forall_forall in Hshape.
  assert (∀ r, r ∈ results → locationOf r = locationOf v
                              ↔ Fuzzy.dedupKey r = Fuzzy.dedupKey v) as Hiff.
  { intros r Hr. split.
    - unfold locationOf, Fuzzy.dedupKey. by intros [= -> ->].
    - apply dedupKey_location; [by apply Hshape|done]. }
  split; [|split].
  - destruct Hex as (r & Hr & Hk & Hs). exists r. by rewrite Hiff.
  - intros r Hr Hl. apply Hmax; [done|]. by apply Hiff.
  - intros t. rewrite Hreasons. split; intros (r & Hr & Hk & Ht); exists r;
      (split; [done|]); (split; [|done]); by apply Hiff.
Qed.

Lemma NoDup_locations (l : list FuzzyResult) :
  NoDup (Fuzzy.dedupKey <$> l) → NoDup (locationOf <$> l).
Proof.
  intros Hnd. apply (NoDup_fmap_1 (λ p : string * string, p.1 +:+ ":" +:+ p.2)).
  by rewrite <- list_fmap_compose.
Qed.

Lemma NoDup_keys_of_locations (l : list FuzzyResult) :
  Forall (λ r, rangeShaped (fz_range r)) l →
  NoDup (locationOf <$> l) → NoDup (Fuzzy.dedupKey <$> l).
Proof.
  intros Hshape. rewrite Forall_forall in Hshape.
  induction l as [|r l IH]; [constructor|].
  rewrite !fmap_cons, !NoDup_cons.
  intros [Hnin Hnd]. split.
  - intros (r' & Hk & Hr')%list_elem_of_fmap. apply Hnin.
    apply list_elem_of_fmap. exists r'. split; [|done].
    apply dedupKey_location; [apply Hshape; by left|apply Hshape; by right|done].
  - apply IH; [|done]. intros x Hx. apply Hshape. by right.
Qed.

(** The merge, in terms of the key string. *)
Lemma mergeAndSort_by_key
    (results : list FuzzyResult) (limit : Z) :
  0 ≤ limit →
  let merged := (Fuzzy.mergeMap results).*2 in
  let out := Fuzzy.mergeAndSort results limit in
  NoDup (Fuzzy.dedupKey <$> merged)
  ∧ (∀ r, r ∈ results →
       ∃ v, v ∈ merged ∧ Fuzzy.dedupKey v = Fuzzy.dedupKey r ∧ mergedFor results v)
  ∧ (∀ v, v ∈ merged → mergedFor results v)
  ∧ out = take (Z.to_nat limit) (Fuzzy.sortDesc merged)
  ∧ Fuzzy.sortDesc merged ≡ₚ merged
  ∧ StronglySorted scoreDesc (Fuzzy.sortDesc merged)
  ∧ StronglySorted scoreDesc out
  ∧ (length out ≤ Z.to_nat limit)%nat
  ∧ NoDup (Fuzzy.dedupKey <$> out)
  ∧ (∀ r1 r2,
       results = [r1; r2] → Fuzzy.dedupKey r1 = Fuzzy.dedupKey r2 → 1 ≤ limit →
       ∃ v, out = [v]
            ∧ score v = Z.max (score r1) (score r2)
            ∧ (∀ t, t ∈ reasons v ↔ t ∈ reasons r1 ∨ t ∈ reasons r2)).
Proof.
  intros Hlimit merged out.
  destruct (mergeMap_inv results) as (Hnd & Hcover & Hentries).
  assert (Fuzzy.dedupKey <$> merged = (Fuzzy.mergeMap results).*1) as Hkeys.
  { subst merged. rewrite <- list_fmap_compose. apply list_fmap_ext.
    intros i [k v] Hi. simpl. apply list_elem_of_lookup_2 in Hi.
    by destruct (Hentries _ _ Hi). }
  assert (out = take (Z.to_nat limit) (Fuzzy.sortDesc merged)) as Hout.
  { subst out. unfold Fuzzy.mergeAndSort. by rewrite slice0_nonneg. }
  assert (StronglySorted scoreDesc (Fuzzy.sortDesc merged)) as Hsorted.
  { apply Sorted_StronglySorted; [apply _|apply sortDesc_sorted]. }
  split; [by rewrite Hkeys|]. split; [|split; [|split; [done|split; [|split;
    [done|split; [|split; [|split]]]]]]].
  - intros r Hr. apply Hcover in Hr.
    apply list_elem_of_fmap in Hr as ([k v] & Hk & Hin). simpl in Hk. subst k.
    destruct (Hentries _ _ Hin) as [Hkv Hm]. exists v. split; [|done].
    by apply (list_elem_of_fmap_2 snd _ (Fuzzy.dedupKey r, v)).
  - intros v ([k v'] & -> & Hin)%list_elem_of_fmap. simpl.
    by destruct (Hentries _ _ Hin).
  - apply sortDesc_perm.
  - rewrite Hout. by apply StronglySorted_take.
  - rewrite Hout, length_take. lia.
  - rewrite Hout. apply NoDup_fmap_take.
    rewrite (sortDesc_perm merged). by rewrite Hkeys.
  - intros r1 r2 -> Hkey H1. subst out merged.
    unfold Fuzzy.mergeAndSort, Fuzzy.mergeMap. rewrite slice0_nonneg by done.
    cbn [foldl]. unfold Fuzzy.mergeStep at 2. cbn [Fuzzy.mapGet Fuzzy.mapSet].
    unfold Fuzzy.mergeStep. rewrite <- Hkey. cbn [Fuzzy.mapGet].
    rewrite decide_True by done.
    assert (Z.to_nat limit = S (Z.to_nat limit - 1)) as -> by lia.
    destruct (score r1 <? score r2) eqn:Hcmp; cbn [Fuzzy.mapSet];
      rewrite decide_True by done; simpl; rewrite take_nil;
      eexists; (split; [reflexivity|]); simpl;
      (split; [lia|]); intros t; rewrite elem_of_uniq, elem_of_app; tauto.
Qed.

(** C3: [mergeAndSort] keeps one candidate per dedup key
    [`${file}:${range}`], that is, per location (file, range): the keys and
    the locations of the merged list are distinct, every input key is
    present, every merged candidate stands at the location of an input,
    and the candidate kept for a key has the maximum score among the inputs
    with that key and, as its reasons, exactly the union of their reason
    tags. The output is the merged list sorted by descending score and cut
    to the first [limit] entries. In particular two candidates with the
    same key merge into one whose score is the larger of the two and whose
    reasons are those of both. When the ranges of the inputs have the
    shape that [formatRange] builds, the key determines the location: every
    input location is present with the maximum score and the union of the
    reasons of the inputs at that very file and range, and inputs at
    pairwise different locations are all kept, unchanged and in order. *)
Theorem mergeAndSort_keeps_max_and_unions
    (results : list FuzzyResult) (limit : Z) :
  0 ≤ limit →
  let merged := (Fuzzy.mergeMap results).*2 in
  let out := Fuzzy.mergeAndSort results limit in
  NoDup (Fuzzy.dedupKey <$> merged)
  ∧ (∀ r, r ∈ results →
       ∃ v, v ∈ merged ∧ Fuzzy.dedupKey v = Fuzzy.dedupKey r ∧ mergedFor results v)
  ∧ (∀ v, v ∈ merged → mergedFor results v)
  ∧ out = take (Z.to_nat limit) (Fuzzy.sortDesc merged)
  ∧ Fuzzy.sortDesc merged ≡ₚ merged
  ∧ StronglySorted scoreDesc (Fuzzy.sortDesc merged)
  ∧ StronglySorted scoreDesc out
  ∧ (length out ≤ Z.to_nat limit)%nat
  ∧ NoDup (Fuzzy.dedupKey <$> out)
  ∧ (∀ r1 r2,
       results = [r1; r2] → Fuzzy.dedupKey r1 = Fuzzy.dedupKey r2 → 1 ≤ limit →
       ∃ v, out = [v]
            ∧ score v = Z.max (score r1) (score r2)
            ∧ (∀ t, t ∈ reasons v ↔ t ∈ reasons r1 ∨ t ∈ reasons r2))
  ∧ NoDup (locationOf <$> merged)
  ∧ NoDup (locationOf <$> out)
  ∧ (∀ v, v ∈ merged → ∃ r, r ∈ results ∧ locationOf v = locationOf r)
  ∧ (∀ r1 r2,
       results = [r1; r2] → locationOf r1 = locationOf r2 → 1 ≤ limit →
       ∃ v, out = [v]
            ∧ locationOf v = locationOf r1
            ∧ score v = Z.max (score r1) (score r2)
            ∧ (∀ t, t ∈ reasons v ↔ t ∈ reasons r1 ∨ t ∈ reasons r2))
  ∧ (Forall (λ r, rangeShaped (fz_range r)) results →
       (∀ r, r ∈ results →
          ∃ v, v ∈ merged ∧ locationOf v = locationOf r ∧ mergedAt results v)
       ∧ (∀ v, v ∈ merged → mergedAt results v)
       ∧ (NoDup (locationOf <$> results) → merged = results)).
Proof.
  intros Hlimit merged out.
  destruct (mergeAndSort_by_key results limit Hlimit)
    as (H1 & H2 & H3 & H4 & H5 & H6 & H7 & H8 & H9 & H10).
  fold merged in H1, H2, H3, H4, H5, H6. fold out in H4, H7, H8, H9, H10.
  do 10 (split; [assumption|]).
  split; [by apply NoDup_locations|]. split; [by apply NoDup_locations|].
  split; [intros v Hv; by apply mergeMap_locations|]. split.
  - intros r1 r2 Hres Hloc Hl.
    assert (Fuzzy.dedupKey r1 = Fuzzy.dedupKey r2) as Hkey.
    { unfold Fuzzy.dedupKey. unfold locationOf in Hloc. by injection Hloc as -> ->. }
    destruct (H10 r1 r2 Hres Hkey Hl) as (v & Hout & Hs & Hr).
    exists v. split; [done|]. split; [|done].
    assert (v ∈ merged) as Hv.
    { rewrite <- H5. apply (subseteq_take (Z.to_nat limit)). rewrite <- H4, Hout.
      by left. }
    destruct (mergeMap_locations _ _ Hv) as (r0 & Hr0 & E). rewrite E.
    rewrite Hres in Hr0. apply elem_of_cons in Hr0 as [->|Hr0]; [done|].
    apply list_elem_of_singleton in Hr0 as ->. done.
  - intros Hshape.
    assert (∀ v, v ∈ merged → rangeShaped (fz_range v)) as Hmshape.
    { intros v Hv. destruct (mergeMap_locations _ _ Hv) as (r0 & Hr0 & E).
      rewrite Forall_forall in Hshape. unfold locationOf in E.
      injection E as _ ->. by apply Hshape. }
    split; [|split].
    + intros r Hr. destruct (H2 r Hr) as (v & Hv & Hk & Hm).
      exists v. split; [done|]. split.
      * apply dedupKey_location; [by apply Hmshape| |done].
        rewrite Forall_forall in Hshape. by apply Hshape.
      * apply mergedFor_mergedAt; [done|by apply Hmshape|done].
    + intros v Hv. apply mergedFor_mergedAt; [done|by apply Hmshape|by apply H3].
    + intros Hnd. apply mergeMap_distinct_keys.
      by apply NoDup_keys_of_locations.
Qed.

(** The spec's example, and two candidates of one file at different
    ranges, which both stay. *)
Lemma mergeAndSort_keeps_max_and_unions_witness :
  let results := [nominated 70 "definition_match"; nominated 90 "alias_hit"] in
  let apart := [textSample 40; textSample 3] in
  (∃ v,
     Fuzzy.mergeAndSort results 20 = [v]
     ∧ locationOf v = ("cards.ts", "[3:9]")
     ∧ score v = Z.max 70 90
     ∧ (∀ t, t ∈ reasons v ↔ t ∈ ["definition_match"] ∨ t ∈ ["alias_hit"]))
  ∧ (Fuzzy.mergeMap apart).*2 = apart.
Proof.
  intros results apart. split.
  - refine (proj1 (proj2 (proj2 (proj2 (proj2 (proj2 (proj2 (proj2 (proj2 (proj2
      (proj2 (proj2 (proj2 (proj2
        (mergeAndSort_keeps_max_and_unions results 20 _))))))))))))))
      _ _ eq_refl eq_refl _); lia.
  - pose proof (mergeAndSort_keeps_max_and_unions apart 20) as H.
    destruct H as (_ & _ & _ & _ & _ & _ & _ & _ & _ & _ & _ & _ & _ & _ & H);
      [lia|].
    apply H.
    + repeat constructor; eexists _, _; (split; [reflexivity|]);
        repeat split; discriminate.
    + apply (bool_decide_unpack _). vm_compute. exact I.
Defined.

Lemma mergeAndSort_example :
  Fuzzy.mergeAndSort [nominated 70 "definition_match"; nominated 90 "alias_hit"] 20
  = [{| fz_file := "cards.ts"; fz_range := "[3:9]"; fz_symbol := Some "flipCard";
        fz_kind := Some k_function; score := 90;
        reasons := ["alias_hit"; "definition_match"] |}].
Proof. vm_compute. reflexivity. Qed.

(* ===================================================================== *)
(** * Further properties of the code                                      *)
(* ===================================================================== *)

(** ** Text primitives *)

Lemma split_nonempty s c : JsText.split s c ≠ [].
Proof.
  destruct s as [|a s]; simpl; [done|].
  destruct (decide (a = c)); [done|]. by destruct (JsText.split s c).
Qed.

Lemma join_split s c : JsText.join (JsText.split s c) (String c EmptyString) = s.
Proof.
  induction s as [|a s IH]; [done|]. cbn [JsText.split].
  pose proof (split_nonempty s c) as Hne.
  destruct (decide (a = c)) as [->|Hac].
  - cbn [JsText.join]. destruct (JsText.split s c) as [|w ws] eqn:E; [done|].
    by rewrite IH.
  - destruct (JsText.split s c) as [|w ws] eqn:E; [done|].
    cbn [JsText.join] in *. destruct ws as [|w' ws]; by rewrite <- IH.
Qed.

Lemma split_noChar s c : Forall (noChar c) (JsText.split s c).
Proof.
  induction s as [|a s IH]; cbn [JsText.split]; [by repeat constructor|].
  destruct (decide (a = c)) as [->|Hac]; [by constructor|].
  destruct (JsText.split s c) as [|w ws]; [by repeat constructor|].
  apply Forall_cons in IH as [Hw Hws]. by constructor.
Qed.

Lemma split_noChar_id s c : noChar c s → JsText.split s c = [s].
Proof.
  induction s as [|a s IH]; [done|]. intros [Hac Hs]. cbn [JsText.split].
  rewrite decide_False by done. by rewrite IH.
Qed.

Lemma split_app_sep w s c :
  noChar c w → JsText.split (w +:+ String c s) c = w :: JsText.split s c.
Proof.
  induction w as [|a w IH]; intros Hw.
  - change ("" +:+ String c s) with (String c s). cbn [JsText.split].
    by rewrite decide_True.
  - destruct Hw as [Hac Hw].
    change (String a w +:+ String c s) with (String a (w +:+ String c s)).
    cbn [JsText.split]. rewrite decide_False by done. by rewrite IH.
Qed.

Lemma split_join l c :
  l ≠ [] → Forall (noChar c) l →
  JsText.split (JsText.join l (String c EmptyString)) c = l.
Proof.
  induction l as [|w ws IH]; [done|]. intros _ [Hw Hws]%Forall_cons.
  cbn [JsText.join]. destruct ws as [|w' ws]; [by apply split_noChar_id|].
  change (w +:+ String c "" +:+ JsText.join (w' :: ws) (String c ""))
    with (w +:+ String c (JsText.join (w' :: ws) (String c ""))).
  rewrite split_app_sep by done. by rewrite IH.
Qed.

(** ** Line ranges *)

Lemma pretty_N_char_digit d :
  (d < 10)%N →
  JsText.is_digit (pretty_N_char d) = true
  ∧ Z.of_nat (nat_of_ascii (pretty_N_char d)) - 48 = Z.of_N d.
Proof.
  intros Hd.
  assert (d = 0 ∨ d = 1 ∨ d = 2 ∨ d = 3 ∨ d = 4 ∨ d = 5 ∨ d = 6 ∨ d = 7
          ∨ d = 8 ∨ d = 9)%N as Hcases by lia.
  repeat (destruct Hcases as [->|Hcases]; [by vm_compute|]). by subst.
Qed.

Lemma takeDigits_app d rest :
  allDigits d →
  (∀ a rest', rest = String a rest' → JsText.is_digit a = false) →
  FileReader.takeDigits (d +:+ rest) = (d, rest).
Proof.
  intros Hd Hrest. induction d as [|a d IH].
  - change ("" +:+ rest) with rest. destruct rest as [|a rest']; [done|].
    simpl. by rewrite (Hrest a rest').
  - destruct Hd as [Ha Hd].
    change (String a d +:+ rest) with (String a (d +:+ rest)).
    simpl. rewrite Ha, IH by done. done.
Qed.

Lemma parseDigitsFrom_app acc d1 d2 :
  FileReader.parseDigitsFrom acc (d1 +:+ d2)
  = FileReader.parseDigitsFrom (FileReader.parseDigitsFrom acc d1) d2.
Proof.
  revert acc. induction d1 as [|a d1 IH]; intros acc; [done|].
  change (String a d1 +:+ d2) with (String a (d1 +:+ d2)). simpl. apply IH.
Qed.

(** [pretty_N_go x s] puts the decimal digits of [x] in front of [s]. *)
Lemma pretty_N_go_digits x s :
  ∃ d, pretty_N_go x s = d +:+ s
       ∧ allDigits d
       ∧ (∀ acc, FileReader.parseDigitsFrom acc d
                 = acc * 10 ^ Z.of_nat (String.length d) + Z.of_N x)
       ∧ ((0 < x)%N → d ≠ "").
Proof.
  revert s. induction (N.lt_wf_0 x) as [x _ IH]; intros s.
  destruct (decide (x = 0)%N) as [->|Hx].
  - exists "". rewrite pretty_N_go_0. split; [done|]. split; [done|].
    split; [intros acc; simpl; lia|lia].
  - rewrite pretty_N_go_step by lia.
    destruct (IH (x `div` 10)%N) with (s := String (pretty_N_char (x `mod` 10)) s)
      as (d & Hgo & Hd & Hparse & _).
    { apply N.div_lt; lia. }
    destruct (pretty_N_char_digit (x `mod` 10)%N) as [Hdig Hval].
    { apply N.mod_lt. lia. }
    exists (d +:+ String (pretty_N_char (x `mod` 10)) "").
    split; [|split; [|split]].
    + rewrite Hgo. clear. induction d as [|a d IHd]; [done|].
      change (String a d +:+ ?t) with (String a (d +:+ t)). by rewrite IHd.
    + clear -Hd Hdig. induction d as [|a d IHd]; [done|].
      destruct Hd as [Ha Hd]. split; [done|]. by apply IHd.
    + intros acc. rewrite parseDigitsFrom_app, Hparse. simpl. rewrite Hval.
      assert (String.length (d +:+ String (pretty_N_char (x `mod` 10)) "")
              = S (String.length d)) as ->.
      { clear. induction d as [|a d IHd]; [done|].
        change (String a d +:+ ?t) with (String a (d +:+ t)). simpl. by rewrite IHd. }
      rewrite Nat2Z.inj_succ, Z.pow_succ_r by lia.
      pose proof (N.div_mod x 10 ltac:(lia)) as Hdm.
      rewrite N2Z.inj_mod. rewrite N2Z.inj_div.
      pose proof (Z.div_mod (Z.of_N x) 10 ltac:(lia)). change (Z.of_N 10) with 10. lia.
    + intros _. by destruct d.
Qed.

Lemma pretty_Z_digits (n : Z) :
  0 ≤ n →
  allDigits (pretty n) ∧ pretty n ≠ "" ∧ FileReader.parseInt10 (pretty n) = n.
Proof.
  intros Hn. destruct n as [|p|p]; [by vm_compute| |lia].
  unfold pretty, pretty_Z, pretty, pretty_positive, pretty, pretty_N.
  rewrite decide_False by lia.
  destruct (pretty_N_go_digits (N.pos p) "") as (d & Hgo & Hd & Hparse & Hne).
  rewrite Hgo.
  assert (d +:+ "" = d) as ->.
  { clear. induction d as [|a d IHd]; [done|].
    change (String a d +:+ "") with (String a (d +:+ "")). by rewrite IHd. }
  split; [done|]. split; [by apply Hne|].
  unfold FileReader.parseInt10. rewrite Hparse. simpl. lia.
Qed.

Lemma pretty_Z_negative (n : Z) :
  n < 0 → ∃ rest, pretty n = String "-" rest.
Proof.
  intros Hn. destruct n as [|p|p]; [lia|lia|].
  unfold pretty at 1, pretty_Z. eexists. reflexivity.
Qed.

Lemma parseDigitsFrom_nonneg acc d :
  0 ≤ acc → allDigits d → 0 ≤ FileReader.parseDigitsFrom acc d.
Proof.
  revert acc. induction d as [|a d IH]; intros acc Hacc Hd; simpl; [done|].
  destruct Hd as [Ha Hd]. apply IH; [|done].
  unfold JsText.is_digit in Ha. apply andb_true_iff in Ha as [H1 H2].
  apply Nat.leb_le in H1. lia.
Qed.

Lemma takeDigits_allDigits s :
  allDigits (FileReader.takeDigits s).1
  ∧ s = (FileReader.takeDigits s).1 +:+ (FileReader.takeDigits s).2.
Proof.
  induction s as [|a s [IH1 IH2]]; simpl; [done|].
  destruct (JsText.is_digit a) eqn:Ha; [|done].
  destruct (FileReader.takeDigits s) as [d rest]. simpl in *. split; [done|].
  by rewrite IH2 at 1.
Qed.

Lemma parseRange_formatRange_eq (a b : Z) :
  FileReader.parseRange (FileReader.formatRange a b)
  = if (0 <=? a) && (0 <=? b) then Some (a, b) else None.
Proof.
  unfold FileReader.formatRange, JsText.numberToString.
  change ("[" +:+ pretty a +:+ ":" +:+ pretty b +:+ "]")
    with (String "[" (pretty a +:+ String ":" (pretty b +:+ String "]" ""))).
  cbn [FileReader.parseRange].
  destruct (0 <=? a) eqn:Ha.
  - apply Z.leb_le in Ha. destruct (pretty_Z_digits a Ha) as (Hda & Hnea & Hpa).
    rewrite (takeDigits_app (pretty a)); [|done|by intros ? ? [= <- _]].
    destruct (pretty a) as [|c0 da] eqn:Ea; [done|].
    destruct (0 <=? b) eqn:Hb; simpl andb; cbv iota.
    + apply Z.leb_le in Hb. destruct (pretty_Z_digits b Hb) as (Hdb & Hneb & Hpb).
      rewrite (takeDigits_app (pretty b)); [|done|by intros ? ? [= <- _]].
      destruct (pretty b) as [|c1 db] eqn:Eb; [done|]. by rewrite Hpa, Hpb.
    + apply Z.leb_gt in Hb. destruct (pretty_Z_negative b Hb) as [rest ->].
      done.
  - apply Z.leb_gt in Ha. destruct (pretty_Z_negative a Ha) as [rest ->]. done.
Qed.

(** X1: [parseRange] inverts [formatRange] on line numbers that
    JavaScript represents exactly: formatting two non-negative integers up
    to [MAX_SAFE_INTEGER] and parsing the result gives the two numbers
    back, and a formatted range with a negative number is rejected. *)
Theorem parseRange_formatRange (a b : Z) :
  Z.abs a ≤ JsText.MAX_SAFE_INTEGER → Z.abs b ≤ JsText.MAX_SAFE_INTEGER →
  FileReader.parseRange (FileReader.formatRange a b)
  = if (0 <=? a) && (0 <=? b) then Some (a, b) else None.
Proof. intros _ _. apply parseRange_formatRange_eq. Qed.

Lemma parseRange_formatRange_witness :
  FileReader.parseRange (FileReader.formatRange 12 9007199254740991)
  = Some (12, 9007199254740991)
  ∧ FileReader.parseRange (FileReader.formatRange (-3) 5) = None.
Proof.
  split.
  - apply (parseRange_formatRange 12 9007199254740991);
      unfold JsText.MAX_SAFE_INTEGER; lia.
  - apply (parseRange_formatRange (-3) 5); unfold JsText.MAX_SAFE_INTEGER; lia.
Defined.

Lemma parseRange_nonneg (rangeStr : string) (a b : Z) :
  FileReader.parseRange rangeStr = Some (a, b) → 0 ≤ a ∧ 0 ≤ b.
Proof.
  intros Hparse. unfold FileReader.parseRange in Hparse.
  destruct rangeStr as [|c rest]; [done|].
  destruct (decide (c = "["%char)) as [->|Hc];
    [|by destruct c as [[] [] [] [] [] [] [] []]].
  pose proof (takeDigits_allDigits rest) as [Hd1 _].
  destruct (FileReader.takeDigits rest) as [d1 rest1]. simpl in Hd1.
  destruct d1 as [|x d1]; [done|].
  destruct rest1 as [|c1 rest2]; [done|].
  destruct (decide (c1 = ":"%char)) as [->|Hc1];
    [|by destruct c1 as [[] [] [] [] [] [] [] []]].
  pose proof (takeDigits_allDigits rest2) as [Hd2 _].
  destruct (FileReader.takeDigits rest2) as [d2 rest3]. simpl in Hd2.
  destruct d2 as [|y d2]; [done|].
  destruct rest3 as [|c2 rest4]; [done|].
  destruct (decide (c2 = "]"%char)) as [->|Hc2];
    [|by destruct c2 as [[] [] [] [] [] [] [] []]].
  destruct rest4; [|done]. injection Hparse as <- <-.
  split; by apply parseDigitsFrom_nonneg.
Qed.

(** X2: [parseRange] only ever returns non-negative line numbers, and
    when they are at most [MAX_SAFE_INTEGER] what it returns is stable
    under formatting and parsing again (leading zeros in the input are
    dropped by the first parse). *)
Theorem parseRange_normalises (rangeStr : string) (a b : Z) :
  FileReader.parseRange rangeStr = Some (a, b) →
  a ≤ JsText.MAX_SAFE_INTEGER → b ≤ JsText.MAX_SAFE_INTEGER →
  0 ≤ a ∧ 0 ≤ b
  ∧ FileReader.parseRange (FileReader.formatRange a b) = Some (a, b).
Proof.
  intros Hparse _ _. destruct (parseRange_nonneg _ _ _ Hparse) as [Ha Hb].
  split; [done|]. split; [done|].
  rewrite parseRange_formatRange_eq.
  by rewrite (proj2 (Z.leb_le 0 a) Ha), (proj2 (Z.leb_le 0 b) Hb).
Qed.

Lemma parseRange_normalises_witness :
  0 ≤ 7 ∧ 0 ≤ 9
  ∧ FileReader.parseRange (FileReader.formatRange 7 9) = Some (7, 9).
Proof.
  apply (parseRange_normalises "[007:9]" 7 9);
    [reflexivity|unfold JsText.MAX_SAFE_INTEGER; lia..].
Defined.

Lemma clampIndex_inside len i : 0 ≤ i → i ≤ len → JsText.clampIndex len i = i.
Proof.
  intros H0 H1. unfold JsText.clampIndex.
  destruct (i <? 0) eqn:E; [apply Z.ltb_lt in E; lia|lia].
Qed.


Lemma split_length_pos s c : (1 ≤ length (JsText.split s c))%nat.
Proof.
  pose proof (split_nonempty s c). destruct (JsText.split s c); [done|simpl; lia].
Qed.

(** X3: reading a range that covers the whole file returns the file's text
    unchanged: when [startLine - surround] is at most 1 and
    [endLine + surround] reaches the number of lines, the reported range is
    [1 .. number of lines] and the code is the content as read. *)
Theorem readRange_whole_file
    (fs : FileSystem) (filePath content : string) (startLine endLine surround : Z) :
  readFileContent fs filePath = Some content →
  startLine - surround ≤ 1 →
  Z.of_nat (length (JsText.split content "010")) ≤ endLine + surround →
  FileReader.readRange fs filePath startLine endLine surround
  = Some {| rr_file := filePath;
            rr_range :=
              FileReader.formatRange 1 (Z.of_nat (length (JsText.split content "010")));
            rr_startLine := 1;
            rr_endLine := Z.of_nat (length (JsText.split content "010"));
            rr_code := content |}.
Proof.
  intros Hread Hs He. unfold FileReader.readRange, FileReader.readFileLines.
  rewrite Hread. rewrite Z.max_l by lia. rewrite Z.min_l by lia.
  do 2 f_equal. unfold JsText.sliceList.
  rewrite clampIndex_inside by lia. rewrite clampIndex_inside by lia.
  change (Z.to_nat (1 - 1)) with 0%nat. cbn [skipn].
  rewrite Z.sub_0_r, Nat2Z.id, firstn_all. apply join_split.
Qed.

Lemma readRange_whole_file_witness :
  let content := "a
b
c" in
  let fs := {| toAbsolute := λ p, p; statSync := λ _, Some 1;
               readFileSync := λ _, Some content |} in
  FileReader.readRange fs "notes.txt" 1 50 0
  = Some {| rr_file := "notes.txt";
            rr_range :=
              FileReader.formatRange 1 (Z.of_nat (length (JsText.split content "010")));
            rr_startLine := 1;
            rr_endLine := Z.of_nat (length (JsText.split content "010"));
            rr_code := content |}.
Proof.
  intros content fs.
  apply (readRange_whole_file fs "notes.txt" content 1 50 0); [reflexivity|lia|].
  vm_compute. discriminate.
Defined.

Lemma readRange_whole_file_run :
  FileReader.readRange
    {| toAbsolute := λ p, p; statSync := λ _, Some 1;
       readFileSync := λ _, Some "a
b
c" |} "notes.txt" 2 50 3
  = Some {| rr_file := "notes.txt"; rr_range := "[1:3]"; rr_startLine := 1;
            rr_endLine := 3; rr_code := "a
b
c" |}.
Proof. vm_compute. reflexivity. Qed.

(** X4: a range inside the file returns exactly the requested lines: for
    [1 ≤ startLine ≤ endLine ≤ number of lines] and no surround, the
    reported lines are the requested ones and the code, split at newlines,
    is the lines [startLine .. endLine] of the file. *)
Theorem readRange_inside
    (fs : FileSystem) (filePath content : string) (startLine endLine : Z) :
  readFileContent fs filePath = Some content →
  1 ≤ startLine → startLine ≤ endLine →
  endLine ≤ Z.of_nat (length (JsText.split content "010")) →
  ∃ r,
    FileReader.readRange fs filePath startLine endLine 0 = Some r
    ∧ rr_startLine r = startLine ∧ rr_endLine r = endLine
    ∧ rr_range r = FileReader.formatRange startLine endLine
    ∧ JsText.split (rr_code r) "010"
      = List.firstn (Z.to_nat (endLine - startLine + 1))
          (List.skipn (Z.to_nat (startLine - 1)) (JsText.split content "010"))
    ∧ Z.of_nat (length (JsText.split (rr_code r) "010")) = endLine - startLine + 1.
Proof.
  intros Hread H1 H2 H3. unfold FileReader.readRange, FileReader.readFileLines.
  rewrite Hread. eexists. split; [reflexivity|]. cbn [rr_startLine rr_endLine rr_range rr_code].
  rewrite Z.sub_0_r, Z.add_0_r. rewrite Z.max_r by lia. rewrite Z.min_r by lia.
  split; [done|]. split; [done|]. split; [done|].
  unfold JsText.sliceList.
  rewrite clampIndex_inside by lia. rewrite clampIndex_inside by lia.
  replace (endLine - (startLine - 1)) with (endLine - startLine + 1) by lia.
  set (lines := JsText.split content "010") in *.
  set (sel := firstn (Z.to_nat (endLine - startLine + 1))
                (skipn (Z.to_nat (startLine - 1)) lines)).
  assert (length sel = Z.to_nat (endLine - startLine + 1)) as Hlen.
  { subst sel. rewrite length_firstn, length_skipn. lia. }
  assert (JsText.split (JsText.join sel (String "010" "")) "010" = sel) as Hsj.
  { apply split_join.
    - intros Hnil. rewrite Hnil in Hlen. simpl in Hlen. lia.
    - subst sel. apply Forall_forall. intros w Hw.
      apply subseteq_take, subseteq_drop in Hw.
      pose proof (split_noChar content "010") as Hall.
      rewrite Forall_forall in Hall. by apply Hall. }
  split; [exact Hsj|]. rewrite Hsj, Hlen. lia.
Qed.

Lemma readRange_inside_witness :
  let fs := {| toAbsolute := λ p, p; statSync := λ _, Some 1;
               readFileSync := λ _, Some "a
b
c
d" |} in
  ∃ r,
    FileReader.readRange fs "notes.txt" 2 3 0 = Some r
    ∧ rr_startLine r = 2 ∧ rr_endLine r = 3
    ∧ rr_range r = FileReader.formatRange 2 3
    ∧ JsText.split (rr_code r) "010"
      = List.firstn (Z.to_nat (3 - 2 + 1))
          (List.skipn (Z.to_nat (2 - 1)) (JsText.split "a
b
c
d" "010"))
    ∧ Z.of_nat (length (JsText.split (rr_code r) "010")) = 3 - 2 + 1.
Proof.
  intros fs.
  apply (readRange_inside fs "notes.txt" _ 2 3); [reflexivity|lia|lia|].
  vm_compute. discriminate.
Defined.



(** X6: the range tool answers only for an existing file and a well-formed
    range whose start does not exceed its end; with a non-negative
    surround, and the requested end line plus the surround at most
    [MAX_SAFE_INTEGER], the range string it echoes back parses to exactly
    the start and end lines it reports, and the reported start line is at
    least 1. *)
Theorem readRange_tool_echo
    (fileExists : string → bool) (toRelative : string → string)
    (fs : FileSystem) (input : ReadRangeInput) (r : RangeReadResult) :
  ReadRangeTool.readRange fileExists toRelative fs input = Some r →
  0 ≤ ri_surround input →
  (∀ s e, FileReader.parseRange (ri_range input) = Some (s, e) →
          e + ri_surround input ≤ JsText.MAX_SAFE_INTEGER) →
  fileExists (ri_filePath input) = true
  ∧ (∃ s e, FileReader.parseRange (ri_range input) = Some (s, e) ∧ 0 ≤ s ∧ s ≤ e)
  ∧ 1 ≤ rr_startLine r
  ∧ FileReader.parseRange (rr_range r) = Some (rr_startLine r, rr_endLine r).
Proof.
  intros Hrun Hsur _. unfold ReadRangeTool.readRange in Hrun.
  destruct (fileExists (ri_filePath input)) eqn:Hex; [|done]. simpl in Hrun.
  destruct (FileReader.parseRange (ri_range input)) as [[s e]|] eqn:Hparse; [|done].
  destruct (e <? s) eqn:Hse; [done|]. apply Z.ltb_ge in Hse.
  destruct (parseRange_nonneg _ _ _ Hparse) as [Hs He].
  unfold FileReader.readRange, FileReader.readFileLines in Hrun.
  destruct (readFileContent fs (ri_filePath input)) as [content|]; [|done].
  injection Hrun as <-. cbn [rr_startLine rr_endLine rr_range].
  split; [done|]. split; [by exists s, e|]. split; [lia|].
  rewrite parseRange_formatRange_eq.
  pose proof (split_length_pos content "010").
  rewrite (proj2 (Z.leb_le 0 _)) by lia. rewrite (proj2 (Z.leb_le 0 _)) by lia.
  done.
Qed.

Lemma readRange_tool_echo_witness :
  let fs := {| toAbsolute := λ p, p; statSync := λ _, Some 1;
               readFileSync := λ _, Some "a
b
c" |} in
  let input := {| ri_filePath := "notes.txt"; ri_range := "[2:3]"; ri_surround := 1 |} in
  let r := {| rr_file := "notes.txt"; rr_range := "[1:3]"; rr_startLine := 1;
              rr_endLine := 3; rr_code := "a
b
c" |} in
  (λ _, true) (ri_filePath input) = true
  ∧ (∃ s e, FileReader.parseRange (ri_range input) = Some (s, e) ∧ 0 ≤ s ∧ s ≤ e)
  ∧ 1 ≤ rr_startLine r
  ∧ FileReader.parseRange (rr_range r) = Some (rr_startLine r, rr_endLine r).
Proof.
  intros fs input r.
  apply (readRange_tool_echo (λ _, true) (λ p, p) fs input r);
    [vm_compute; reflexivity|simpl; lia|].
  intros s e H. vm_compute in H. injection H as <- <-.
  unfold JsText.MAX_SAFE_INTEGER. simpl. lia.
Defined.

(** ** Parse cache: round trip, idempotence, invalidation *)

(** X7: storing then looking up. On a file whose stat succeeds,
    [setCachedResult] followed by [getCachedResult] on the same disk
    returns the stored outcome and keeps the entry; when the stat fails
    nothing is stored; entries of other paths are never touched. *)
Theorem cache_set_then_get
    (fs : FileSystem) (cache : gmap string CacheEntry) (filePath : string)
    (r : ParseResult) :
  let cache' := Cache.setCachedResult fs cache filePath r in
  (is_Some (statSync fs (toAbsolute fs filePath)) →
   Cache.getCachedResult fs cache' filePath = (Some r, cache'))
  ∧ (statSync fs (toAbsolute fs filePath) = None → cache' = cache)
  ∧ (∀ other, other ≠ filePath → cache' !! other = cache !! other).
Proof.
  intros cache'. subst cache'. unfold Cache.setCachedResult, Cache.getCachedResult.
  destruct (statSync fs (toAbsolute fs filePath)) as [m|] eqn:Hs.
  - split; [|split; [done|]].
    + intros _. rewrite lookup_insert_eq. simpl. by rewrite decide_True.
    + intros other Hne. by rewrite lookup_insert_ne.
  - split; [by intros [? ?]|]. done.
Qed.

Lemma cache_set_then_get_witness :
  let fs := {| toAbsolute := λ p, p; statSync := λ _, Some 42;
               readFileSync := λ _, Some "x" |} in
  let r := {| symbols := []; exports := []; errors := [] |} in
  Cache.getCachedResult fs (Cache.setCachedResult fs ∅ "a.ts" r) "a.ts"
  = (Some r, Cache.setCachedResult fs ∅ "a.ts" r).
Proof.
  intros fs r.
  apply (proj1 (cache_set_then_get fs ∅ "a.ts" r)). by eexists.
Defined.

Lemma getCachedResult_miss_no_entry fs (cache : gmap string CacheEntry) filePath :
  (Cache.getCachedResult fs cache filePath).1 = None →
  (Cache.getCachedResult fs cache filePath).2 !! filePath = None.
Proof.
  unfold Cache.getCachedResult.
  destruct (cache !! filePath) as [e|] eqn:Hc; simpl; [|done].
  destruct (statSync fs (toAbsolute fs filePath)) as [m|]; simpl.
  - destruct (decide (m = mtime e)); simpl; [done|]. intros _. apply lookup_delete_eq.
  - intros _. apply lookup_delete_eq.
Qed.

Lemma parseFile_hit extract fs (cache : gmap string CacheEntry) filePath e :
  cache !! filePath = Some e →
  statSync fs (toAbsolute fs filePath) = Some (mtime e) →
  Extractor.parseFile extract fs cache filePath = (result e, cache).
Proof.
  intros He Hm. unfold Extractor.parseFile, Cache.getCachedResult.
  rewrite He, Hm. by rewrite decide_True.
Qed.

(** X8: on an unchanged disk [parseFile] is idempotent from every cache
    state: a second call returns the same outcome as the first and leaves
    the cache exactly as the first call left it. *)
Theorem parseFile_idempotent
    (extract : Extract) (fs : FileSystem) (cache : gmap string CacheEntry)
    (filePath : string) :
  Extractor.parseFile extract fs (Extractor.parseFile extract fs cache filePath).2 filePath
  = Extractor.parseFile extract fs cache filePath.
Proof.
  destruct ((Cache.getCachedResult fs cache filePath).1) as [cached|] eqn:Hget.
  - apply getCachedResult_hit in Hget as (e & He & Hm & ->).
    rewrite !(parseFile_hit extract fs cache filePath e He Hm). simpl.
    by apply parseFile_hit.
  - pose proof (getCachedResult_miss_no_entry _ _ _ Hget) as Hnone.
    unfold Extractor.parseFile at 2 3.
    destruct (Cache.getCachedResult fs cache filePath) as [[cached|] cache1];
      simpl in *; [done|].
    assert (Cache.getCachedResult fs cache1 filePath = (None, cache1)) as Hagain
      by (by apply getCachedResult_absent).
    destruct (negb (Js.truthy (readFileContent fs filePath))) eqn:Hread.
    { cbn [snd]. unfold Extractor.parseFile. by rewrite Hagain, Hread. }
    destruct (extract filePath (default "" (readFileContent fs filePath)))
      as [[syms exps]|err] eqn:Hex; cbn [snd].
    + unfold Cache.setCachedResult.
      destruct (statSync fs (toAbsolute fs filePath)) as [m|] eqn:Hs.
      * by apply (parseFile_hit extract fs _ filePath
                    {| mtime := m; result := _ |}); [apply lookup_insert_eq|].
      * unfold Extractor.parseFile. rewrite Hagain, Hread, Hex.
        unfold Cache.setCachedResult. by rewrite Hs.
    + unfold Extractor.parseFile. by rewrite Hagain, Hread, Hex.
Qed.

(** X9: invalidation forces a fresh parse. After [invalidateCache] aimed
    at a path, or called without a path (which clears every entry, as does
    the empty string), the next [parseFile] of that path returns the
    outcome of the file as it is on disk, whatever the cache held. *)
Theorem invalidateCache_forces_fresh_parse
    (extract : Extract) (fs : FileSystem) (cache : gmap string CacheEntry)
    (filePath : string) :
  (Extractor.parseFile extract fs (Cache.invalidateCache cache (Some filePath)) filePath).1
  = outcomeOfDisk extract fs filePath
  ∧ (Extractor.parseFile extract fs (Cache.invalidateCache cache None) filePath).1
    = outcomeOfDisk extract fs filePath
  ∧ Cache.invalidateCache cache (Some "") = ∅
  ∧ (∀ other, filePath ≠ "" → other ≠ filePath →
       Cache.invalidateCache cache (Some filePath) !! other = cache !! other).
Proof.
  assert (∀ c : gmap string CacheEntry, c !! filePath = None →
            (Extractor.parseFile extract fs c filePath).1
            = outcomeOfDisk extract fs filePath) as Hfresh.
  { intros c Hc. apply parseFile_miss. by rewrite getCachedResult_absent. }
  split; [|split; [|split]].
  - apply Hfresh. unfold Cache.invalidateCache.
    destruct filePath as [|a p]; simpl; [done|]. apply lookup_delete_eq.
  - apply Hfresh. done.
  - done.
  - intros other Hne Hother. unfold Cache.invalidateCache.
    destruct filePath as [|a p]; [done|]. simpl. by rewrite lookup_delete_ne.
Qed.

(** ** Registry and dialect filters *)

(** X10: registration order. After registering [p1] and then [p2], a path
    is served by [p2] when its extension is one of [p2]'s, else by [p1]
    when it is one of [p1]'s, else by whatever was registered before; and
    when the two parsers declare no common extension the order of the two
    registrations does not matter. *)
Theorem registerParser_later_wins
    (parsers : gmap string LanguageParser) (p1 p2 : LanguageParser)
    (filePath : string) :
  let ext := Js.substring filePath (Js.lastIndexOf filePath ".") in
  Registry.getParserForFile
    (Registry.registerParser (Registry.registerParser parsers p1) p2) filePath
  = (if decide (ext ∈ extensions p2) then Some p2
     else if decide (ext ∈ extensions p1) then Some p1
     else parsers !! ext)
  ∧ ((∀ e, e ∈ extensions p1 → e ∉ extensions p2) →
     Registry.registerParser (Registry.registerParser parsers p1) p2
     = Registry.registerParser (Registry.registerParser parsers p2) p1).
Proof.
  intros ext. split.
  - unfold Registry.getParserForFile. fold ext. by rewrite !registerParser_lookup.
  - intros Hdisj. apply map_eq. intros e. rewrite !registerParser_lookup.
    destruct (decide (e ∈ extensions p2)) as [H2|H2];
      destruct (decide (e ∈ extensions p1)) as [H1|H1]; try done.
    by destruct (Hdisj e H1).
Qed.

Lemma registerParser_later_wins_witness :
  let ts := Typescript.typescriptParser (λ _ _, Returned ([], [])) in
  let sol := Solidity.solidityParser (λ _ _, Returned ([], [])) in
  Registry.registerParser (Registry.registerParser ∅ ts) sol
  = Registry.registerParser (Registry.registerParser ∅ sol) ts.
Proof.
  intros ts sol.
  apply (proj2 (registerParser_later_wins ∅ ts sol "a.sol")).
  intros e He. simpl in *. set_solver.
Defined.

Lemma toLowerCase_app s t :
  Js.toLowerCase (s +:+ t) = Js.toLowerCase s +:+ Js.toLowerCase t.
Proof.
  induction s as [|c s IH]; [done|].
  change (String c s +:+ t) with (String c (s +:+ t)). simpl Js.toLowerCase.
  rewrite IH. done.
Qed.

Lemma includes_toLowerCase s q :
  Js.includes s q = true → Js.includes (Js.toLowerCase s) (Js.toLowerCase q) = true.
Proof.
  rewrite !includes_spec. intros (pre & post & ->).
  exists (Js.toLowerCase pre), (Js.toLowerCase post). by rewrite !toLowerCase_app.
Qed.

Lemma filter_sublist_weaker {A} (P Q : A → bool) (l : list A) :
  (∀ x, P x = true → Q x = true) → sublist (List.filter P l) (List.filter Q l).
Proof.
  intros HPQ. induction l as [|x l IH]; simpl; [constructor|].
  destruct (P x) eqn:HP.
  - rewrite (HPQ x HP). by constructor.
  - destruct (Q x); [by constructor|done].
Qed.

(** X11: the TypeScript dialect's case-sensitive filter is never more
    generous than the case-insensitive filter of the other dialects: on
    the same file, cache, query and kind, with a query and symbol names
    made of ASCII characters, what the TypeScript [parseFileForSymbol]
    returns is a sub-sequence of what the Solidity one returns, and both
    leave the same cache. *)
Theorem typescript_matches_within_insensitive
    (extract : Extract) (fs : FileSystem) (cache : gmap string CacheEntry)
    (filePath query : string) (type : option SymbolKind) :
  isAscii query →
  (∀ s, s ∈ symbols (Extractor.parseFile extract fs cache filePath).1 →
        isAscii (name s)) →
  sublist (Typescript.parseFileForSymbol extract fs cache filePath query type).1
          (Solidity.parseFileForSymbol extract fs cache filePath query type).1
  ∧ (Typescript.parseFileForSymbol extract fs cache filePath query type).2
    = (Solidity.parseFileForSymbol extract fs cache filePath query type).2.
Proof.
  intros _ _. split.
  - rewrite typescript_parseFileForSymbol.
    rewrite (proj1 (insensitive_parseFileForSymbol _ _ _ _ _ _)).
    apply filter_sublist_weaker. intros s. unfold Extractor.matchesInsensitive.
    rewrite !andb_true_iff. intros [Hn Ht]. split; [|done].
    by apply includes_toLowerCase.
  - unfold Typescript.parseFileForSymbol, Solidity.parseFileForSymbol,
      Typescript.parseFile, Solidity.parseFile.
    by destruct (Extractor.parseFile extract fs cache filePath).
Qed.

Lemma typescript_matches_within_insensitive_witness :
  let extract : Extract := λ _ _, Returned ([fooSymbol], []) in
  sublist (Typescript.parseFileForSymbol extract fooFs ∅ "a.ts" "oo" None).1
          (Solidity.parseFileForSymbol extract fooFs ∅ "a.ts" "oo" None).1
  ∧ (Typescript.parseFileForSymbol extract fooFs ∅ "a.ts" "oo" None).2
    = (Solidity.parseFileForSymbol extract fooFs ∅ "a.ts" "oo" None).2.
Proof.
  intros extract.
  apply (typescript_matches_within_insensitive extract fooFs ∅ "a.ts" "oo" None).
  - repeat split; apply Nat.ltb_lt; reflexivity.
  - intros s Hs. vm_compute in Hs. apply list_elem_of_singleton in Hs as ->.
    repeat split; apply Nat.ltb_lt; reflexivity.
Defined.

Lemma includes_empty s : Js.includes s "" = true.
Proof. by destruct s. Qed.

Lemma filter_all_true {A} (P : A → bool) (l : list A) :
  (∀ x, P x = true) → List.filter P l = l.
Proof.
  intros HP. induction l as [|x l IH]; simpl; [done|]. by rewrite HP, IH.
Qed.

(** X12: the empty query matches every name. With the query [""] and no
    kind filter, [parseFileForSymbol] returns every symbol of the file's
    parse, in the TypeScript dialect as in the case-insensitive ones and
    in the compound-document one. *)
Theorem parseFileForSymbol_empty_query
    (extract : Extract) (tk : VueToolkit) (fs : FileSystem)
    (cache : gmap string CacheEntry) (filePath : string) :
  (Typescript.parseFileForSymbol extract fs cache filePath "" None).1
  = symbols (Extractor.parseFile extract fs cache filePath).1
  ∧ (Solidity.parseFileForSymbol extract fs cache filePath "" None).1
    = symbols (Extractor.parseFile extract fs cache filePath).1
  ∧ (Python.parseFileForSymbol extract fs cache filePath "" None).1
    = symbols (Extractor.parseFile extract fs cache filePath).1
  ∧ (Vue.parseFileForSymbol tk fs cache filePath "" None).1
    = symbols (Vue.parseFile tk fs cache filePath).1.
Proof.
  rewrite typescript_parseFileForSymbol.
  destruct (insensitive_parseFileForSymbol extract fs cache filePath "" None)
    as [-> ->].
  rewrite vue_parseFileForSymbol.
  repeat split; apply filter_all_true; intros s;
    unfold Extractor.matchesInsensitive; by rewrite includes_empty.
Qed.

(** ** Export resolver: what a result looks like *)

Section WalkShape.

Context {St : Type}.
Variable parseFile : string → St → ParseResult * St.
Variable resolve : string → string → option string.

Lemma resolvedShape_unshift F f depth r :
  resolvedShape f (S depth) r →
  resolvedShape F depth (ExportResolver.unshiftChain F r).
Proof.
  intros (Hof & Hsym & Hhd & Hlast & Hlen).
  unfold resolvedShape, ExportResolver.unshiftChain. simpl.
  split; [done|]. split; [done|]. split; [done|].
  destruct (exportChain r) as [|c chain]; [done|].
  split; [done|]. simpl in *. lia.
Qed.

Lemma resolvedShape_localHit F X s depth :
  (depth ≤ ExportResolver.MAX_DEPTH)%nat →
  name s = X ∨ X = "default" →
  resolvedShape F depth (ExportResolver.localHit F X s).
Proof.
  intros Hd Hn. unfold resolvedShape, ExportResolver.localHit. simpl.
  split; [done|]. split; [by exists s|]. split; [done|]. split; [done|].
  unfold ExportResolver.MAX_DEPTH in *. lia.
Qed.

Lemma followLoop_shape recur F X result exps visited (st : St) depth r v' s' :
  (depth ≤ ExportResolver.MAX_DEPTH)%nat →
  (∀ f n v s r v' s', recur f n v s = Some (Some r, v', s') →
                      resolvedShape f (S depth) r) →
  ExportResolver.followLoop resolve recur F X result exps visited st
  = Some (Some r, v', s') →
  resolvedShape F depth r.
Proof.
  intros Hd Hrec. revert visited st.
  induction exps as [|exp rest IH]; intros visited st; simpl; [done|].
  destruct (exp_kind exp).
  - destruct (_ && _); [|apply IH].
    destruct (Js.truthy (resolve _ _)); [|apply IH].
    destruct (recur _ _ visited st) as [[[[r0|] v0] s0]|] eqn:E; [| |done].
    + intros [= <- <- <-]. eapply resolvedShape_unshift, Hrec, E.
    + apply IH.
  - destruct (bool_decide (X = "default")) eqn:HX; [|apply IH].
    apply bool_decide_eq_true in HX.
    destruct (Js.truthy (localName exp)); [|apply IH]. simpl.
    destruct (List.find _ _); [|apply IH].
    intros [= <- <- <-]. apply resolvedShape_localHit; [done|by right].
  - destruct (Js.truthy (source exp)); [|apply IH].
    destruct (Js.truthy (resolve _ _)); [|apply IH].
    destruct (recur _ _ visited st) as [[[[r0|] v0] s0]|] eqn:E; [| |done].
    + intros [= <- <- <-]. eapply resolvedShape_unshift, Hrec, E.
    + apply IH.
Qed.

Lemma followExport_fuel_shape fuel F X visited depth st r v' s' :
  ExportResolver.followExport_fuel parseFile resolve fuel F X visited depth st
  = Some (Some r, v', s') →
  resolvedShape F depth r.
Proof.
  revert F X visited depth st r v' s'.
  induction fuel as [|fuel IH]; intros F X visited depth st r v' s'; [done|].
  simpl. destruct (ExportResolver.MAX_DEPTH <? depth)%nat eqn:Hd; [done|].
  apply Nat.ltb_ge in Hd.
  destruct (decide (_ ∈ visited)); [done|].
  destruct (parseFile F st) as [result st1].
  destruct (0 <? length (errors result))%nat; [done|].
  destruct (List.find _ _) as [s|] eqn:Hfind.
  - intros [= <- <- <-]. apply resolvedShape_localHit; [done|].
    left. apply find_some in Hfind as [_ Hn]. by apply bool_decide_eq_true in Hn.
  - apply followLoop_shape; [done|]. intros f nm v s r0 v0 s0. apply IH.
Qed.

Lemma followLoop_visited recur F X result exps visited (st : St) out :
  (∀ f n v s o, recur f n v s = Some o → v ⊆ o.1.2) →
  ExportResolver.followLoop resolve recur F X result exps visited st = Some out →
  visited ⊆ out.1.2.
Proof.
  intros Hrec. revert visited st.
  induction exps as [|exp rest IH]; intros visited st; simpl.
  { by intros [= <-]. }
  destruct (exp_kind exp).
  - destruct (_ && _); [|apply IH].
    destruct (Js.truthy (resolve _ _)); [|apply IH].
    destruct (recur _ _ visited st) as [[[[r0|] v0] s0]|] eqn:E; [| |done].
    + intros [= <-]. apply (Hrec _ _ _ _ _ E).
    + intros Hrest. apply IH in Hrest. apply Hrec in E. simpl in E. set_solver.
  - destruct (_ && _); [|apply IH].
    destruct (List.find _ _); [|apply IH]. by intros [= <-].
  - destruct (Js.truthy (source exp)); [|apply IH].
    destruct (Js.truthy (resolve _ _)); [|apply IH].
    destruct (recur _ _ visited st) as [[[[r0|] v0] s0]|] eqn:E; [| |done].
    + intros [= <-]. apply (Hrec _ _ _ _ _ E).
    + intros Hrest. apply IH in Hrest. apply Hrec in E. simpl in E. set_solver.
Qed.

Lemma followExport_fuel_visited fuel F X visited depth st out :
  ExportResolver.followExport_fuel parseFile resolve fuel F X visited depth st
  = Some out →
  visited ⊆ out.1.2
  ∧ ((depth ≤ ExportResolver.MAX_DEPTH)%nat → ExportResolver.visitKey F X ∈ out.1.2).
Proof.
  revert F X visited depth st out.
  induction fuel as [|fuel IH]; intros F X visited depth st out; [done|].
  simpl. destruct (ExportResolver.MAX_DEPTH <? depth)%nat eqn:Hd.
  { apply Nat.ltb_lt in Hd. intros [= <-]. split; [done|]. lia. }
  destruct (decide (_ ∈ visited)) as [Hin|Hnin]; [by intros [= <-]|].
  destruct (parseFile F st) as [result st1].
  destruct (0 <? length (errors result))%nat.
  { intros [= <-]. simpl. set_solver. }
  destruct (List.find _ _) as [s|].
  { intros [= <-]. simpl. set_solver. }
  intros Hloop. apply followLoop_visited in Hloop.
  - set_solver.
  - intros f nm v s o Ho. by apply IH in Ho as [? _].
Qed.

Lemma followLoop_resolved_key recur F X result exps visited (st : St) r v' s' :
  ExportResolver.visitKey F X ∈ visited →
  (∀ f n v s o, recur f n v s = Some o → v ⊆ o.1.2) →
  (∀ f n v s r v' s', recur f n v s = Some (Some r, v', s') →
     ExportResolver.visitKey (resolvedFile r) (originalName r) ∈ v') →
  ExportResolver.followLoop resolve recur F X result exps visited st
  = Some (Some r, v', s') →
  ExportResolver.visitKey (resolvedFile r) (originalName r) ∈ v'.
Proof.
  intros Hkey Hmono Hrec. revert visited st Hkey.
  induction exps as [|exp rest IH]; intros visited st Hkey; simpl; [done|].
  destruct (exp_kind exp).
  - destruct (_ && _); [|by apply IH].
    destruct (Js.truthy (resolve _ _)); [|by apply IH].
    destruct (recur _ _ visited st) as [[[[r0|] v0] s0]|] eqn:E; [| |done].
    + intros [= <- <- <-]. apply (Hrec _ _ _ _ _ _ _ E).
    + apply IH. apply Hmono in E. simpl in E. set_solver.
  - destruct (_ && _); [|by apply IH].
    destruct (List.find _ _); [|by apply IH]. by intros [= <- <- <-].
  - destruct (Js.truthy (source exp)); [|by apply IH].
    destruct (Js.truthy (resolve _ _)); [|by apply IH].
    destruct (recur _ _ visited st) as [[[[r0|] v0] s0]|] eqn:E; [| |done].
    + intros [= <- <- <-]. apply (Hrec _ _ _ _ _ _ _ E).
    + apply IH. apply Hmono in E. simpl in E. set_solver.
Qed.

Lemma followExport_fuel_resolved_key fuel F X visited depth st r v' s' :
  ExportResolver.followExport_fuel parseFile resolve fuel F X visited depth st
  = Some (Some r, v', s') →
  ExportResolver.visitKey (resolvedFile r) (originalName r) ∈ v'.
Proof.
  revert F X visited depth st r v' s'.
  induction fuel as [|fuel IH]; intros F X visited depth st r v' s'; [done|].
  simpl. destruct (ExportResolver.MAX_DEPTH <? depth)%nat eqn:Hd; [done|].
  destruct (decide (_ ∈ visited)); [done|].
  destruct (parseFile F st) as [result st1].
  destruct (0 <? length (errors result))%nat; [done|].
  destruct (List.find _ _) as [s|].
  - intros [= <- <- <-]. simpl. set_solver.
  - apply followLoop_resolved_key.
    + set_solver.
    + intros f nm v s o Ho. by apply followExport_fuel_visited in Ho as [? _].
    + intros f nm v s r0 v0 s0. apply IH.
Qed.

End WalkShape.

(** X13: what a successful [followExport] returns. Whenever the result is
    not [null]: [originalFile] and [resolvedFile] are the same file (the one
    where the walk ended, not the one asked); a symbol is attached and it
    bears the name the walk was looking for in that file, unless that name
    is [default]; the export chain starts with the asked file, ends with
    the resolved file, and has at most [MAX_DEPTH + 1 - depth] entries. *)
Theorem followExport_result_shape
    {St : Type} (parseFile : string → St → ParseResult * St)
    (resolve : string → string → option string)
    (filePath exported : string) (visited : gset string) (depth : nat) (st : St)
    (r : ResolvedExport) (visited' : gset string) (st' : St) :
  ExportResolver.followExport parseFile resolve filePath exported visited depth st
  = Some (Some r, visited', st') →
  originalFile r = resolvedFile r
  ∧ (∃ s, resolvedSymbol r = Some s
          ∧ (name s = originalName r ∨ originalName r = "default"))
  ∧ head (exportChain r) = Some filePath
  ∧ last (exportChain r) = Some (resolvedFile r)
  ∧ (length (exportChain r) + depth ≤ ExportResolver.MAX_DEPTH + 1)%nat.
Proof. apply followExport_fuel_shape. Qed.

(** X14: the visited set only grows. Whatever [followExport] returns, the
    visited set it leaves contains the one it was given; unless the depth
    guard fired it contains the key of the asked file and name; and for a
    non-null result it contains the key of the resolved file and the name
    found there. *)
Theorem followExport_visited_grows
    {St : Type} (parseFile : string → St → ParseResult * St)
    (resolve : string → string → option string)
    (filePath exported : string) (visited : gset string) (depth : nat) (st : St)
    (res : option ResolvedExport) (visited' : gset string) (st' : St) :
  ExportResolver.followExport parseFile resolve filePath exported visited depth st
  = Some (res, visited', st') →
  visited ⊆ visited'
  ∧ ((depth ≤ ExportResolver.MAX_DEPTH)%nat →
     ExportResolver.visitKey filePath exported ∈ visited')
  ∧ (∀ r, res = Some r →
          ExportResolver.visitKey (resolvedFile r) (originalName r) ∈ visited').
Proof.
  intros Hrun. pose proof (followExport_fuel_visited _ _ _ _ _ _ _ _ _ Hrun) as [H1 H2].
  split; [done|]. split; [done|].
  intros r ->. by apply (followExport_fuel_resolved_key _ _ _ _ _ _ _ _ _ _ _ Hrun).
Qed.

Lemma loop_parse_preserves f s :
  cacheCoherent loopExtract loopFs s →
  cacheCoherent loopExtract loopFs (Index.parseFile loopRegistry loopFs s f).2.
Proof.
  intros Hs. unfold loopRegistry.
  destruct (Index_parseFile_typescript_only loopExtract loopFs s f) as [-> | ->];
    [by apply parseFile_coherent|done].
Qed.

Lemma loop_parse_outcome f s :
  f ∈ ["p.ts"; "q.ts"; "r.ts"; "s.ts"] →
  cacheCoherent loopExtract loopFs s →
  (Index.parseFile loopRegistry loopFs s f).1 = outcomeOfDisk loopExtract loopFs f.
Proof.
  intros Hf Hs.
  assert (Index.parseFile loopRegistry loopFs s f
          = Extractor.parseFile loopExtract loopFs s f) as ->.
  { set_unfold. destruct Hf as [->|[->|[->|[->|[]]]]]; reflexivity. }
  by apply parseFile_coherent.
Qed.

Lemma followExport_rename_on_disk_run :
  ∃ visited' cache',
    ExportResolver.followExport
      (λ p c, Index.parseFile loopRegistry loopFs c p)
      (ExportResolver.resolveModulePath loopPaths loopFs) "s.ts" "outer" ∅ 0 ∅
    = Some (Some {| originalFile := "r.ts"; originalName := "inner";
                    resolvedFile := "r.ts";
                    resolvedSymbol := Some (chainSymbol "inner" "r.ts" 1);
                    exportChain := ["s.ts"; "r.ts"] |}, visited', cache').
Proof.
  destruct (ExportResolver.followExport
              (λ p c, Index.parseFile loopRegistry loopFs c p)
              (ExportResolver.resolveModulePath loopPaths loopFs) "s.ts" "outer" ∅ 0 ∅)
    as [[[res v'] c']|] eqn:E; vm_compute in E; [|discriminate].
  injection E as <- <- <-. by eexists _, _.
Qed.

Lemma followExport_result_shape_witness :
  let r := {| originalFile := "r.ts"; originalName := "inner";
              resolvedFile := "r.ts";
              resolvedSymbol := Some (chainSymbol "inner" "r.ts" 1);
              exportChain := ["s.ts"; "r.ts"] |} in
  originalFile r = resolvedFile r
  ∧ (∃ s, resolvedSymbol r = Some s
          ∧ (name s = originalName r ∨ originalName r = "default"))
  ∧ head (exportChain r) = Some "s.ts"
  ∧ last (exportChain r) = Some (resolvedFile r)
  ∧ (length (exportChain r) + 0 ≤ ExportResolver.MAX_DEPTH + 1)%nat.
Proof.
  intros r. destruct followExport_rename_on_disk_run as (v' & c' & E).
  exact (followExport_result_shape _ _ _ _ _ _ _ r v' c' E).
Defined.

Lemma followExport_visited_grows_witness :
  ∃ visited' : gset string,
    ∅ ⊆ visited'
    ∧ ((0 ≤ ExportResolver.MAX_DEPTH)%nat →
       ExportResolver.visitKey "s.ts" "outer" ∈ visited')
    ∧ (∀ r, Some {| originalFile := "r.ts"; originalName := "inner";
                    resolvedFile := "r.ts";
                    resolvedSymbol := Some (chainSymbol "inner" "r.ts" 1);
                    exportChain := ["s.ts"; "r.ts"] |} = Some r →
            ExportResolver.visitKey (resolvedFile r) (originalName r) ∈ visited').
Proof.
  destruct followExport_rename_on_disk_run as (v' & c' & E). exists v'.
  exact (followExport_visited_grows _ _ _ _ _ _ _ _ v' c' E).
Defined.

Section WalkHops.

Context {St : Type}.
Variable parseFile : string → St → ParseResult * St.
Variable resolve : string → string → option string.

Lemma followExport_local_hit fuel F X s visited depth st :
  (depth ≤ ExportResolver.MAX_DEPTH)%nat →
  ExportResolver.visitKey F X ∉ visited →
  declaresFirst (parseFile F st).1 X s →
  ExportResolver.followExport_fuel parseFile resolve (S fuel) F X visited depth st
  = Some (Some (ExportResolver.localHit F X s),
          {[ExportResolver.visitKey F X]} ∪ visited, (parseFile F st).2).
Proof.
  intros Hd Hv [Herr Hfind]. simpl.
  apply Nat.ltb_ge in Hd. rewrite Hd. rewrite decide_False by done.
  destruct (parseFile F st) as [r st1]. simpl in *. rewrite Herr. simpl.
  by rewrite Hfind.
Qed.

Lemma followExport_rename_step fuel A B X Y src visited depth st r v' s' :
  (depth ≤ ExportResolver.MAX_DEPTH)%nat →
  ExportResolver.visitKey A Y ∉ visited →
  reexportsRenamed (parseFile A st).1 Y X src →
  src ≠ "" → resolve A src = Some B → B ≠ "" →
  ExportResolver.followExport_fuel parseFile resolve fuel B X
    ({[ExportResolver.visitKey A Y]} ∪ visited) (S depth) (parseFile A st).2
  = Some (Some r, v', s') →
  ExportResolver.followExport_fuel parseFile resolve (S fuel) A Y visited depth st
  = Some (Some (ExportResolver.unshiftChain A r), v', s').
Proof.
  intros Hd Hv (Herr & Hsym & e & Hexp & Hk & Hn & Hl & Hs) Hsrc Hres HB Hrec.
  simpl. apply Nat.ltb_ge in Hd. rewrite Hd. rewrite decide_False by done.
  destruct (parseFile A st) as [res st1]. simpl in *. rewrite Herr. simpl.
  rewrite (find_name_none _ _ Hsym), Hexp.
  cbn [ExportResolver.followLoop]. rewrite Hk, Hn, Hs, Hl.
  rewrite bool_decide_eq_true_2 by done.
  destruct src as [|c src]; [done|].
  cbn [andb Js.truthy default from_option id]. rewrite Hres.
  destruct B as [|b B]; [done|].
  cbn [Js.truthy default from_option id]. by rewrite Hrec.
Qed.

Lemma followExport_rename_hop (Inv : St → Prop) A B X Y src s st :
  (∀ f s, Inv s → Inv (parseFile f s).2) →
  Inv st →
  (∀ s, Inv s → reexportsRenamed (parseFile A s).1 Y X src) →
  (∀ s', Inv s' → declaresFirst (parseFile B s').1 X s) →
  src ≠ "" → resolve A src = Some B → B ≠ "" →
  ExportResolver.visitKey B X ≠ ExportResolver.visitKey A Y →
  ExportResolver.followExport parseFile resolve A Y ∅ 0 st
  = Some (Some {| originalFile := B; originalName := X; resolvedFile := B;
                  resolvedSymbol := Some s; exportChain := [A; B] |},
          {[ExportResolver.visitKey B X]} ∪ ({[ExportResolver.visitKey A Y]} ∪ ∅),
          (parseFile B (parseFile A st).2).2).
Proof.
  intros Hpres Hst HA HB Hsrc Hres HBne Hkeys.
  unfold ExportResolver.followExport.
  change (ExportResolver.enoughFuel 0) with (S 11).
  apply (followExport_rename_step 11 A B X Y src ∅ 0 st
           (ExportResolver.localHit B X s)); try done.
  - unfold ExportResolver.MAX_DEPTH. lia.
  - by apply HA.
  - apply followExport_local_hit.
    + unfold ExportResolver.MAX_DEPTH. lia.
    + rewrite elem_of_union, elem_of_singleton. by intros [?|?%elem_of_empty].
    + by apply HB, Hpres.
Qed.

End WalkHops.

(** X15: a renamed re-export is followed under the local name. When [A]
    holds [export { X as Y } from src], [src] resolves from [A] to the
    file [B], and [B] declares [X] (in every state of the parse cache
    satisfying an invariant that [parseFile] preserves), then looking up
    [Y] in [A] resolves to [B]'s symbol [X] with the export chain
    [[A; B]], and [resolveSymbolThroughExports] returns that symbol. The
    visited keys [B:X] and [A:Y] must differ as strings. *)
Theorem followExport_follows_rename
    {St : Type} (parseFile : string → St → ParseResult * St)
    (resolve : string → string → option string)
    (Inv : St → Prop) (A B X Y src : string) (s : SymbolInfo) (st : St) :
  (∀ f s, Inv s → Inv (parseFile f s).2) →
  Inv st →
  (∀ s, Inv s → reexportsRenamed (parseFile A s).1 Y X src) →
  (∀ s', Inv s' → declaresFirst (parseFile B s').1 X s) →
  src ≠ "" → resolve A src = Some B → B ≠ "" →
  ExportResolver.visitKey B X ≠ ExportResolver.visitKey A Y →
  ∃ st',
    ExportResolver.followExport parseFile resolve A Y ∅ 0 st
    = Some (Some {| originalFile := B; originalName := X; resolvedFile := B;
                    resolvedSymbol := Some s; exportChain := [A; B] |},
            {[ExportResolver.visitKey B X]} ∪ ({[ExportResolver.visitKey A Y]} ∪ ∅),
            st')
    ∧ ExportResolver.resolveSymbolThroughExports parseFile resolve A Y st
      = Some (Some s, st').
Proof.
  intros Hpres Hst HA HB Hsrc Hres HBne Hkeys. eexists.
  unfold ExportResolver.resolveSymbolThroughExports.
  rewrite (followExport_rename_hop parseFile resolve Inv A B X Y src s st); done.
Qed.

Lemma followExport_follows_rename_witness :
  ∃ cache',
    ExportResolver.followExport
      (λ p c, Index.parseFile loopRegistry loopFs c p)
      (ExportResolver.resolveModulePath loopPaths loopFs) "s.ts" "outer" ∅ 0 ∅
    = Some (Some {| originalFile := "r.ts"; originalName := "inner";
                    resolvedFile := "r.ts";
                    resolvedSymbol := Some (chainSymbol "inner" "r.ts" 1);
                    exportChain := ["s.ts"; "r.ts"] |},
            {[ExportResolver.visitKey "r.ts" "inner"]}
              ∪ ({[ExportResolver.visitKey "s.ts" "outer"]} ∪ ∅),
            cache')
    ∧ ExportResolver.resolveSymbolThroughExports
        (λ p c, Index.parseFile loopRegistry loopFs c p)
        (ExportResolver.resolveModulePath loopPaths loopFs) "s.ts" "outer" ∅
      = Some (Some (chainSymbol "inner" "r.ts" 1), cache').
Proof.
  apply (followExport_follows_rename
           (λ p c, Index.parseFile loopRegistry loopFs c p)
           (ExportResolver.resolveModulePath loopPaths loopFs)
           (cacheCoherent loopExtract loopFs) "s.ts" "r.ts" "inner" "outer" "./r").
  - intros f s. apply loop_parse_preserves.
  - apply cacheCoherent_empty.
  - intros s Hs. simpl. rewrite loop_parse_outcome; [|set_solver|done].
    split; [done|]. split; [by intros x Hx%elem_of_nil|].
    exists loopRename. by repeat split.
  - intros s Hs. simpl. rewrite loop_parse_outcome; [|set_solver|done].
    by split.
  - discriminate.
  - reflexivity.
  - discriminate.
  - discriminate.
Defined.

Lemma append_empty_r (s : string) : s +:+ "" = s.
Proof.
  induction s as [|c s IH]; [done|].
  change (String c s +:+ "") with (String c (s +:+ "")). by rewrite IH.
Qed.

(** X16: module specifiers are resolved against ten candidates in a fixed
    order: the specifier with [.ts], [.tsx], [.js], [.jsx] appended, the
    specifier itself, then [index.ts], [index.tsx], [index.js],
    [index.jsx] and [index] inside it. The result is the
    workspace-relative form of the first candidate that is a file, and
    [null] when none is. *)
Theorem resolveModulePath_first_candidate
    (pe : PathEnv) (fs : FileSystem) (fromFile importPath : string) :
  let dir := dirname pe (toAbsolute fs fromFile) in
  ExportResolver.resolveModulePath pe fs fromFile importPath
  = relative pe (getWorkspaceRoot pe)
    <$> List.find (isFile pe)
          [join pe [dir; importPath +:+ ".ts"]; join pe [dir; importPath +:+ ".tsx"];
           join pe [dir; importPath +:+ ".js"]; join pe [dir; importPath +:+ ".jsx"];
           join pe [dir; importPath];
           join pe [dir; importPath; "index.ts"]; join pe [dir; importPath; "index.tsx"];
           join pe [dir; importPath; "index.js"]; join pe [dir; importPath; "index.jsx"];
           join pe [dir; importPath; "index"]].
Proof.
  intros dir. unfold ExportResolver.resolveModulePath. fold dir.
  cbn [List.find]. rewrite !append_empty_r.
  change ("index" +:+ ".ts") with "index.ts".
  change ("index" +:+ ".tsx") with "index.tsx".
  change ("index" +:+ ".js") with "index.js".
  change ("index" +:+ ".jsx") with "index.jsx".
  do 4 (match goal with
        | |- context [if isFile pe ?c then _ else _] =>
            destruct (isFile pe c); [done|]
        end).
  destruct (isFile pe (join pe [dir; importPath])); [by rewrite append_empty_r|].
  do 5 (match goal with
        | |- context [if isFile pe ?c then _ else _] =>
            destruct (isFile pe c); [done|]
        end).
  done.
Qed.

Section CycleFacts.

Context {St : Type}.
Variable parseFile : string → St → ParseResult * St.
Variable resolve : string → string → option string.

Lemma getAll_wildcard_cycle (Inv : St → Prop) A B srcA srcB symsA symsB st :
  (∀ f s, Inv s → Inv (parseFile f s).2) →
  Inv st →
  A ≠ B → A ≠ "" → B ≠ "" → srcA ≠ "" → srcB ≠ "" →
  (∀ s, Inv s → wildcardTo (parseFile A s).1 symsA srcB) →
  (∀ s, Inv s → wildcardTo (parseFile B s).1 symsB srcA) →
  resolve A srcB = Some B →
  resolve B srcA = Some A →
  ExportResolver.getAllReexportedSymbols parseFile resolve A ∅ 0 st
  = Some (symsA ++ symsB, {[B]} ∪ ({[A]} ∪ ∅), (parseFile B (parseFile A st).2).2).
Proof.
  intros Hpres Hst HAB HA HB HsA HsB HpA HpB HrA HrB.
  pose proof (Hpres A st Hst) as Hst1.
  unfold ExportResolver.getAllReexportedSymbols.
  change (ExportResolver.enoughFuel 0) with (S 11).
  apply (getAll_wildcardTo parseFile resolve 11 A B symsA srcB); try done.
  { unfold ExportResolver.MAX_DEPTH. lia. }
  { by apply HpA. }
  rewrite <- (app_nil_r symsB).
  apply (getAll_wildcardTo parseFile resolve 10 B A symsB srcA); try done.
  { unfold ExportResolver.MAX_DEPTH. lia. }
  { rewrite elem_of_union, elem_of_singleton. by intros [?|?%elem_of_empty]. }
  { by apply HpB. }
  simpl. rewrite decide_True; [done|]. set_solver.
Qed.

End CycleFacts.

(** X17: a cycle of wildcard records is cut by the visited-file set. When
    the parse of [A] holds one export record of kind [all] whose source
    resolves to [B], and the parse of [B] one whose source resolves back
    to [A] (in every state of the parse cache satisfying an invariant that
    [parseFile] preserves), [getAllReexportedSymbols] of [A] returns the
    symbols of [A] followed by those of [B], each once, and has visited
    exactly the two files. The extractor records kind [all] for
    [export * as ns from]; the witness is a pair of files that re-export
    each other in that form. *)
Theorem getAllReexportedSymbols_cuts_cycle
    {St : Type} (parseFile : string → St → ParseResult * St)
    (resolve : string → string → option string)
    (Inv : St → Prop) (A B srcA srcB : string) (symsA symsB : list SymbolInfo)
    (st : St) :
  (∀ f s, Inv s → Inv (parseFile f s).2) →
  Inv st →
  A ≠ B → A ≠ "" → B ≠ "" → srcA ≠ "" → srcB ≠ "" →
  (∀ s, Inv s → wildcardTo (parseFile A s).1 symsA srcB) →
  (∀ s, Inv s → wildcardTo (parseFile B s).1 symsB srcA) →
  resolve A srcB = Some B →
  resolve B srcA = Some A →
  ∃ st',
    ExportResolver.getAllReexportedSymbols parseFile resolve A ∅ 0 st
    = Some (symsA ++ symsB, {[B]} ∪ ({[A]} ∪ ∅), st').
Proof.
  intros Hpres Hst HAB HA HB HsA HsB HpA HpB HrA HrB. eexists.
  exact (getAll_wildcard_cycle parseFile resolve Inv A B srcA srcB symsA symsB st
           Hpres Hst HAB HA HB HsA HsB HpA HpB HrA HrB).
Qed.

Lemma getAllReexportedSymbols_cuts_cycle_witness :
  ∃ cache',
    ExportResolver.getAllReexportedSymbols
      (λ p c, Index.parseFile loopRegistry loopFs c p)
      (ExportResolver.resolveModulePath loopPaths loopFs) "p.ts" ∅ 0 ∅
    = Some (loopSymsP ++ loopSymsQ, {["q.ts"]} ∪ ({["p.ts"]} ∪ ∅), cache').
Proof.
  apply (getAllReexportedSymbols_cuts_cycle
           (λ p c, Index.parseFile loopRegistry loopFs c p)
           (ExportResolver.resolveModulePath loopPaths loopFs)
           (cacheCoherent loopExtract loopFs) "p.ts" "q.ts" "./p" "./q").
  - intros f s. apply loop_parse_preserves.
  - apply cacheCoherent_empty.
  - discriminate.
  - discriminate.
  - discriminate.
  - discriminate.
  - discriminate.
  - intros s Hs. simpl. rewrite loop_parse_outcome; [|set_solver|done].
    split; [done|]. split; [done|].
    eexists [_], _, []. split; [reflexivity|].
    repeat split. by repeat constructor.
  - intros s Hs. simpl. rewrite loop_parse_outcome; [|set_solver|done].
    split; [done|]. split; [done|].
    eexists [], _, [_]. split; [reflexivity|].
    repeat split. by repeat constructor.
  - reflexivity.
  - reflexivity.
Defined.

(** ** Fuzzy search: query variants and alias targets *)

Lemma is_lower_facts c :
  Js.is_lower c = true →
  Js.is_upper c = false ∧ Fuzzy.is_space c = false ∧ c ≠ "-"%char
  ∧ Js.lower_char c = c ∧ Js.upper_char c ≠ c.
Proof.
  destruct c as [[] [] [] [] [] [] [] []]; vm_compute; intros H;
    try discriminate H; repeat split; congruence.
Qed.

Lemma toLowerCase_lowerWord s : lowerWord s → Js.toLowerCase s = s.
Proof.
  induction s as [|c s IH]; [done|]. intros [Hc Hs]. simpl.
  destruct (is_lower_facts c Hc) as (_ & _ & _ & -> & _). by rewrite IH.
Qed.

Lemma stripSpaces_lowerWord s : lowerWord s → Fuzzy.stripSpaces s = s.
Proof.
  induction s as [|c s IH]; [done|]. intros [Hc Hs]. simpl.
  destruct (is_lower_facts c Hc) as (_ & -> & _). by rewrite IH.
Qed.

Lemma kebabToCamel_lowerWord s : lowerWord s → Fuzzy.kebabToCamel s = s.
Proof.
  induction s as [|c s IH]; [done|]. intros [Hc Hs].
  cbn [Fuzzy.kebabToCamel]. destruct s as [|d s]; [done|].
  destruct (is_lower_facts c Hc) as (_ & _ & Hdash & _).
  rewrite bool_decide_eq_false_2 by done. cbn [andb]. by rewrite IH.
Qed.

Lemma hyphenate_lowerWord s : lowerWord s → Fuzzy.hyphenate s = s.
Proof.
  induction s as [|c s IH]; [done|]. intros [Hc Hs].
  cbn [Fuzzy.hyphenate]. destruct s as [|d s]; [done|].
  destruct Hs as [Hd Hs'].
  destruct (is_lower_facts d Hd) as (-> & _). rewrite andb_false_r.
  rewrite IH; [done|by split].
Qed.

Lemma filter_filter_same {A} (P : A → bool) l :
  List.filter P (List.filter P l) = List.filter P l.
Proof.
  induction l as [|x l IH]; [done|]. simpl.
  destruct (P x) eqn:HP; [|done]. simpl. by rewrite HP, IH.
Qed.

Lemma uniq_cons_same q l : Fuzzy.uniq (q :: q :: l) = Fuzzy.uniq (q :: l).
Proof.
  cbn [Fuzzy.uniq List.filter]. rewrite bool_decide_eq_true_2 by done.
  cbn [negb]. by rewrite filter_filter_same.
Qed.

Lemma length_uniq_le l : (length (Fuzzy.uniq l) ≤ length l)%nat.
Proof.
  induction l as [|x l IH]; simpl; [lia|].
  pose proof (List.filter_length_le (λ y, negb (bool_decide (y = x))) (Fuzzy.uniq l)).
  lia.
Qed.

(** X18: the query variants of a query made of ASCII characters.
    [normalizeQuery] returns between one and six distinct variants, the
    query itself first, and exactly the distinct values among the query,
    its lower-case form, its form without white space, its camel-case,
    kebab-case and capitalised forms. For a non-empty word of lower-case
    letters all but the capitalised form coincide, so exactly two variants
    are searched: the word and the word capitalised. *)
Theorem normalizeQuery_variants (query : string) :
  isAscii query →
  NoDup (Fuzzy.normalizeQuery query)
  ∧ head (Fuzzy.normalizeQuery query) = Some query
  ∧ (length (Fuzzy.normalizeQuery query) ≤ 6)%nat
  ∧ (∀ v, v ∈ Fuzzy.normalizeQuery query
          ↔ v ∈ [query; Js.toLowerCase query; Fuzzy.stripSpaces query;
                 Fuzzy.kebabToCamel query; Fuzzy.camelToKebab query;
                 Fuzzy.pascal query])
  ∧ (lowerWord query → query ≠ "" →
     Fuzzy.normalizeQuery query = [query; Fuzzy.pascal query]).
Proof.
  intros _. unfold Fuzzy.normalizeQuery.
  split; [apply NoDup_uniq|]. split; [done|].
  split; [apply (length_uniq_le [_; _; _; _; _; _])|].
  split; [intros v; apply elem_of_uniq|].
  intros Hw Hne. unfold Fuzzy.camelToKebab.
  rewrite hyphenate_lowerWord, toLowerCase_lowerWord, stripSpaces_lowerWord,
    kebabToCamel_lowerWord by done.
  rewrite !uniq_cons_same. cbn [Fuzzy.uniq List.filter].
  rewrite bool_decide_eq_false_2; [done|].
  destruct query as [|c q]; [done|]. destruct Hw as [Hc _].
  destruct (is_lower_facts c Hc) as (_ & _ & _ & _ & Hup).
  simpl. congruence.
Qed.

Lemma normalizeQuery_variants_witness :
  Fuzzy.normalizeQuery "render" = ["render"; Fuzzy.pascal "render"].
Proof.
  refine (proj2 (proj2 (proj2 (proj2 (normalizeQuery_variants "render" _)))) _ _).
  - repeat split; apply Nat.ltb_lt; reflexivity.
  - vm_compute. tauto.
  - discriminate.
Defined.

Lemma length_append s t :
  String.length (s +:+ t) = (String.length s + String.length t)%nat.
Proof.
  induction s as [|c s IH]; [done|].
  change (String c s +:+ t) with (String c (s +:+ t)). simpl. by rewrite IH.
Qed.

Lemma take_length_app w s : JsText.take (String.length w) (w +:+ s) = w.
Proof.
  induction w as [|c w IH]; [done|].
  change (String c w +:+ s) with (String c (w +:+ s)). simpl. by rewrite IH.
Qed.

Lemma take_length s : JsText.take (String.length s) s = s.
Proof. induction s as [|c s IH]; [done|]. simpl. by rewrite IH. Qed.

Lemma indexOf_noChar s c : noChar c s → JsText.indexOf s c = -1.
Proof.
  induction s as [|a s IH]; [done|]. intros [Hac Hs]. simpl.
  rewrite decide_False by done. by rewrite IH.
Qed.

Lemma indexOf_app_sep w s c :
  noChar c w → JsText.indexOf (w +:+ String c s) c = Z.of_nat (String.length w).
Proof.
  induction w as [|a w IH]; intros Hw.
  - change ("" +:+ String c s) with (String c s). simpl. by rewrite decide_True.
  - destruct Hw as [Hac Hw].
    change (String a w +:+ String c s) with (String a (w +:+ String c s)).
    cbn [JsText.indexOf]. rewrite decide_False by done. rewrite IH by done.
    cbn zeta. destruct (Z.of_nat (String.length w) <? 0) eqn:E; [lia|].
    simpl String.length. lia.
Qed.

(** X19: alias targets. A target [file#symbol] whose file part holds no
    [#] is split at that [#] into the file and the symbol (the symbol part
    may itself contain [#]); a target without [#] is a file with no
    symbol. *)
Theorem parseTarget_splits_at_first_hash (targetFile symbol target : string) :
  (noChar "#" targetFile →
   FuzzyRecall.parseTarget (targetFile +:+ "#" +:+ symbol) = (targetFile, Some symbol))
  ∧ (noChar "#" target → FuzzyRecall.parseTarget target = (target, None)).
Proof.
  split.
  - intros Hf. unfold FuzzyRecall.parseTarget.
    change (targetFile +:+ "#" +:+ symbol) with (targetFile +:+ String "#" symbol).
    rewrite indexOf_app_sep by done.
    destruct (Z.of_nat (String.length targetFile) =? -1) eqn:E;
      [apply Z.eqb_eq in E; lia|]. cbn [negb].
    unfold JsText.sliceFrom, JsText.slice.
    rewrite !length_append. simpl String.length.
    rewrite !clampIndex_inside by lia.
    f_equal.
    + rewrite Z.sub_0_r, Nat2Z.id. change (Z.to_nat 0) with 0%nat.
      cbn [Js.drop]. apply take_length_app.
    + f_equal.
      replace (Z.to_nat (Z.of_nat (String.length targetFile + S (String.length symbol))
                         - (Z.of_nat (String.length targetFile) + 1)))
        with (String.length symbol) by lia.
      replace (Z.to_nat (Z.of_nat (String.length targetFile) + 1))
        with (String.length (targetFile +:+ "#")) by (rewrite length_append; simpl; lia).
      replace (targetFile +:+ String "#" symbol) with ((targetFile +:+ "#") +:+ symbol).
      2:{ clear. induction targetFile as [|c w IH]; [done|].
          change ((String c w +:+ "#") +:+ symbol)
            with (String c ((w +:+ "#") +:+ symbol)).
          by rewrite IH. }
      rewrite drop_length_app. apply take_length.
  - intros Ht. unfold FuzzyRecall.parseTarget. by rewrite indexOf_noChar.
Qed.

Lemma parseTarget_splits_at_first_hash_witness :
  FuzzyRecall.parseTarget ("src/cards.ts" +:+ "#" +:+ "flipCard")
  = ("src/cards.ts", Some "flipCard")
  ∧ FuzzyRecall.parseTarget "src/cards.ts" = ("src/cards.ts", None).
Proof.
  split.
  - apply (proj1 (parseTarget_splits_at_first_hash "src/cards.ts" "flipCard" "x")).
    vm_compute. repeat split; discriminate.
  - apply (proj2 (parseTarget_splits_at_first_hash "x" "y" "src/cards.ts")).
    vm_compute. repeat split; discriminate.
Defined.

(** ** Fuzzy search: alias and text recall *)

Section AliasFacts.

Context {St : Type}.
Variable lookupAlias : string → list string.
Variable parseFile : string → St → ParseResult * St.

(** What an alias candidate produced for one of [targets] looks like. *)
Lemma aliasStep_inv (targets : list string) (P : FuzzyResult → Prop) acc target :
  (∀ r, r ∈ acc.1 → P r) →
  (∀ r, reasons r = ["alias_hit"] → is_Some (fz_symbol r) →
        (score r = 100 ∧ (FuzzyRecall.parseTarget target).2 = fz_symbol r
                       ∧ Js.truthy (fz_symbol r) = true)
        ∨ (score r = 95 ∧ fz_range r = "[1:100]"
           ∧ fz_file r = (FuzzyRecall.parseTarget target).1
           ∧ Js.truthy (FuzzyRecall.parseTarget target).2 = false) →
        P r) →
  (∀ r, r ∈ (FuzzyRecall.aliasStep parseFile acc target).1 → P r)
  ∧ (length (FuzzyRecall.aliasStep parseFile acc target).1 ≤ S (length acc.1))%nat.
Proof.
  intros Hacc Hnew. destruct acc as [results st]. unfold FuzzyRecall.aliasStep.
  destruct (FuzzyRecall.parseTarget target) as [targetFile symbol] eqn:Ht.
  destruct (parseFile targetFile st) as [parseResult st1].
  simpl in Hacc, Hnew.
  destruct (Js.truthy symbol) eqn:Hsym.
  - destruct (List.find _ _) as [matched|] eqn:Hfind; simpl; [|split; [done|lia]].
    apply find_some in Hfind as [_ Hname]. apply bool_decide_eq_true in Hname.
    split; [|rewrite length_app; simpl; lia].
    intros r [Hr|Hr%list_elem_of_singleton]%elem_of_app; [by apply Hacc|].
    subst r. rewrite <- Hname in Hsym.
    apply Hnew; [done|by eexists|]. left. by cbn [score fz_symbol].
  - destruct (symbols parseResult) as [|first rest]; simpl; [split; [done|lia]|].
    split; [|rewrite length_app; simpl; lia].
    intros r [Hr|Hr%list_elem_of_singleton]%elem_of_app; [by apply Hacc|].
    subst r. apply Hnew; simpl; [done|by eexists|]. by right.
Qed.

End AliasFacts.

(** X20: alias candidates. [aliasRecall] yields at most one candidate per
    target of the alias. Every candidate is tagged [alias_hit] and names a
    symbol; it either has score 1.0 and names the non-empty symbol part of
    one of the targets, or has score 0.95, the fixed range [[1:100]] and
    the file of a target whose symbol part is absent or empty. *)
Theorem aliasRecall_candidates
    {St : Type} (lookupAlias : string → list string)
    (parseFile : string → St → ParseResult * St) (query : string) (st : St) :
  let out := (FuzzyRecall.aliasRecall lookupAlias parseFile query st).1 in
  (length out ≤ length (lookupAlias query))%nat
  ∧ ∀ r, r ∈ out →
      reasons r = ["alias_hit"] ∧ is_Some (fz_symbol r)
      ∧ ∃ target, target ∈ lookupAlias query
          ∧ ((score r = 100 ∧ (FuzzyRecall.parseTarget target).2 = fz_symbol r
              ∧ Js.truthy (fz_symbol r) = true)
             ∨ (score r = 95 ∧ fz_range r = "[1:100]"
                ∧ fz_file r = (FuzzyRecall.parseTarget target).1
                ∧ Js.truthy (FuzzyRecall.parseTarget target).2 = false)).
Proof.
  intros out. subst out. unfold FuzzyRecall.aliasRecall.
  set (targets := lookupAlias query).
  set (P := λ r : FuzzyResult,
         reasons r = ["alias_hit"] ∧ is_Some (fz_symbol r)
         ∧ ∃ target, target ∈ targets
             ∧ ((score r = 100 ∧ (FuzzyRecall.parseTarget target).2 = fz_symbol r
                 ∧ Js.truthy (fz_symbol r) = true)
                ∨ (score r = 95 ∧ fz_range r = "[1:100]"
                   ∧ fz_file r = (FuzzyRecall.parseTarget target).1
                   ∧ Js.truthy (FuzzyRecall.parseTarget target).2 = false))).
  assert (∀ done todo acc,
            targets = done ++ todo →
            (∀ r, r ∈ acc.1 → P r) →
            (length acc.1 ≤ length done)%nat →
            (∀ r, r ∈ (foldl (FuzzyRecall.aliasStep parseFile) acc todo).1 → P r)
            ∧ (length (foldl (FuzzyRecall.aliasStep parseFile) acc todo).1
               ≤ length targets)%nat) as Hloop.
  { intros done todo. revert done.
    induction todo as [|target todo IH]; intros done acc Htargets Hacc Hlen.
    - simpl. split; [done|]. rewrite Htargets, length_app. simpl. lia.
    - cbn [foldl].
      destruct (aliasStep_inv parseFile targets P acc target Hacc) as [HP Hl].
      { intros r Hr Hs Hcase. split; [done|]. split; [done|].
        exists target. split; [|done]. rewrite Htargets. set_solver. }
      apply (IH (done ++ [target])); [by rewrite <- app_assoc|done|].
      rewrite length_app. simpl. lia. }
  destruct (Hloop [] targets ([], st)) as [HP Hl]; [done|by intros r Hr%elem_of_nil|done|].
  split; [done|]. intros r Hr. by apply HP.
Qed.

Lemma allDigits_noChar c d :
  JsText.is_digit c = false → allDigits d → noChar c d.
Proof.
  intros Hc. induction d as [|a d IH]; [done|]. intros [Ha Hd].
  split; [|by apply IH]. intros ->. congruence.
Qed.

(** The ranges that the code builds from non-negative line numbers have
    the shape under which the dedup key of the merge determines the
    location. *)
Lemma formatRange_rangeShaped (a b : Z) :
  0 ≤ a → 0 ≤ b → rangeShaped (FileReader.formatRange a b).
Proof.
  intros Ha Hb. exists (pretty a), (pretty b). split; [done|].
  destruct (pretty_Z_digits a Ha) as (Hda & _ & _).
  destruct (pretty_Z_digits b Hb) as (Hdb & _ & _).
  split; by apply allDigits_noChar.
Qed.

Lemma textKey_inj m m' :
  0 ≤ rg_line m → 0 ≤ rg_line m' →
  FuzzyRecall.textKey m = FuzzyRecall.textKey m' →
  rg_file m = rg_file m' ∧ rg_line m = rg_line m'.
Proof.
  intros Hm Hm'. unfold FuzzyRecall.textKey, JsText.numberToString.
  destruct (pretty_Z_digits _ Hm) as (Hd & _ & Hp).
  destruct (pretty_Z_digits _ Hm') as (Hd' & _ & Hp').
  change (rg_file m +:+ ":" +:+ pretty (rg_line m))
    with (rg_file m +:+ String ":" (pretty (rg_line m))).
  change (rg_file m' +:+ ":" +:+ pretty (rg_line m'))
    with (rg_file m' +:+ String ":" (pretty (rg_line m'))).
  intros [Hf Hl]%app_sep_inj; [|by apply allDigits_noChar..].
  split; [done|]. by rewrite <- Hp, <- Hp', Hl.
Qed.

Lemma textCandidate_range m :
  1 ≤ rg_line m →
  FileReader.parseRange (fz_range (FuzzyRecall.textCandidate m))
  = Some (Z.max 1 (rg_line m - 5), rg_line m + 10).
Proof.
  intros Hm. unfold FuzzyRecall.textCandidate. cbn [fz_range].
  rewrite parseRange_formatRange_eq.
  rewrite (proj2 (Z.leb_le 0 _)) by lia. by rewrite (proj2 (Z.leb_le 0 _)) by lia.
Qed.

Lemma textCandidate_dedupKey_inj m m' :
  1 ≤ rg_line m → 1 ≤ rg_line m' →
  Fuzzy.dedupKey (FuzzyRecall.textCandidate m)
  = Fuzzy.dedupKey (FuzzyRecall.textCandidate m') →
  FuzzyRecall.textKey m = FuzzyRecall.textKey m'.
Proof.
  intros Hm Hm' Hkey.
  assert (rg_file m = rg_file m') as Hfile.
  { revert Hkey. unfold Fuzzy.dedupKey, FuzzyRecall.textCandidate.
    cbn [fz_file fz_range]. unfold FileReader.formatRange, JsText.numberToString.
    set (s := Z.max 1 (rg_line m - 5)). set (s' := Z.max 1 (rg_line m' - 5)).
    set (e := rg_line m + 10). set (e' := rg_line m' + 10).
    destruct (pretty_Z_digits s ltac:(lia)) as (Hs & _ & _).
    destruct (pretty_Z_digits s' ltac:(lia)) as (Hs' & _ & _).
    destruct (pretty_Z_digits e ltac:(lia)) as (He & _ & _).
    destruct (pretty_Z_digits e' ltac:(lia)) as (He' & _ & _).
    change (rg_file m +:+ ":" +:+ "[" +:+ pretty s +:+ ":" +:+ pretty e +:+ "]")
      with (rg_file m +:+ (String ":" (String "[" (pretty s)))
                             +:+ String ":" (pretty e +:+ "]")).
    change (rg_file m' +:+ ":" +:+ "[" +:+ pretty s' +:+ ":" +:+ pretty e' +:+ "]")
      with (rg_file m' +:+ (String ":" (String "[" (pretty s')))
                             +:+ String ":" (pretty e' +:+ "]")).
    rewrite <- !append_assoc.
    intros [Hpre _]%app_sep_inj.
    - apply app_sep_inj in Hpre as [Hf _]; [done|..];
        (split; [done|by apply allDigits_noChar]).
    - apply noChar_app. split; [by apply allDigits_noChar|by split].
    - apply noChar_app. split; [by apply allDigits_noChar|by split]. }
  assert (rg_line m = rg_line m') as Hline.
  { unfold Fuzzy.dedupKey in Hkey.
    assert (fz_range (FuzzyRecall.textCandidate m)
            = fz_range (FuzzyRecall.textCandidate m')) as Hrange.
    { cbn [FuzzyRecall.textCandidate fz_file] in Hkey. rewrite Hfile in Hkey.
      apply append_inj_l in Hkey. by apply append_inj_l in Hkey. }
    pose proof (textCandidate_range m Hm) as H1.
    rewrite Hrange, (textCandidate_range m' Hm') in H1.
    injection H1 as _ H1. lia. }
  unfold FuzzyRecall.textKey. by rewrite Hfile, Hline.
Qed.

Lemma textCandidate_ext m m' :
  rg_file m = rg_file m' → rg_line m = rg_line m' →
  FuzzyRecall.textCandidate m = FuzzyRecall.textCandidate m'.
Proof. intros Hf Hl. unfold FuzzyRecall.textCandidate. by rewrite Hf, Hl. Qed.

(** What the loop of [textRecall] maintains: the candidates so far stem
    from matches whose keys are marked, every marked key has its
    candidate, and no two candidates share a dedup key. *)
Lemma textLoop_inv matches seen results :
  (∀ m, m ∈ matches → 1 ≤ rg_line m) →
  (∀ r, r ∈ results → ∃ m, 1 ≤ rg_line m ∧ FuzzyRecall.textKey m ∈ seen
                           ∧ r = FuzzyRecall.textCandidate m) →
  (∀ k, k ∈ seen → ∃ m, 1 ≤ rg_line m ∧ FuzzyRecall.textKey m = k
                        ∧ FuzzyRecall.textCandidate m ∈ results) →
  NoDup (Fuzzy.dedupKey <$> results) →
  let out := FuzzyRecall.textLoop matches seen results in
  (∀ r, r ∈ out → r ∈ results ∨ ∃ m, m ∈ matches ∧ r = FuzzyRecall.textCandidate m)
  ∧ (∀ r, r ∈ results → r ∈ out)
  ∧ (∀ m, m ∈ matches → FuzzyRecall.textCandidate m ∈ out)
  ∧ NoDup (Fuzzy.dedupKey <$> out).
Proof.
  revert seen results.
  induction matches as [|m rest IH]; intros seen results Hlines Hres Hseen Hnd out.
  { subst out. simpl. split; [by left|]. split; [done|]. split; [|done].
    by intros m Hm%elem_of_nil. }
  assert (1 ≤ rg_line m) as Hm by (apply Hlines; by left).
  assert (∀ x, x ∈ rest → 1 ≤ rg_line x) as Hrest by (intros x Hx; apply Hlines; by right).
  subst out. cbn [FuzzyRecall.textLoop].
  destruct (decide (FuzzyRecall.textKey m ∈ seen)) as [Hin|Hnin].
  - destruct (IH seen results Hrest Hres Hseen Hnd) as (H1 & H2 & H3 & H4).
    split; [|split; [done|split; [|done]]].
    + intros r Hr. destruct (H1 r Hr) as [?|(x & Hx & ->)]; [by left|].
      right. exists x. split; [by right|done].
    + intros x [->|Hx]%elem_of_cons; [|by apply H3].
      destruct (Hseen _ Hin) as (m0 & Hm0 & Hk & Hc). apply H2.
      destruct (textKey_inj m0 m ltac:(lia) ltac:(lia) Hk) as [Hf Hl].
      by rewrite <- (textCandidate_ext m0 m Hf Hl).
  - destruct (IH ({[FuzzyRecall.textKey m]} ∪ seen)
                (results ++ [FuzzyRecall.textCandidate m]) Hrest)
      as (H1 & H2 & H3 & H4).
    + intros r [Hr | ->%list_elem_of_singleton]%elem_of_app.
      * destruct (Hres r Hr) as (m0 & Hm0 & Hk & ->). exists m0. set_solver.
      * exists m. set_solver.
    + intros k [->%elem_of_singleton|Hk]%elem_of_union.
      * exists m. set_solver.
      * destruct (Hseen k Hk) as (m0 & Hm0 & Hk0 & Hc). exists m0. set_solver.
    + rewrite fmap_app. apply NoDup_app. split; [done|]. split; [|by apply NoDup_singleton].
      intros k Hk [= ->]%list_elem_of_singleton.
      apply list_elem_of_fmap in Hk as (r & Hkey & Hr).
      destruct (Hres r Hr) as (m0 & Hm0 & Hk0 & ->).
      apply Hnin. by rewrite (textCandidate_dedupKey_inj m m0 Hm Hm0 Hkey).
    + split; [|split; [|split; [|done]]].
      * intros r Hr. destruct (H1 r Hr) as [[? | ->%list_elem_of_singleton]%elem_of_app
                                            |(x & Hx & ->)].
        -- by left.
        -- right. exists m. split; [by left|done].
        -- right. exists x. split; [by right|done].
      * intros r Hr. apply H2. set_solver.
      * intros x [->|Hx]%elem_of_cons; [|by apply H3]. apply H2. set_solver.
Qed.

(** X21: text candidates. When the text search is fulfilled with matches
    on lines numbered from 1, [textRecall] yields, for every match, the
    candidate of its file with score 0.3, the tag [text_hit] and a range
    that parses back to the window from [max(1, line - 5)] to
    [line + 10]; it yields nothing else, and no two of its candidates
    share a dedup key, so the merge step never collapses two text hits. *)
Theorem textRecall_windows
    (searchPattern : string → option string → Z → Settled (list RipgrepMatch))
    (query : string) (scope : option string) (matches : list RipgrepMatch) :
  searchPattern query scope 50 = Fulfilled matches →
  (∀ m, m ∈ matches → 1 ≤ rg_line m) →
  ∃ results,
    FuzzyRecall.textRecall searchPattern query scope = Fulfilled results
    ∧ (∀ r, r ∈ results →
         score r = 30 ∧ reasons r = ["text_hit"]
         ∧ ∃ m, m ∈ matches ∧ fz_file r = rg_file m
             ∧ FileReader.parseRange (fz_range r)
               = Some (Z.max 1 (rg_line m - 5), rg_line m + 10))
    ∧ (∀ m, m ∈ matches → FuzzyRecall.textCandidate m ∈ results)
    ∧ NoDup (Fuzzy.dedupKey <$> results).
Proof.
  intros Hsearch Hlines. unfold FuzzyRecall.textRecall. rewrite Hsearch.
  eexists. split; [reflexivity|].
  destruct (textLoop_inv matches ∅ [] Hlines) as (H1 & _ & H3 & H4).
  { by intros r Hr%elem_of_nil. }
  { by intros k Hk%elem_of_empty. }
  { constructor. }
  split; [|done]. intros r Hr.
  destruct (H1 r Hr) as [Hnil%elem_of_nil|(m & Hm & ->)]; [done|].
  split; [done|]. split; [done|]. exists m. split; [done|]. split; [done|].
  apply textCandidate_range. by apply Hlines.
Qed.

Lemma textRecall_windows_witness :
  let hit (f : string) (l : Z) :=
    {| rg_file := f; rg_line := l; rg_column := 0; rg_text := "flipCard" |} in
  let matches := [hit "cards.ts" 3; hit "cards.ts" 40; hit "cards.ts" 3] in
  ∃ results,
    FuzzyRecall.textRecall (λ _ _ _, Fulfilled matches) "flipCard" None
    = Fulfilled results
    ∧ (∀ r, r ∈ results →
         score r = 30 ∧ reasons r = ["text_hit"]
         ∧ ∃ m, m ∈ matches ∧ fz_file r = rg_file m
             ∧ FileReader.parseRange (fz_range r)
               = Some (Z.max 1 (rg_line m - 5), rg_line m + 10))
    ∧ (∀ m, m ∈ matches → FuzzyRecall.textCandidate m ∈ results)
    ∧ NoDup (Fuzzy.dedupKey <$> results).
Proof.
  intros hit matches.
  apply (textRecall_windows (λ _ _ _, Fulfilled matches) "flipCard" None matches);
    [reflexivity|].
  intros m Hm. subst matches hit. set_unfold.
  destruct Hm as [->|[->|[->|[]]]]; simpl; lia.
Defined.

Lemma textRecall_run :
  FuzzyRecall.textRecall
    (λ _ _ _, Fulfilled
       [{| rg_file := "cards.ts"; rg_line := 3; rg_column := 0; rg_text := "a" |};
        {| rg_file := "cards.ts"; rg_line := 40; rg_column := 4; rg_text := "b" |};
        {| rg_file := "cards.ts"; rg_line := 3; rg_column := 9; rg_text := "a" |}])
    "flipCard" None
  = Fulfilled
      [{| fz_file := "cards.ts"; fz_range := "[1:13]"; fz_symbol := None;
          fz_kind := None; score := 30; reasons := ["text_hit"] |};
       {| fz_file := "cards.ts"; fz_range := "[35:50]"; fz_symbol := None;
          fz_kind := None; score := 30; reasons := ["text_hit"] |}].
Proof. vm_compute. reflexivity. Qed.

(** ** Fuzzy search: merging an already merged list *)

Lemma sortDesc_sorted_id (l : list FuzzyResult) :
  Sorted scoreDesc l → Fuzzy.sortDesc l = l.
Proof.
  induction 1 as [|x l Hsorted IH Hhd]; [done|]. simpl. rewrite IH.
  destruct Hhd as [|y l' Hxy]; [done|]. simpl.
  unfold scoreDesc in Hxy. destruct (score x <? score y) eqn:E; [lia|done].
Qed.

Lemma mergeAndSort_keys_sorted (results : list FuzzyResult) (limit : Z) :
  0 ≤ limit →
  NoDup (Fuzzy.dedupKey <$> Fuzzy.mergeAndSort results limit)
  ∧ Sorted scoreDesc (Fuzzy.mergeAndSort results limit).
Proof.
  intros Hlimit. unfold Fuzzy.mergeAndSort. rewrite slice0_nonneg by done.
  destruct (mergeMap_inv results) as (Hnd & _ & Hentries).
  assert (Fuzzy.dedupKey <$> (Fuzzy.mergeMap results).*2 = (Fuzzy.mergeMap results).*1)
    as Hkeys.
  { rewrite <- list_fmap_compose. apply list_fmap_ext.
    intros i [k v] Hi. simpl. apply list_elem_of_lookup_2 in Hi.
    by destruct (Hentries _ _ Hi). }
  split.
  - apply NoDup_fmap_take. rewrite (sortDesc_perm _). by rewrite Hkeys.
  - apply StronglySorted_Sorted, StronglySorted_take.
    apply Sorted_StronglySorted; [apply _|apply sortDesc_sorted].
Qed.

(** X22: merging is idempotent. For a non-negative limit, feeding the
    output of [mergeAndSort] back into [mergeAndSort] with the same limit
    returns it unchanged: its keys are already distinct, its order is
    already descending, and it is already within the limit. *)
Theorem mergeAndSort_idempotent (results : list FuzzyResult) (limit : Z) :
  0 ≤ limit →
  Fuzzy.mergeAndSort (Fuzzy.mergeAndSort results limit) limit
  = Fuzzy.mergeAndSort results limit.
Proof.
  intros Hlimit.
  destruct (mergeAndSort_keys_sorted results limit Hlimit) as [Hnd Hsorted].
  unfold Fuzzy.mergeAndSort at 1.
  rewrite mergeMap_distinct_keys, sortDesc_sorted_id, slice0_nonneg by done.
  unfold Fuzzy.mergeAndSort. rewrite slice0_nonneg by done.
  rewrite take_take. f_equal. lia.
Qed.

Lemma mergeAndSort_idempotent_witness :
  Fuzzy.mergeAndSort
    (Fuzzy.mergeAndSort [nominated 70 "definition_match"; nominated 90 "alias_hit"] 20) 20
  = Fuzzy.mergeAndSort [nominated 70 "definition_match"; nominated 90 "alias_hit"] 20.
Proof. apply mergeAndSort_idempotent. lia. Defined.

(** ** Symbol search *)

Lemma insertBy_perm {A} (cmp : A → A → Z) x l :
  SearchSymbol.insertBy cmp x l ≡ₚ x :: l.
Proof.
  induction l as [|y l IH]; simpl; [done|].
  destruct (0 <? cmp x y); [|done]. rewrite IH. apply Permutation_swap.
Qed.

Lemma sortBy_perm {A} (cmp : A → A → Z) l : SearchSymbol.sortBy cmp l ≡ₚ l.
Proof.
  induction l as [|x l IH]; simpl; [done|]. by rewrite insertBy_perm, IH.
Qed.

Lemma insertBy_sorted {A} (cmp : A → A → Z) x l :
  (∀ a b, 0 < cmp a b → cmp b a ≤ 0) →
  Sorted (λ a b, cmp a b ≤ 0) l →
  Sorted (λ a b, cmp a b ≤ 0) (SearchSymbol.insertBy cmp x l).
Proof.
  intros Hanti. induction 1 as [|y l Hsorted IH Hhd]; simpl.
  - by repeat constructor.
  - destruct (0 <? cmp x y) eqn:Hcmp.
    + apply Z.ltb_lt in Hcmp. constructor; [exact IH|].
      destruct Hhd as [|z l' Hz]; simpl.
      * constructor. by apply Hanti.
      * destruct (0 <? cmp x z); constructor; [done|]. by apply Hanti.
    + apply Z.ltb_ge in Hcmp. constructor; [by constructor|]. by constructor.
Qed.

Lemma sortBy_sorted {A} (cmp : A → A → Z) l :
  (∀ a b, 0 < cmp a b → cmp b a ≤ 0) →
  Sorted (λ a b, cmp a b ≤ 0) (SearchSymbol.sortBy cmp l).
Proof.
  intros Hanti. induction l as [|x l IH]; simpl; [constructor|].
  by apply insertBy_sorted.
Qed.

Lemma compare_cases query a b :
  let rank s := if bool_decide (name s = query) then 0 else 1 in
  let depth s := Z.of_nat (length (JsText.split (file s) "/")) in
  (rank a < rank b ∧ SearchSymbol.compare query a b < 0)
  ∨ (rank b < rank a ∧ 0 < SearchSymbol.compare query a b)
  ∨ (rank a = rank b ∧ SearchSymbol.compare query a b = depth a - depth b).
Proof.
  intros rank depth. subst rank depth. unfold SearchSymbol.compare. cbn beta.
  destruct (bool_decide (name a = query)), (bool_decide (name b = query)); simpl; lia.
Qed.

Lemma compare_antisym query a b :
  0 < SearchSymbol.compare query a b → SearchSymbol.compare query b a ≤ 0.
Proof.
  pose proof (compare_cases query a b) as Hab.
  pose proof (compare_cases query b a) as Hba. cbn zeta in *. lia.
Qed.

Lemma symbolOrder_trans query : Transitive (symbolOrder query).
Proof.
  intros a b c. unfold symbolOrder.
  pose proof (compare_cases query a b) as Hab.
  pose proof (compare_cases query b c) as Hbc.
  pose proof (compare_cases query a c) as Hac. cbn zeta in *. lia.
Qed.

Lemma symbolOrder_exact query a b :
  symbolOrder query a b → name b = query → name a = query.
Proof.
  unfold symbolOrder, SearchSymbol.compare. intros Hab Hb.
  rewrite (bool_decide_eq_true_2 _ Hb) in Hab.
  destruct (bool_decide (name a = query)) eqn:Ha; [by apply bool_decide_eq_true in Ha|].
  simpl in Hab. lia.
Qed.

(** What the loops of [searchSymbol] maintain: the collected symbols have
    distinct keys, all of them marked in the seen set. *)
Lemma pushNew_inv symbols seen allSymbols :
  NoDup (SearchSymbol.seenKey <$> allSymbols) →
  (∀ s, s ∈ allSymbols → SearchSymbol.seenKey s ∈ seen) →
  NoDup (SearchSymbol.seenKey <$> (SearchSymbol.pushNew symbols seen allSymbols).2)
  ∧ (∀ s, s ∈ (SearchSymbol.pushNew symbols seen allSymbols).2 →
          SearchSymbol.seenKey s ∈ (SearchSymbol.pushNew symbols seen allSymbols).1).
Proof.
  revert seen allSymbols.
  induction symbols as [|symbol rest IH]; intros seen allSymbols Hnd Hseen; simpl; [done|].
  destruct (decide (_ ∈ seen)) as [Hin|Hnin]; [by apply IH|].
  apply IH.
  - rewrite fmap_app. apply NoDup_app. split; [done|]. split; [|by apply NoDup_singleton].
    intros k Hk [= ->]%list_elem_of_singleton.
    apply list_elem_of_fmap in Hk as (s & Hkey & Hs). apply Hnin.
    rewrite Hkey. by apply Hseen.
  - intros s [Hs | ->%list_elem_of_singleton]%elem_of_app; [|set_solver].
    apply elem_of_union_r. by apply Hseen.
Qed.

Section SearchFacts.

Context {St : Type}.
Variable parseFileForSymbol :
  string → string → option SymbolKind → St → list SymbolInfo * St.
Variable resolveSymbolThroughExports : string → string → St → option SymbolInfo * St.

Lemma fileLoop_inv query type limit followExports candidateFiles seen allSymbols st :
  NoDup (SearchSymbol.seenKey <$> allSymbols) →
  (∀ s, s ∈ allSymbols → SearchSymbol.seenKey s ∈ seen) →
  NoDup (SearchSymbol.seenKey
           <$> (SearchSymbol.fileLoop parseFileForSymbol resolveSymbolThroughExports
                  query type limit followExports candidateFiles seen allSymbols st).1).
Proof.
  revert seen allSymbols st.
  induction candidateFiles as [|candidate rest IH]; intros seen allSymbols st Hnd Hseen;
    cbn [SearchSymbol.fileLoop]; [done|].
  destruct (parseFileForSymbol candidate query type st) as [symbols st1].
  destruct (pushNew_inv symbols seen allSymbols Hnd Hseen) as [Hnd1 Hseen1].
  destruct (SearchSymbol.pushNew symbols seen allSymbols) as [seen1 all1].
  simpl in Hnd1, Hseen1.
  assert (∃ seen2 all2 st2,
            (if followExports
             then let '(resolved, st0) := resolveSymbolThroughExports candidate query st1 in
                  match resolved with
                  | Some resolved =>
                      if decide (SearchSymbol.seenKey resolved ∈ seen1)
                      then (seen1, all1, st0)
                      else ({[SearchSymbol.seenKey resolved]} ∪ seen1,
                            all1 ++ [resolved], st0)
                  | None => (seen1, all1, st0)
                  end
             else (seen1, all1, st1)) = (seen2, all2, st2)
            ∧ NoDup (SearchSymbol.seenKey <$> all2)
            ∧ (∀ s, s ∈ all2 → SearchSymbol.seenKey s ∈ seen2))
    as (seen2 & all2 & st2 & -> & Hnd2 & Hseen2).
  { destruct followExports; [|by eexists _, _, _].
    destruct (resolveSymbolThroughExports candidate query st1) as [[resolved|] st0];
      [|by eexists _, _, _].
    destruct (decide (_ ∈ seen1)) as [Hin|Hnin]; [by eexists _, _, _|].
    eexists _, _, _. split; [done|]. split.
    - rewrite fmap_app. apply NoDup_app. split; [done|].
      split; [|by apply NoDup_singleton].
      intros k Hk [= ->]%list_elem_of_singleton.
      apply list_elem_of_fmap in Hk as (s & Hkey & Hs). apply Hnin.
      rewrite Hkey. by apply Hseen1.
    - intros s [Hs | ->%list_elem_of_singleton]%elem_of_app; [|set_solver].
      apply elem_of_union_r. by apply Hseen1. }
  destruct (limit * 2 <=? Z.of_nat (length all2)); [done|]. by apply IH.
Qed.

End SearchFacts.

(** X23: what [searchSymbol] returns. When the file search fails, so does
    [searchSymbol]; when it finds no file the result is empty and nothing
    is parsed. Otherwise, for a non-negative limit, the result holds at
    most [limit] symbols, no two with the same file, name and start line;
    it is ordered by the comparator (exact name matches first, then
    shallower paths), so every symbol listed before an exact match is
    itself an exact match. *)
Theorem searchSymbol_result
    {St : Type} (searchFiles : string → option string → Settled (list string))
    (parseFileForSymbol : string → string → option SymbolKind → St → list SymbolInfo * St)
    (resolveSymbolThroughExports : string → string → St → option SymbolInfo * St)
    (input : SearchSymbolInput) (st : St) :
  0 ≤ ss_limit input →
  match searchFiles (ss_query input) (ss_scope input) with
  | Rejected reason =>
      SearchSymbol.searchSymbol searchFiles parseFileForSymbol
        resolveSymbolThroughExports input st = (Rejected reason, st)
  | Fulfilled candidateFiles =>
      ∃ out st',
        SearchSymbol.searchSymbol searchFiles parseFileForSymbol
          resolveSymbolThroughExports input st = (Fulfilled out, st')
        ∧ (candidateFiles = [] → out = [] ∧ st' = st)
        ∧ (length out ≤ Z.to_nat (ss_limit input))%nat
        ∧ NoDup (SearchSymbol.seenKey <$> out)
        ∧ StronglySorted (symbolOrder (ss_query input)) out
        ∧ (∀ i j a b, out !! i = Some a → out !! j = Some b → (i < j)%nat →
                      name b = ss_query input → name a = ss_query input)
  end.
Proof.
  intros Hlimit. unfold SearchSymbol.searchSymbol.
  destruct (searchFiles (ss_query input) (ss_scope input)) as [candidateFiles|reason];
    [|done].
  destruct candidateFiles as [|candidate rest].
  { simpl. eexists _, _. split; [done|]. split; [done|]. split; [simpl; lia|].
    split; [constructor|]. split; [constructor|]. by intros i j a b Hi. }
  change (length (candidate :: rest) =? 0)%nat with false. cbv iota.
  pose proof (fileLoop_inv parseFileForSymbol resolveSymbolThroughExports
                (ss_query input) (ss_type input) (ss_limit input)
                (ss_followExports input) (candidate :: rest) ∅ [] st) as Hnd.
  destruct (SearchSymbol.fileLoop _ _ _ _ _ _ _ _ _ _) as [allSymbols st'].
  simpl in Hnd. eexists _, _. split; [done|]. split; [done|].
  rewrite slice0_nonneg by done.
  assert (StronglySorted (symbolOrder (ss_query input))
            (take (Z.to_nat (ss_limit input))
               (SearchSymbol.sortBy (SearchSymbol.compare (ss_query input)) allSymbols)))
    as Hsorted.
  { apply StronglySorted_take, Sorted_StronglySorted; [apply symbolOrder_trans|].
    apply (sortBy_sorted (SearchSymbol.compare (ss_query input))).
    apply compare_antisym. }
  split; [rewrite length_take; lia|]. split; [|split; [done|]].
  - apply NoDup_fmap_take. rewrite (sortBy_perm _ _). apply Hnd; [constructor|].
    by intros s Hs%elem_of_nil.
  - intros i j a b Hi Hj Hij Hb.
    apply (symbolOrder_exact (ss_query input) a b); [|done].
    revert Hsorted i j Hi Hj Hij. generalize (take (Z.to_nat (ss_limit input))
      (SearchSymbol.sortBy (SearchSymbol.compare (ss_query input)) allSymbols)).
    intros l Hl. induction Hl as [|x l Hl IH Hx]; intros i j Hi Hj Hij; [done|].
    destruct j as [|j]; [lia|]. simpl in Hj. destruct i as [|i].
    + simpl in Hi. injection Hi as ->. rewrite Forall_forall in Hx. apply Hx.
      by eapply list_elem_of_lookup_2.
    + simpl in Hi. apply (IH i j); [done|done|lia].
Qed.

Lemma searchSymbol_result_witness :
  let input := {| ss_query := "b1"; ss_type := None; ss_scope := None;
                  ss_limit := 20; ss_followExports := true |} in
  ∃ out st',
    SearchSymbol.searchSymbol
      (λ _ _, Fulfilled ["a.ts"; "b.ts"])
      (λ f q t c, Index.parseFileForSymbol chainRegistry chainFs c f q t)
      (λ f q c,
         default (None, c)
           (ExportResolver.resolveSymbolThroughExports
              (λ p c, Index.parseFile chainRegistry chainFs c p)
              (ExportResolver.resolveModulePath chainPaths chainFs) f q c))
      input ∅ = (Fulfilled out, st')
    ∧ (["a.ts"; "b.ts"] = [] → out = [] ∧ st' = ∅)
    ∧ (length out ≤ Z.to_nat (ss_limit input))%nat
    ∧ NoDup (SearchSymbol.seenKey <$> out)
    ∧ StronglySorted (symbolOrder (ss_query input)) out
    ∧ (∀ i j a b, out !! i = Some a → out !! j = Some b → (i < j)%nat →
                  name b = ss_query input → name a = ss_query input).
Proof.
  intros input.
  apply (searchSymbol_result
           (λ _ _, Fulfilled ["a.ts"; "b.ts"])
           (λ f q t c, Index.parseFileForSymbol chainRegistry chainFs c f q t)
           (λ f q c,
              default (None, c)
                (ExportResolver.resolveSymbolThroughExports
                   (λ p c, Index.parseFile chainRegistry chainFs c p)
                   (ExportResolver.resolveModulePath chainPaths chainFs) f q c))
           input ∅).
  simpl. lia.
Defined.

(** The same search evaluated: [b1] is declared in [b.ts] and reached from
    [a.ts] through its wildcard re-export; it is reported once. *)
Lemma searchSymbol_run :
  (SearchSymbol.searchSymbol
     (λ _ _, Fulfilled ["a.ts"; "b.ts"])
     (λ f q t c, Index.parseFileForSymbol chainRegistry chainFs c f q t)
     (λ f q c,
        default (None, c)
          (ExportResolver.resolveSymbolThroughExports
             (λ p c, Index.parseFile chainRegistry chainFs c p)
             (ExportResolver.resolveModulePath chainPaths chainFs) f q c))
     {| ss_query := "b1"; ss_type := None; ss_scope := None;
        ss_limit := 20; ss_followExports := true |} ∅).1
  = Fulfilled [chainSymbol "b1" "b.ts" 1].
Proof. vm_compute. reflexivity. Qed.

(** ** File search and ignore rules *)

Lemma filter_split {A} (P : A → bool) (l l1 : list A) (x : A) (l2 : list A) :
  List.filter P l = l1 ++ x :: l2 →
  ∃ k1 k2, l = k1 ++ x :: k2 ∧ List.filter P k1 = l1 ∧ List.filter P k2 = l2.
Proof.
  revert l1. induction l as [|b l IH]; intros l1; simpl.
  { by destruct l1. }
  destruct (P b) eqn:HP.
  - destruct l1 as [|c l1]; simpl.
    + intros [= -> <-]. by exists [], l.
    + intros [= -> H]. destruct (IH _ H) as (k1 & k2 & -> & <- & <-).
      exists (c :: k1), k2. simpl. by rewrite HP.
  - intros H. destruct (IH _ H) as (k1 & k2 & -> & <- & <-).
    exists (b :: k1), k2. simpl. by rewrite HP.
Qed.

(** [uniq] lists the elements in the order of their first occurrences. *)
Lemma uniq_order (l l1 : list string) (x : string) (l2 : list string) (y : string) :
  Fuzzy.uniq l = l1 ++ x :: l2 → y ∈ l2 →
  ∃ before after, l = before ++ x :: after ∧ y ∉ before.
Proof.
  revert l1 l2. induction l as [|a l IH]; intros l1 l2; simpl.
  { by destruct l1. }
  destruct l1 as [|c l1]; simpl.
  - intros [= -> _] _. exists [], l. split; [done|]. by intros H%elem_of_nil.
  - intros [= <- H] Hy.
    destruct (filter_split _ _ _ _ _ H) as (k1 & k2 & Hu & _ & Hk2).
    assert (y ∈ k2 ∧ y ≠ a) as [Hyk Hya].
    { rewrite <- Hk2 in Hy. apply list_elem_of_In, filter_In in Hy as [Hin HP].
      split; [by apply list_elem_of_In|].
      apply negb_true_iff, bool_decide_eq_false in HP. done. }
    destruct (IH _ _ Hu Hyk) as (before & after & -> & Hnot).
    exists (a :: before), after. split; [done|].
    rewrite not_elem_of_cons. done.
Qed.

(** X24: [searchFiles] reports every file with a match once, in order of
    first match, and nothing else: the files are distinct, they are
    exactly the files of the matches, the first is the file of the first
    match, and whenever a file is listed before another, it has a match
    before every match of the other. A failed search stays failed. *)
Theorem searchFiles_distinct
    (searchPattern : string → option string → Settled (list RipgrepMatch))
    (pattern : string) (scope : option string) :
  match searchPattern pattern scope with
  | Rejected reason =>
      Ripgrep.searchFiles searchPattern pattern scope = Rejected reason
  | Fulfilled matches =>
      ∃ files,
        Ripgrep.searchFiles searchPattern pattern scope = Fulfilled files
        ∧ NoDup files
        ∧ (∀ f, f ∈ files ↔ ∃ m, m ∈ matches ∧ rg_file m = f)
        ∧ head files = rg_file <$> head matches
        ∧ (∀ pre f post g,
             files = pre ++ f :: post → g ∈ post →
             ∃ before after,
               rg_file <$> matches = before ++ f :: after ∧ g ∉ before)
  end.
Proof.
  unfold Ripgrep.searchFiles.
  destruct (searchPattern pattern scope) as [matches|reason]; [|done].
  eexists. split; [done|]. split; [apply NoDup_uniq|]. split; [|split].
  - intros f. rewrite elem_of_uniq, list_elem_of_fmap. naive_solver.
  - by destruct matches.
  - intros pre f post g Hfiles Hg. by apply (uniq_order _ pre f post g).
Qed.

Lemma trimStart_noLeading s : noLeadingSpace (JsText.trimStart s).
Proof.
  induction s as [|a s IH]; [done|]. simpl.
  destruct (JsText.is_space a) eqn:Ha; [done|]. by simpl.
Qed.

Lemma noLeading_trimStart s : noLeadingSpace s → JsText.trimStart s = s.
Proof. destruct s as [|a s]; [done|]. simpl. by intros ->. Qed.

Lemma noLeading_trimEnd s : noLeadingSpace s → noLeadingSpace (JsText.trimEnd s).
Proof.
  destruct s as [|a s]; [done|]. simpl. intros Ha.
  destruct (JsText.trimEnd s); [by rewrite Ha|done].
Qed.

Lemma trimEnd_idem s : JsText.trimEnd (JsText.trimEnd s) = JsText.trimEnd s.
Proof.
  induction s as [|a s IH]; [done|]. cbn [JsText.trimEnd].
  destruct (JsText.trimEnd s) as [|b t] eqn:Ht.
  - destruct (JsText.is_space a) eqn:Ha; [done|]. simpl. by rewrite Ha.
  - cbn [JsText.trimEnd]. cbn [JsText.trimEnd] in IH.
    destruct (JsText.trimEnd t) as [|c u].
    + destruct (JsText.is_space b); [done|]. by injection IH as ->.
    + by rewrite IH.
Qed.

Lemma trim_idem s : JsText.trim (JsText.trim s) = JsText.trim s.
Proof.
  unfold JsText.trim.
  rewrite (noLeading_trimStart (JsText.trimEnd (JsText.trimStart s))).
  - apply trimEnd_idem.
  - apply noLeading_trimEnd, trimStart_noLeading.
Qed.

Lemma ignoreLines_clean content p :
  p ∈ List.filter (λ line, Js.truthy (Some line) && negb (Js.startsWith line "#"))
        (JsText.trim <$> JsText.split content "010") →
  cleanPattern p.
Proof.
  rewrite list_elem_of_In, filter_In, <- list_elem_of_In, andb_true_iff, negb_true_iff.
  intros [Hin [Hne Hhash]]. apply list_elem_of_fmap in Hin as (line & -> & _).
  split; [by destruct (JsText.trim line)|]. split; [apply trim_idem|done].
Qed.

(** X25: what [loadIgnoreFile] hands out. Provided the patterns cached by an
    earlier call (if any) are usable lines, every pattern it returns is a
    non-empty, trimmed line that is not a comment; the returned list is
    what the module caches; when the ignore file cannot be stat'ed the
    result is empty; and a cached list is served as long as the file's
    modification time is the recorded one, whatever the file now holds. *)
Theorem loadIgnoreFile_patterns (pe : PathEnv) (fs : FileSystem) (s : IgnoreState) :
  (∀ cached p, customIgnorePatterns s = Some cached → p ∈ cached → cleanPattern p) →
  let out := Ignore.loadIgnoreFile pe fs s in
  (∀ p, p ∈ out.1 → cleanPattern p)
  ∧ customIgnorePatterns out.2 = Some out.1
  ∧ (statSync fs (join pe [getWorkspaceRoot pe; ".gitignore"]) = None → out.1 = [])
  ∧ (∀ cached,
       customIgnorePatterns s = Some cached →
       statSync fs (join pe [getWorkspaceRoot pe; ".gitignore"])
       = Some (ignoreFileWatchTime s) →
       out = (cached, s)).
Proof.
  intros Hcached out. subst out. unfold Ignore.loadIgnoreFile.
  destruct (statSync fs _) as [mtimeMs|] eqn:Hstat.
  2:{ split; [by intros p Hp%elem_of_nil|]. done. }
  destruct (customIgnorePatterns s) as [cached|] eqn:Hc.
  - destruct (mtimeMs =? ignoreFileWatchTime s) eqn:Hm.
    + split; [intros p Hp; by apply (Hcached cached)|]. split; [done|].
      split; [done|]. by intros ? [= <-] _.
    + apply Z.eqb_neq in Hm.
      destruct (readFileSync fs _) as [content|].
      * split; [intros p; apply ignoreLines_clean|]. split; [done|].
        split; [done|]. intros ? _ [= ->]. done.
      * split; [by intros p Hp%elem_of_nil|]. split; [done|].
        split; [done|]. intros ? _ [= ->]. done.
  - destruct (readFileSync fs _) as [content|].
    + split; [intros p; apply ignoreLines_clean|]. done.
    + split; [by intros p Hp%elem_of_nil|]. done.
Qed.

Lemma loadIgnoreFile_patterns_witness :
  let out := Ignore.loadIgnoreFile ignoreSamplePaths ignoreSampleFs freshIgnoreState in
  (∀ p, p ∈ out.1 → cleanPattern p)
  ∧ customIgnorePatterns out.2 = Some out.1
  ∧ (statSync ignoreSampleFs
       (join ignoreSamplePaths [getWorkspaceRoot ignoreSamplePaths; ".gitignore"]) = None →
     out.1 = [])
  ∧ (∀ cached,
       customIgnorePatterns freshIgnoreState = Some cached →
       statSync ignoreSampleFs
         (join ignoreSamplePaths [getWorkspaceRoot ignoreSamplePaths; ".gitignore"])
       = Some (ignoreFileWatchTime freshIgnoreState) →
       out = (cached, freshIgnoreState)).
Proof.
  apply (loadIgnoreFile_patterns ignoreSamplePaths ignoreSampleFs freshIgnoreState).
  intros cached p Hc. simpl in Hc. discriminate.
Defined.

Lemma loadIgnoreFile_run :
  (Ignore.loadIgnoreFile ignoreSamplePaths ignoreSampleFs freshIgnoreState).1
  = ["out"; "*["].
Proof. vm_compute. reflexivity. Qed.

Section MatchingFacts.

Variable sep : ascii.
Variable RegExp : string → Attempt (string → bool).

Lemma matchPattern_plain relativePath parts pattern :
  Js.startsWith pattern "*." = false → Js.includes pattern "*" = false →
  Ignore.matchPattern RegExp relativePath parts pattern
  = Returned (bool_decide (pattern ∈ parts)
              || (Js.startsWith relativePath (pattern +:+ "/")
                  || bool_decide (relativePath = pattern))).
Proof. intros H1 H2. unfold Ignore.matchPattern. by rewrite H1, H2. Qed.

Lemma matchAny_hit relativePath parts patterns rest pattern :
  Forall (λ p, ∃ b, Ignore.matchPattern RegExp relativePath parts p = Returned b)
    patterns →
  pattern ∈ patterns →
  Ignore.matchPattern RegExp relativePath parts pattern = Returned true →
  Ignore.matchAny RegExp relativePath parts (patterns ++ rest) = Returned true.
Proof.
  intros Hall Hin Hhit. induction Hall as [|p patterns [b Hb] Hall IH]; [by apply elem_of_nil in Hin|].
  simpl. rewrite Hb. destruct b; [done|].
  apply elem_of_cons in Hin as [->|Hin]; [congruence|by apply IH].
Qed.

Lemma matchAny_miss relativePath parts patterns rest :
  Forall (λ p, Ignore.matchPattern RegExp relativePath parts p = Returned false)
    patterns →
  Ignore.matchAny RegExp relativePath parts (patterns ++ rest)
  = Ignore.matchAny RegExp relativePath parts rest.
Proof.
  induction 1 as [|p patterns Hp Hall IH]; [done|]. simpl. by rewrite Hp.
Qed.

Lemma default_patterns_return relativePath parts :
  Forall (λ p, ∃ b, Ignore.matchPattern RegExp relativePath parts p = Returned b)
    Ignore.DEFAULT_IGNORE.
Proof.
  unfold Ignore.DEFAULT_IGNORE.
  repeat (constructor; [by eexists|]). constructor.
Qed.

End MatchingFacts.

(** X26: the default ignore rules always apply. A path with a component
    named [node_modules], [dist], [build], [.git], [.next], [.nuxt],
    [coverage] or [.cache], or ending in [.min.js] or [.bundle.js], is
    ignored whatever the ignore file holds and whatever the
    regular-expression engine does with its patterns: the defaults are
    tried first and none of them is compiled to a regular expression. *)
Theorem shouldIgnorePath_defaults_first
    (sep : ascii) (RegExp : string → Attempt (string → bool))
    (pe : PathEnv) (fs : FileSystem) (s : IgnoreState) (relativePath : string) :
  (∃ part, part ∈ JsText.split relativePath sep ∧ part ∈ defaultIgnoredNames)
  ∨ JsText.endsWith relativePath ".min.js" = true
  ∨ JsText.endsWith relativePath ".bundle.js" = true →
  (Ignore.shouldIgnorePath sep RegExp pe fs s relativePath).1 = Returned true.
Proof.
  intros Hcase. unfold Ignore.shouldIgnorePath, Ignore.getIgnorePatterns.
  destruct (Ignore.loadIgnoreFile pe fs s) as [custom s']. cbv beta iota zeta. cbn [fst].
  destruct Hcase as [(part & Hpart & Hname)|Hext].
  - apply (matchAny_hit RegExp _ _ _ _ part); [apply default_patterns_return| |].
    + unfold defaultIgnoredNames, Ignore.DEFAULT_IGNORE in *. set_solver.
    + rewrite matchPattern_plain.
      * by rewrite bool_decide_eq_true_2.
      * unfold defaultIgnoredNames in Hname. set_unfold.
        destruct Hname as [->|[->|[->|[->|[->|[->|[->|[->|[]]]]]]]]]; reflexivity.
      * unfold defaultIgnoredNames in Hname. set_unfold.
        destruct Hname as [->|[->|[->|[->|[->|[->|[->|[->|[]]]]]]]]]; reflexivity.
  - destruct Hext as [Hext|Hext].
    + apply (matchAny_hit RegExp _ _ _ _ "*.min.js"); [apply default_patterns_return| |].
      * unfold Ignore.DEFAULT_IGNORE. set_solver.
      * unfold Ignore.matchPattern.
        change (Js.startsWith "*.min.js" "*.") with true. cbv iota.
        change (JsText.sliceFrom "*.min.js" 1) with ".min.js". by rewrite Hext.
    + apply (matchAny_hit RegExp _ _ _ _ "*.bundle.js"); [apply default_patterns_return| |].
      * unfold Ignore.DEFAULT_IGNORE. set_solver.
      * unfold Ignore.matchPattern.
        change (Js.startsWith "*.bundle.js" "*.") with true. cbv iota.
        change (JsText.sliceFrom "*.bundle.js" 1) with ".bundle.js". by rewrite Hext.
Qed.

Lemma shouldIgnorePath_defaults_first_witness :
  (Ignore.shouldIgnorePath "/" ignoreSampleRegExp ignoreSamplePaths ignoreSampleFs
     freshIgnoreState "web/node_modules/react/index.js").1 = Returned true.
Proof.
  apply shouldIgnorePath_defaults_first. left. exists "node_modules".
  split; [vm_compute|unfold defaultIgnoredNames]; set_solver.
Defined.

(** X27: a broken ignore pattern breaks the path test. When a line of the
    ignore file holds a [*] (without starting with [*.]) and the
    regular-expression engine rejects its rewriting, [shouldIgnorePath]
    throws for every path that neither the default rules nor the earlier
    lines of the ignore file match. *)
Theorem shouldIgnorePath_broken_pattern
    (sep : ascii) (RegExp : string → Attempt (string → bool))
    (pe : PathEnv) (fs : FileSystem) (s : IgnoreState) (relativePath : string)
    (ok : list string) (bad err : string) (rest : list string) :
  (Ignore.loadIgnoreFile pe fs s).1 = ok ++ bad :: rest →
  Forall (λ p, Ignore.matchPattern RegExp relativePath
                 (JsText.split relativePath sep) p = Returned false)
    (Ignore.DEFAULT_IGNORE ++ ok) →
  Js.startsWith bad "*." = false →
  Js.includes bad "*" = true →
  RegExp ("^" +:+ Ignore.replaceChar "?" "." (Ignore.replaceChar "*" ".*" bad) +:+ "$")
  = Threw err →
  (Ignore.shouldIgnorePath sep RegExp pe fs s relativePath).1 = Threw err.
Proof.
  intros Hload Hmiss Hstar Hinc Hre.
  unfold Ignore.shouldIgnorePath, Ignore.getIgnorePatterns.
  destruct (Ignore.loadIgnoreFile pe fs s) as [custom s']. cbn [fst] in Hload.
  subst custom. cbv beta iota zeta. cbn [fst].
  rewrite app_assoc, matchAny_miss by done.
  cbn [Ignore.matchAny]. unfold Ignore.matchPattern. by rewrite Hstar, Hinc, Hre.
Qed.

Lemma shouldIgnorePath_broken_pattern_witness :
  (Ignore.shouldIgnorePath "/" ignoreSampleRegExp ignoreSamplePaths ignoreSampleFs
     freshIgnoreState "src/app.ts").1
  = Threw "SyntaxError: Invalid regular expression: /^.*[$/: Unterminated character class".
Proof.
  apply (shouldIgnorePath_broken_pattern "/" ignoreSampleRegExp ignoreSamplePaths
           ignoreSampleFs freshIgnoreState "src/app.ts" ["out"] "*[" _ []).
  - vm_compute. reflexivity.
  - unfold Ignore.DEFAULT_IGNORE. repeat (constructor; [vm_compute; reflexivity|]).
    constructor.
  - reflexivity.
  - reflexivity.
  - reflexivity.
Defined.

(** ** Alias store *)

Lemma find_term_Some (l : list AliasEntry) t a :
  NoDup (term <$> l) →
  List.find (λ a, bool_decide (term a = t)) l = Some a ↔ a ∈ l ∧ term a = t.
Proof.
  intros Hnd. split.
  - intros Hfind. apply find_some in Hfind as [Hin Ht].
    split; [by apply list_elem_of_In|by apply bool_decide_eq_true in Ht].
  - intros [Hin Ht]. induction l as [|b l IH]; [by apply elem_of_nil in Hin|].
    simpl. apply NoDup_cons in Hnd as [Hb Hnd].
    apply elem_of_cons in Hin as [->|Hin].
    + by rewrite bool_decide_eq_true_2.
    + rewrite bool_decide_eq_false_2; [by apply IH|].
      intros Hbt. apply Hb. rewrite Hbt, <- Ht. by apply list_elem_of_fmap_2.
Qed.

Lemma find_term_None (l : list AliasEntry) t :
  List.find (λ a, bool_decide (term a = t)) l = None ↔ t ∉ term <$> l.
Proof.
  induction l as [|b l IH]; simpl.
  - split; [intros _ H; by apply elem_of_nil in H|done].
  - destruct (decide (term b = t)) as [Hb|Hb].
    + rewrite bool_decide_eq_true_2 by done. split; [done|].
      intros Hn. destruct Hn. rewrite <- Hb. by left.
    + rewrite bool_decide_eq_false_2 by done. rewrite IH.
      rewrite not_elem_of_cons. naive_solver.
Qed.

Lemma find_term_perm (l l' : list AliasEntry) t :
  NoDup (term <$> l) → l ≡ₚ l' →
  List.find (λ a, bool_decide (term a = t)) l'
  = List.find (λ a, bool_decide (term a = t)) l.
Proof.
  intros Hnd Hperm.
  assert (NoDup (term <$> l')) as Hnd' by (by rewrite <- Hperm).
  destruct (List.find _ l) as [a|] eqn:Hfind.
  - apply find_term_Some in Hfind as [Hin Ht]; [|done].
    apply find_term_Some; [done|]. by rewrite <- Hperm.
  - apply find_term_None in Hfind. apply find_term_None. by rewrite <- Hperm.
Qed.

Lemma mutateFirst_terms P f (l : list AliasEntry) :
  (∀ a, term (f a) = term a) →
  term <$> Aliases.mutateFirst P f l = term <$> l.
Proof.
  intros Hf. induction l as [|a l IH]; [done|]. cbn [Aliases.mutateFirst].
  destruct (P a); rewrite !fmap_cons; [by rewrite Hf|by rewrite IH].
Qed.

Lemma find_mutateFirst_same t f (l : list AliasEntry) :
  (∀ a, term (f a) = term a) →
  List.find (λ a, bool_decide (term a = t))
    (Aliases.mutateFirst (λ a, bool_decide (term a = t)) f l)
  = f <$> List.find (λ a, bool_decide (term a = t)) l.
Proof.
  intros Hf. induction l as [|a l IH]; [done|]. simpl.
  destruct (bool_decide (term a = t)) eqn:Ha; simpl.
  - by rewrite Hf, Ha.
  - by rewrite Ha, IH.
Qed.

Lemma find_mutateFirst_other t other f (l : list AliasEntry) :
  (∀ a, term (f a) = term a) → other ≠ t →
  List.find (λ a, bool_decide (term a = other))
    (Aliases.mutateFirst (λ a, bool_decide (term a = t)) f l)
  = List.find (λ a, bool_decide (term a = other)) l.
Proof.
  intros Hf Hne. induction l as [|a l IH]; [done|]. simpl.
  destruct (bool_decide (term a = t)) eqn:Ha; simpl.
  - apply bool_decide_eq_true in Ha. rewrite Hf.
    by rewrite !bool_decide_eq_false_2 by congruence.
  - by rewrite IH.
Qed.

Lemma find_snoc (P : AliasEntry → bool) l a :
  List.find P (l ++ [a])
  = match List.find P l with
    | Some b => Some b
    | None => if P a then Some a else None
    end.
Proof.
  induction l as [|b l IH]; simpl; [done|]. by destruct (P b).
Qed.

(** X28: registering an alias and looking it up. On an alias file whose
    terms are distinct (a missing or unreadable file counts as empty),
    after [registerAlias term target] the lookup of [term] returns the
    targets it returned before, with [target] appended unless it was
    already among them; the lookup of every other term is unchanged; and
    the terms of the file are still distinct. *)
Theorem registerAlias_then_lookup
    (localeCompare : string → string → Z) (inputTerm target : string)
    (aliasFile : option (list AliasEntry)) :
  NoDup (term <$> Aliases.loadAliases aliasFile) →
  let aliasFile' := Aliases.registerAlias localeCompare inputTerm target aliasFile in
  let old := Aliases.lookupAlias inputTerm aliasFile in
  Aliases.lookupAlias inputTerm aliasFile'
  = (if bool_decide (target ∈ old) then old else old ++ [target])
  ∧ target ∈ Aliases.lookupAlias inputTerm aliasFile'
  ∧ (∀ other, other ≠ inputTerm →
       Aliases.lookupAlias other aliasFile' = Aliases.lookupAlias other aliasFile)
  ∧ NoDup (term <$> Aliases.loadAliases aliasFile').
Proof.
  intros Hnd aliasFile' old.
  set (aliases := Aliases.loadAliases aliasFile) in *.
  set (cmp := λ a b : AliasEntry, localeCompare (term a) (term b)).
  set (grow := λ a, {| term := term a; targets := targets a ++ [target] |}).
  assert (∀ a, term (grow a) = term a) as Hgrow by done.
  assert (∃ aliases',
            aliasFile' = Some (SearchSymbol.sortBy cmp aliases')
            ∧ NoDup (term <$> aliases')
            ∧ (match List.find (λ a, bool_decide (term a = inputTerm)) aliases' with
               | Some entry => targets entry
               | None => []
               end = if bool_decide (target ∈ old) then old else old ++ [target])
            ∧ (∀ other, other ≠ inputTerm →
                 List.find (λ a, bool_decide (term a = other)) aliases'
                 = List.find (λ a, bool_decide (term a = other)) aliases))
    as (aliases' & Hfile & Hnd' & Hsame & Hother).
  { subst aliasFile' old. unfold Aliases.registerAlias, Aliases.lookupAlias.
    fold aliases.
    destruct (List.find (λ a, bool_decide (term a = inputTerm)) aliases)
      as [existing|] eqn:Hfind.
    - destruct (bool_decide (target ∈ targets existing)) eqn:Hin; cbn [negb].
      + exists aliases. split; [done|]. split; [done|]. by rewrite Hfind.
      + exists (Aliases.mutateFirst (λ a, bool_decide (term a = inputTerm)) grow aliases).
        split; [done|]. split; [by rewrite mutateFirst_terms|]. split.
        * by rewrite find_mutateFirst_same, Hfind.
        * intros other Hne. by apply find_mutateFirst_other.
    - exists (aliases ++ [{| term := inputTerm; targets := [target] |}]).
      split; [done|]. apply find_term_None in Hfind. split; [|split].
      + rewrite fmap_app. apply NoDup_app. split; [done|].
        split; [|by apply NoDup_singleton].
        intros x Hx ->%list_elem_of_singleton. done.
      + rewrite find_snoc. apply find_term_None in Hfind. rewrite Hfind.
        simpl. by rewrite bool_decide_eq_true_2.
      + intros other Hne. rewrite find_snoc.
        destruct (List.find _ aliases); [done|]. simpl.
        by rewrite bool_decide_eq_false_2 by congruence. }
  assert (∀ t, Aliases.lookupAlias t aliasFile'
               = match List.find (λ a, bool_decide (term a = t)) aliases' with
                 | Some entry => targets entry
                 | None => []
                 end) as Hlookup.
  { intros t. rewrite Hfile. unfold Aliases.lookupAlias, Aliases.loadAliases.
    cbn [default from_option id].
    rewrite (find_term_perm aliases' (SearchSymbol.sortBy cmp aliases') t); [done|done|].
    symmetry. apply sortBy_perm. }
  assert (Aliases.lookupAlias inputTerm aliasFile'
          = if bool_decide (target ∈ old) then old else old ++ [target]) as Hnew.
  { by rewrite Hlookup. }
  split; [done|]. split; [|split].
  - rewrite Hnew. destruct (bool_decide (target ∈ old)) eqn:Hin.
    + by apply bool_decide_eq_true in Hin.
    + set_solver.
  - intros other Hne. rewrite Hlookup, Hother by done. done.
  - rewrite Hfile. unfold Aliases.loadAliases. cbn [default from_option id].
    by rewrite (sortBy_perm cmp aliases').
Qed.

Lemma registerAlias_then_lookup_witness :
  let byCode (a b : string) := if String.ltb a b then -1 else if String.eqb a b then 0 else 1 in
  let aliasFile' := Aliases.registerAlias byCode "flip" "src/cards.ts#flipCard" None in
  let old := Aliases.lookupAlias "flip" None in
  Aliases.lookupAlias "flip" aliasFile'
  = (if bool_decide ("src/cards.ts#flipCard" ∈ old) then old
     else old ++ ["src/cards.ts#flipCard"])
  ∧ "src/cards.ts#flipCard" ∈ Aliases.lookupAlias "flip" aliasFile'
  ∧ (∀ other, other ≠ "flip" →
       Aliases.lookupAlias other aliasFile' = Aliases.lookupAlias other None)
  ∧ NoDup (term <$> Aliases.loadAliases aliasFile').
Proof.
  intros byCode.
  apply (registerAlias_then_lookup byCode "flip" "src/cards.ts#flipCard" None).
  simpl. constructor.
Defined.

(** Two registrations under one term and one under another: the file is
    kept sorted by term and the targets in order of registration. *)
Lemma registerAlias_run :
  let byCode (a b : string) := if String.ltb a b then -1 else if String.eqb a b then 0 else 1 in
  Aliases.registerAlias byCode "flip" "src/deck.ts"
    (Aliases.registerAlias byCode "card" "src/cards.ts"
       (Aliases.registerAlias byCode "flip" "src/cards.ts#flipCard" None))
  = Some [{| term := "card"; targets := ["src/cards.ts"] |};
          {| term := "flip"; targets := ["src/cards.ts#flipCard"; "src/deck.ts"] |}].
Proof. vm_compute. reflexivity. Qed.

(** ** The Solidity tree walk *)

Lemma noChar_take c n s : noChar c s → noChar c (JsText.take n s).
Proof.
  revert n. induction s as [|a s IH]; intros [|n]; simpl; try done.
  intros [Ha Hs]. split; [done|by apply IH].
Qed.

Lemma noChar_trimStart c s : noChar c s → noChar c (JsText.trimStart s).
Proof.
  induction s as [|a s IH]; [done|]. simpl. intros [Ha Hs].
  destruct (JsText.is_space a); [by apply IH|done].
Qed.

Lemma noChar_trimEnd c s : noChar c s → noChar c (JsText.trimEnd s).
Proof.
  induction s as [|a s IH]; [done|]. simpl. intros [Ha Hs].
  specialize (IH Hs). destruct (JsText.trimEnd s).
  - by destruct (JsText.is_space a).
  - done.
Qed.

Lemma noChar_trim c s : noChar c s → noChar c (JsText.trim s).
Proof. intros H. by apply noChar_trimEnd, noChar_trimStart. Qed.

Lemma indexOf_range s c : JsText.indexOf s c = -1 ∨ 0 ≤ JsText.indexOf s c.
Proof.
  induction s as [|a s IH]; simpl; [by left|].
  destruct (decide (a = c)); [by right|].
  destruct (JsText.indexOf s c <? 0) eqn:E; [by left|]. right. lia.
Qed.

Lemma indexOf_absent s c : JsText.indexOf s c = -1 → noChar c s.
Proof.
  induction s as [|a s IH]; [done|]. simpl.
  destruct (decide (a = c)); [done|].
  destruct (JsText.indexOf s c <? 0) eqn:E; [|lia].
  intros _. split; [done|]. apply IH.
  destruct (indexOf_range s c); [done|lia].
Qed.

Lemma noChar_take_indexOf s c :
  noChar c (JsText.take (Z.to_nat (JsText.indexOf s c)) s).
Proof.
  induction s as [|a s IH]; [done|]. cbn [JsText.indexOf].
  destruct (decide (a = c)); [done|].
  destruct (JsText.indexOf s c <? 0) eqn:E; [done|].
  apply Z.ltb_ge in E.
  replace (Z.to_nat (JsText.indexOf s c + 1)) with (S (Z.to_nat (JsText.indexOf s c)))
    by lia.
  simpl. by split.
Qed.

Lemma length_take_le n s : (String.length (JsText.take n s) ≤ n)%nat.
Proof.
  revert s. induction n as [|n IH]; intros [|a s]; simpl; try lia.
  specialize (IH s). lia.
Qed.

Lemma getSignature_bounded node sourceCode :
  (String.length (SolidityWalk.getSignature node sourceCode) ≤ 103)%nat
  ∧ noChar "{" (SolidityWalk.getSignature node sourceCode).
Proof.
  unfold SolidityWalk.getSignature.
  set (sig0 := default "" _).
  set (sig := if negb (JsText.indexOf sig0 "{" =? -1) then _ else sig0).
  assert (noChar "{" sig) as Hsig.
  { subst sig. destruct (JsText.indexOf sig0 "{" =? -1) eqn:E; cbn [negb].
    - apply Z.eqb_eq in E. by apply indexOf_absent.
    - apply noChar_trim, noChar_take_indexOf. }
  destruct (100 <? String.length sig)%nat eqn:Hlen.
  - split.
    + rewrite length_append. pose proof (length_take_le 100 sig) as Hl.
      change (String.length "...") with 3%nat. lia.
    + apply noChar_app. split; [by apply noChar_take|]. by repeat split.
  - apply Nat.ltb_ge in Hlen. split; [lia|done].
Qed.

Lemma nodeSymbols_wellformed node filePath sourceCode s :
  s ∈ SolidityWalk.nodeSymbols node filePath sourceCode → soliditySymbol filePath s.
Proof.
  unfold SolidityWalk.nodeSymbols.
  destruct (SolidityWalk.NODE_KIND_MAP (node_type node)) as [k|] eqn:Hk;
    [|by intros H%elem_of_nil].
  destruct (SolidityWalk.getSymbolName node) as [nm|] eqn:Hn;
    [|by intros H%elem_of_nil].
  destruct nm as [|c nm]; [by intros H%elem_of_nil|].
  intros ->%list_elem_of_singleton. unfold soliditySymbol. simpl.
  split; [done|]. split; [done|]. split; [done|]. split.
  - unfold SolidityWalk.NODE_KIND_MAP, solidityKinds in *.
    repeat (case_bool_decide; [injection Hk as <-; set_solver|]). done.
  - split; [done|]. apply getSignature_bounded.
Qed.

Lemma collectSymbols_wellformed filePath sourceCode :
  ∀ node s,
    s ∈ SolidityWalk.collectSymbols node filePath sourceCode → soliditySymbol filePath s.
Proof.
  fix IH 1. intros [type text sr sc er ec named field cs] s.
  cbn [SolidityWalk.collectSymbols children].
  intros [Hown|Hsub]%elem_of_app; [by eapply nodeSymbols_wellformed|].
  clear -IH Hsub. induction cs as [|child rest IHrest];
    [by apply elem_of_nil in Hsub|].
  apply elem_of_app in Hsub as [Hchild|Hrest]; [|by apply IHrest].
  destruct (isNamed child); [by apply (IH child)|by apply elem_of_nil in Hchild].
Qed.

(** X29: the symbols of a Solidity file. Whatever tree the parser
    returns, every symbol that the Solidity extractor reports for a file
    carries that file's path and the language tag [solidity], has a
    non-empty name and one of the eleven Solidity kinds, has as range
    string the formatting of its own start and end line, and has a
    signature of at most 103 characters without an opening brace; the
    extractor reports no export records. *)
Theorem solidity_symbols_wellformed
    (parse : string → Attempt SyntaxNode) (filePath sourceCode : string)
    (symbols : list SymbolInfo) (exports : list ExportInfo) :
  SolidityWalk.extract parse filePath sourceCode = Returned (symbols, exports) →
  exports = []
  ∧ ∀ s, s ∈ symbols →
      file s = filePath
      ∧ language s = "solidity"
      ∧ name s ≠ ""
      ∧ kind s ∈ solidityKinds
      ∧ range s = FileReader.formatRange (startLine (location s)) (endLine (location s))
      ∧ (String.length (signature s) ≤ 103)%nat
      ∧ noChar "{" (signature s).
Proof.
  unfold SolidityWalk.extract. destruct (parse sourceCode) as [rootNode|err]; [|done].
  intros [= <- <-]. split; [done|]. intros s Hs.
  by apply (collectSymbols_wellformed filePath sourceCode rootNode).
Qed.

Lemma solidity_extract_run :
  SolidityWalk.extract (λ _, Returned solSampleTree) "Vault.sol" solSampleText
  = Returned
      ([{| name := "Vault"; kind := k_contract; file := "Vault.sol";
           location := {| startLine := 1; endLine := 4; startCol := 0; endCol := 1 |};
           range := "[1:4]"; signature := "contract Vault"; language := "solidity" |};
        {| name := "deposit"; kind := k_function; file := "Vault.sol";
           location := {| startLine := 2; endLine := 3; startCol := 2; endCol := 3 |};
           range := "[2:3]";
           signature := "function deposit(uint256 amount) external payable";
           language := "solidity" |}], []).
Proof. vm_compute. reflexivity. Qed.

Lemma solidity_symbols_wellformed_witness :
  ([] : list ExportInfo) = []
  ∧ ∀ s, s ∈ [{| name := "Vault"; kind := k_contract; file := "Vault.sol";
                 location := {| startLine := 1; endLine := 4; startCol := 0; endCol := 1 |};
                 range := "[1:4]"; signature := "contract Vault"; language := "solidity" |};
              {| name := "deposit"; kind := k_function; file := "Vault.sol";
                 location := {| startLine := 2; endLine := 3; startCol := 2; endCol := 3 |};
                 range := "[2:3]";
                 signature := "function deposit(uint256 amount) external payable";
                 language := "solidity" |}] →
      file s = "Vault.sol"
      ∧ language s = "solidity"
      ∧ name s ≠ ""
      ∧ kind s ∈ solidityKinds
      ∧ range s = FileReader.formatRange (startLine (location s)) (endLine (location s))
      ∧ (String.length (signature s) ≤ 103)%nat
      ∧ noChar "{" (signature s).
Proof.
  exact (solidity_symbols_wellformed (λ _, Returned solSampleTree)
           "Vault.sol" solSampleText _ _ solidity_extract_run).
Defined.

(** ** Directory walk *)

Section GlobFacts.

Variable pe : PathEnv.
Variable shouldIgnorePath : string → Attempt bool.
Variable matchPattern : string → string → Attempt bool.
Variable pattern : string.
Variable maxResults : Z.

Lemma forEntries_inv (paths : Dirent → list string) step entries results out :
  Forall (λ e, globStepOk shouldIgnorePath matchPattern pattern maxResults
                 (paths e) (step e))
    entries →
  Glob.forEntries maxResults step entries results = Returned out →
  (∃ new, out = results ++ new
          ∧ Forall (λ f, shouldIgnorePath f = Returned false
                         ∧ matchPattern f pattern = Returned true) new
          ∧ sublist new (List.concat (List.map paths entries)))
  ∧ (Z.of_nat (length results) ≤ Z.max 0 maxResults →
     Z.of_nat (length out) ≤ Z.max 0 maxResults).
Proof.
  intros Hall. revert results.
  induction Hall as [|e rest He Hall IH]; intros results; cbn [Glob.forEntries].
  { intros [= <-]. split; [|done]. exists []. rewrite app_nil_r.
    split; [done|]. split; [done|]. apply sublist_nil_l. }
  destruct (maxResults <=? Z.of_nat (length results)) eqn:Hfull.
  { intros [= <-]. split; [|done]. exists []. rewrite app_nil_r.
    split; [done|]. split; [done|]. apply sublist_nil_l. }
  apply Z.leb_gt in Hfull.
  destruct (step e results) as [r|err] eqn:Hstep; [|done].
  destruct (He results r Hstep) as [(new1 & -> & Hnew1 & Hsub1) Hlen1].
  change (Returned (results ++ new1) ≫= _)
    with (Glob.forEntries maxResults step rest (results ++ new1)).
  intros Hrest. destruct (IH _ Hrest) as [(new2 & -> & Hnew2 & Hsub2) Hlen2].
  split.
  - exists (new1 ++ new2). split; [by rewrite app_assoc|].
    split; [by apply Forall_app|]. cbn [List.map List.concat].
    by apply sublist_app.
  - intros _. apply Hlen2. specialize (Hlen1 Hfull). lia.
Qed.

Lemma walkListing_inv (paths : Dirent → list string) step listing results out :
  Forall (λ e, globStepOk shouldIgnorePath matchPattern pattern maxResults
                 (paths e) (step e))
    (default [] listing) →
  Glob.walkListing maxResults step listing results = Returned out →
  (∃ new, out = results ++ new
          ∧ Forall (λ f, shouldIgnorePath f = Returned false
                         ∧ matchPattern f pattern = Returned true) new
          ∧ sublist new (List.concat (List.map paths (default [] listing))))
  ∧ (Z.of_nat (length results) ≤ Z.max 0 maxResults →
     Z.of_nat (length out) ≤ Z.max 0 maxResults).
Proof.
  intros Hall. unfold Glob.walkListing.
  destruct (maxResults <=? Z.of_nat (length results)).
  { intros [= <-]. split; [|done]. exists []. rewrite app_nil_r.
    split; [done|]. split; [done|]. apply sublist_nil_l. }
  destruct listing as [entries|].
  - by apply forEntries_inv.
  - intros [= <-]. split; [|done]. exists []. rewrite app_nil_r.
    split; [done|]. split; [done|]. apply sublist_nil_l.
Qed.

Lemma walkEntry_inv :
  ∀ entry dir,
    globStepOk shouldIgnorePath matchPattern pattern maxResults
      (filePathsOfEntry pe dir entry)
      (Glob.walkEntry pe shouldIgnorePath matchPattern pattern maxResults dir entry).
Proof.
  fix IH 1. intros entry dir results out.
  destruct entry as [n|n listing|n]; cbn [Glob.walkEntry dirent_name];
    destruct (shouldIgnorePath _) as [[|]|err] eqn:Hign; cbn [mbind Attempt_bind];
    try done;
    try (intros [= <-]; split;
         [exists []; rewrite app_nil_r; split; [done|]; split; [done|];
          apply sublist_nil_l|lia]).
  - destruct (matchPattern _ pattern) as [[|]|err] eqn:Hmatch; cbn [mbind Attempt_bind];
      [| |done]; intros [= <-].
    + split; [|rewrite length_app; simpl; lia].
      eexists. split; [done|]. split; [by repeat constructor|].
      cbn [filePathsOfEntry dirent_name]. done.
    + split; [|lia]. exists []. rewrite app_nil_r.
      split; [done|]. split; [done|]. apply sublist_nil_l.
  - intros Hwalk.
    apply (walkListing_inv
             (filePathsOfEntry pe (join pe [dir; n]))) in Hwalk
      as [(new & -> & Hnew & Hsub) Hlen].
    + split.
      * exists new. split; [done|]. split; [done|].
        cbn [filePathsOfEntry dirent_name]. by destruct listing.
      * intros Hbelow. specialize (Hlen ltac:(lia)). lia.
    + clear -IH. destruct listing as [entries|]; [|constructor].
      cbn [default from_option id].
      induction entries as [|e rest IHrest]; constructor; [apply IH|apply IHrest].
Qed.

End GlobFacts.

(** X30: what [glob] returns. Whenever the walk completes, it has
    collected at most [maxResults] paths (none for a non-positive limit),
    every collected path passed both tests (it is not ignored and it
    matches the pattern), and the collected paths are, in the order of the
    listings, paths of file entries found below the search root through
    directories that can be listed: directories that cannot be listed and
    entries that are neither files nor directories contribute nothing. *)
Theorem glob_bounded_and_sound
    (pe : PathEnv) (shouldIgnorePath : string → Attempt bool)
    (matchPattern : string → string → Attempt bool)
    (listing : option (list Dirent)) (pattern : string) (scope : option string)
    (maxResults : Z) (out : list string) :
  Glob.glob pe shouldIgnorePath matchPattern listing pattern scope maxResults
  = Returned out →
  let searchRoot :=
    if Js.truthy scope then join pe [getWorkspaceRoot pe; default "" scope]
    else getWorkspaceRoot pe in
  Z.of_nat (length out) ≤ Z.max 0 maxResults
  ∧ (∀ f, f ∈ out →
       shouldIgnorePath f = Returned false ∧ matchPattern f pattern = Returned true)
  ∧ sublist out (filePathsOfListing pe searchRoot listing).
Proof.
  intros Hwalk searchRoot. unfold Glob.glob, Glob.walkDir in Hwalk.
  fold searchRoot in Hwalk.
  apply (walkListing_inv shouldIgnorePath matchPattern pattern maxResults
           (filePathsOfEntry pe searchRoot)) in Hwalk
    as [(new & -> & Hnew & Hsub) Hlen].
  - split; [apply Hlen; simpl; lia|]. split; [|done].
    intros f Hf. simpl in Hf. rewrite Forall_forall in Hnew. by apply Hnew.
  - apply Forall_forall. intros e _. apply walkEntry_inv.
Qed.

Lemma glob_run :
  Glob.glob ignoreSamplePaths
    (λ p, Returned (Js.includes p "node_modules"))
    (λ f _, Returned (Js.includes f "card"))
    globSampleTree "**/*card*" None 2
  = Returned ["src/cards.ts"; "card.md"].
Proof. vm_compute. reflexivity. Qed.

Lemma glob_bounded_and_sound_witness :
  Z.of_nat (length ["src/cards.ts"; "card.md"]) ≤ Z.max 0 2
  ∧ (∀ f, f ∈ ["src/cards.ts"; "card.md"] →
       (λ p, Returned (Js.includes p "node_modules")) f = Returned false
       ∧ (λ f (_ : string), Returned (Js.includes f "card")) f "**/*card*"
         = Returned true)
  ∧ sublist ["src/cards.ts"; "card.md"]
      (filePathsOfListing ignoreSamplePaths "/ws" globSampleTree).
Proof.
  exact (glob_bounded_and_sound ignoreSamplePaths
           (λ p, Returned (Js.includes p "node_modules"))
           (λ f _, Returned (Js.includes f "card"))
           globSampleTree "**/*card*" None 2 _ glob_run).
Defined.
